(** * CaptionFlow: caption timing, styling, timeline edits and export sequencing

    A shallow embedding of the TypeScript sources
    [utils.ts], [components/Timeline.tsx], [components/VideoPlayer.tsx],
    [components/StyleToolbar.tsx], [services/geminiService.ts] and
    [App.tsx], followed by the properties established about them.

    Conventions of the embedding.
    - A JavaScript [number] is [NaN], one of the two infinities, or an exact
      rational: arithmetic is carried out without floating-point rounding and
      the sign of zero is not tracked. Where the rounding of binary64 can
      change a printed digit, or its overflow the result, a statement
      either allows for the rounding error or keeps to the range without
      overflow.
    - A JavaScript [string] is a [string] of code units below 256; the
      built-in string functions are written on [list ascii].
    - React state is threaded explicitly; event handlers queued by the browser
      are tasks of an explicit queue. *)

From Stdlib Require Import ZArith QArith Qround Qabs Lqa Ascii String List Lia Bool.
From stdpp Require Import gmap strings list.

(** ** JavaScript numbers *)

Module JSNumber.

Inductive number : Type :=
| NaN
| NegInf
| Num (q : Q)
| PosInf.

Definition isNaN (n : number) : bool :=
  match n with NaN => true | _ => false end.

Definition isFinite (n : number) : bool :=
  match n with Num _ => true | _ => false end.

Definition Qltb (x y : Q) : bool := negb (Qle_bool y x).

(** [Infinity * q] for a finite [q] ([positive = false] for [-Infinity]). *)
Definition infTimes (positive : bool) (q : Q) : number :=
  match (q ?= 0)%Q with
  | Eq => NaN
  | Gt => if positive then PosInf else NegInf
  | Lt => if positive then NegInf else PosInf
  end.

Definition add (a b : number) : number :=
  match a, b with
  | NaN, _ | _, NaN => NaN
  | PosInf, NegInf | NegInf, PosInf => NaN
  | PosInf, _ | _, PosInf => PosInf
  | NegInf, _ | _, NegInf => NegInf
  | Num x, Num y => Num (x + y)
  end.

Definition neg (a : number) : number :=
  match a with
  | NaN => NaN
  | NegInf => PosInf
  | PosInf => NegInf
  | Num x => Num (- x)
  end.

Definition sub (a b : number) : number :=
  match a, b with
  | Num x, Num y => Num (x - y)
  | _, _ => add a (neg b)
  end.

Definition mul (a b : number) : number :=
  match a, b with
  | NaN, _ | _, NaN => NaN
  | Num x, Num y => Num (x * y)
  | PosInf, Num y | Num y, PosInf => infTimes true y
  | NegInf, Num y | Num y, NegInf => infTimes false y
  | PosInf, PosInf | NegInf, NegInf => PosInf
  | PosInf, NegInf | NegInf, PosInf => NegInf
  end.

(** Division; with an unsigned zero, [x / 0] takes the sign of [x]. *)
Definition div (a b : number) : number :=
  match a, b with
  | NaN, _ | _, NaN => NaN
  | Num x, Num y =>
      match (y ?= 0)%Q with
      | Eq => infTimes true x
      | _ => Num (x / y)
      end
  | Num _, (PosInf | NegInf) => Num 0
  | PosInf, Num y => if Qltb y 0 then NegInf else PosInf
  | NegInf, Num y => if Qltb y 0 then PosInf else NegInf
  | (PosInf | NegInf), (PosInf | NegInf) => NaN
  end.

(** The relational operators; every comparison with [NaN] is [false]. *)
Definition ltb (a b : number) : bool :=
  match a, b with
  | NegInf, (Num _ | PosInf) => true
  | Num _, PosInf => true
  | Num x, Num y => Qltb x y
  | _, _ => false
  end.

Definition leb (a b : number) : bool :=
  match a, b with
  | NaN, _ | _, NaN => false
  | NegInf, _ => true
  | _, PosInf => true
  | Num x, Num y => Qle_bool x y
  | _, _ => false
  end.

Definition gtb (a b : number) : bool := ltb b a.
Definition geb (a b : number) : bool := leb b a.

(** [Math.max] and [Math.min] of two arguments. *)
Definition max (a b : number) : number :=
  match a, b with
  | NaN, _ | _, NaN => NaN
  | _, _ => if ltb a b then b else a
  end.

Definition min (a b : number) : number :=
  match a, b with
  | NaN, _ | _, NaN => NaN
  | _, _ => if ltb b a then b else a
  end.

(** [n || 0]: [NaN] and zero are falsy. *)
Definition orZero (n : number) : number :=
  match n with
  | NaN => Num 0
  | _ => n
  end.

(** The remainder operator [%] on finite operands: the result has the sign
    of the dividend, the quotient being truncated towards zero. *)
Definition Qtrunc (x : Q) : Z :=
  if Qle_bool 0 x then Qfloor x else Qceiling x.

Definition Qrem (a b : Q) : Q := (a - b * inject_Z (Qtrunc (a / b)))%Q.

End JSNumber.

Export JSNumber.

Declare Scope js_scope.
Delimit Scope js_scope with js.
Bind Scope js_scope with number.
Infix "+" := JSNumber.add : js_scope.
Infix "-" := JSNumber.sub : js_scope.
Infix "*" := JSNumber.mul : js_scope.
Infix "/" := JSNumber.div : js_scope.
Infix "<?" := JSNumber.ltb : js_scope.
Infix "<=?" := JSNumber.leb : js_scope.
Infix ">?" := JSNumber.gtb : js_scope.
Infix ">=?" := JSNumber.geb : js_scope.

(** Numeric literals of the sources. *)
Definition lit (z : Z) : number := Num (inject_Z z).
Definition dec (n : Z) (d : positive) : number := Num (n # d).

(** ** JavaScript strings *)

Module JSString.

(** White space and line terminators among the code units below 256:
    TAB, LF, VT, FF, CR, SP and NBSP. A string of this model is a
    sequence of such code units; the white space above them (U+FEFF and
    the like) is outside it. *)
Definition isWhite (c : ascii) : bool :=
  let n := nat_of_ascii c in
  (Nat.leb 9 n && Nat.leb n 13) || Nat.eqb n 32 || Nat.eqb n 160.

Definition digitValue (c : ascii) : option Z :=
  let n := nat_of_ascii c in
  if Nat.leb 48 n && Nat.leb n 57 then Some (Z.of_nat (n - 48)) else None.

Definition isDigit (c : ascii) : bool :=
  match digitValue c with Some _ => true | None => false end.

Definition digitChar (d : Z) : ascii := ascii_of_nat (48 + Z.to_nat d).

(** [String.prototype.replace(a, b)] with one-character strings: only the
    first occurrence is replaced. *)
Fixpoint replaceFirst (a b : ascii) (s : list ascii) : list ascii :=
  match s with
  | [] => []
  | c :: r => if Ascii.eqb c a then b :: r else c :: replaceFirst a b r
  end.

Fixpoint trimStart (s : list ascii) : list ascii :=
  match s with
  | c :: r => if isWhite c then trimStart r else s
  | [] => []
  end.

Definition trimEnd (s : list ascii) : list ascii := rev (trimStart (rev s)).

Definition trim (s : list ascii) : list ascii := trimEnd (trimStart s).

Definition includes (c : ascii) (s : list ascii) : bool :=
  existsb (Ascii.eqb c) s.

(** [String.prototype.split(sep)] with a one-character separator. *)
Fixpoint split (sep : ascii) (s : list ascii) : list (list ascii) :=
  match s with
  | [] => [[]]
  | c :: r =>
      if Ascii.eqb c sep then [] :: split sep r
      else match split sep r with
           | p :: ps => (c :: p) :: ps
           | [] => [[c]]
           end
  end.

Definition padStart (n : nat) (c : ascii) (s : list ascii) : list ascii :=
  repeat c (n - length s) ++ s.

Fixpoint startsWith (p s : list ascii) : bool :=
  match p, s with
  | [], _ => true
  | a :: p', b :: s' => Ascii.eqb a b && startsWith p' s'
  | _ :: _, [] => false
  end.

(** Decimal numeral of a non-negative integer, least significant digit
    first into the accumulator. *)
Fixpoint decimalDigits (fuel : nat) (n : Z) (acc : list ascii) : list ascii :=
  match fuel with
  | O => acc
  | S f =>
      let acc' := digitChar (n mod 10) :: acc in
      if (n <? 10)%Z then acc' else decimalDigits f (n / 10) acc'
  end.

Definition decimalNumeral (n : Z) : list ascii :=
  decimalDigits (S (Z.to_nat (Z.log2 n))) n [].

(** [Number.prototype.toString] of an integer: its decimal numeral (the
    exponent notation JavaScript switches to from 1e21 on is not
    modelled). *)
Definition intToString (n : Z) : list ascii :=
  if (n <? 0)%Z then "-"%char :: decimalNumeral (- n) else decimalNumeral n.

(** [Number.prototype.toFixed(3)]: the integer [n] nearest to [x * 1000]
    (the larger one on a tie), printed with at least one integral digit and
    exactly three fractional digits. *)
Definition toFixed3Abs (x : Q) : list ascii :=
  let n := Qfloor (x * 1000 + (1 # 2))%Q in
  let ds := padStart 4 "0" (intToString n) in
  let k := (length ds - 3)%nat in
  firstn k ds ++ "."%char :: skipn k ds.

Definition toFixed3 (x : Q) : list ascii :=
  if Qltb x 0 then "-"%char :: toFixed3Abs (- x)%Q else toFixed3Abs x.

(** Longest prefix of decimal digits: its value on top of [acc], the number
    of digits consumed on top of [count], and the rest. *)
Fixpoint scanDigits (s : list ascii) (acc : Z) (count : nat)
  : Z * nat * list ascii :=
  match s with
  | c :: r =>
      match digitValue c with
      | Some d => scanDigits r (acc * 10 + d)%Z (S count)
      | None => (acc, count, s)
      end
  | [] => (acc, count, [])
  end.

Definition scanSign (s : list ascii) : bool * list ascii :=
  match s with
  | c :: r =>
      if Ascii.eqb c "-" then (true, r)
      else if Ascii.eqb c "+" then (false, r)
      else (false, s)
  | [] => (false, [])
  end.

Definition scanExponent (s : list ascii) : Z :=
  match s with
  | c :: r =>
      if Ascii.eqb c "e" || Ascii.eqb c "E" then
        let '(eneg, r1) := scanSign r in
        let '(ev, ne, _) := scanDigits r1 0 0 in
        if Nat.eqb ne 0 then 0%Z else if eneg then (- ev)%Z else ev
      else 0%Z
  | [] => 0%Z
  end.

(** [parseFloat]: leading white space is skipped, then the longest prefix
    that is a decimal literal ([Infinity], or digits with an optional
    fraction and exponent, optionally signed) is read; [NaN] when there is
    none. The result is the exact value of the literal: binary64 rounds
    it, and turns a literal from about 1.8e308 on into an infinity, which
    this function does not; statements about every string keep to
    literals below that range. *)
Definition parseFloat (s : list ascii) : number :=
  let '(negative, s1) := scanSign (trimStart s) in
  if startsWith (list_ascii_of_string "Infinity") s1 then
    (if negative then NegInf else PosInf)
  else
    let '(ip, ni, s2) := scanDigits s1 0 0 in
    let '(fp, nf, s3) :=
      match s2 with
      | c :: r => if Ascii.eqb c "." then scanDigits r 0 0 else (0%Z, O, s2)
      | [] => (0%Z, O, s2)
      end in
    if Nat.eqb (ni + nf) 0 then NaN
    else
      let mant := (inject_Z ip + inject_Z fp / inject_Z (10 ^ Z.of_nat nf))%Q in
      let v := (mant * Qpower 10 (scanExponent s3))%Q in
      Num (if negative then (- v)%Q else v).

End JSString.

Export JSString.

(** ** utils.ts: the time codec *)

(** The argument type [string | number | undefined] of [parseTime]. *)
Inductive timeArg : Type :=
| TUndefined
| TNumber (n : number)
| TString (s : string).

Definition parseTime (timeStr : timeArg) : number :=
  match timeStr with
  | TUndefined => lit 0
  | TNumber n => n
  | TString str =>
      let normalized :=
        trim (replaceFirst "," "." (list_ascii_of_string str)) in
      match normalized with
      | [] => lit 0
      | _ :: _ =>
          if negb (includes ":" normalized) then
            let val := parseFloat normalized in
            if isNaN val then lit 0 else val
          else
            let parts := map parseFloat (split ":" normalized) in
            if existsb isNaN parts then lit 0
            else
              match parts with
              | [p0; p1; p2] => (p0 * lit 3600 + p1 * lit 60 + p2)%js
              | [p0; p1] => (p0 * lit 60 + p1)%js
              | [p0] => p0
              | _ => lit 0
              end
      end
  end.

Definition formatTime (seconds : number) : string :=
  if negb (isFinite seconds) || (seconds <? lit 0)%js then "00:00:00.000"
  else
    match seconds with
    | Num q =>
        let h := Qfloor (q / 3600) in
        let m := Qfloor (Qrem q 3600 / 60) in
        let s := Qrem q 60 in
        let sFormatted := padStart 6 "0" (toFixed3 s) in
        string_of_list_ascii
          (padStart 2 "0" (intToString h) ++ ":"%char ::
           padStart 2 "0" (intToString m) ++ ":"%char :: sFormatted)
    | _ => "00:00:00.000" (* not finite: excluded by the guard *)
    end.

(** ** types.ts and constants.ts: the data model *)

Inductive AnimationType : Type :=
| NONE
| FADE_IN
| SLIDE_UP
| SCALE_UP
| KARAOKE_HIGHLIGHT.

(** A style object maps property names to values; [StyleConfig] has every
    property of the interface, [Partial<StyleConfig>] any subset. *)
Inductive styleValue : Type :=
| VString (s : string)
| VNumber (n : number)
| VAnimation (a : AnimationType).

Abbreviation StyleConfig := (gmap string styleValue).

Definition DEFAULT_STYLE : StyleConfig :=
  <["fontFamily" := VString "Montserrat"]>
  (<["fontSize" := VNumber (lit 32)]>
  (<["textColor" := VString "#FFFFFF"]>
  (<["borderColor" := VString "#000000"]>
  (<["borderWidth" := VNumber (lit 4)]>
  (<["backgroundColor" := VString "#000000"]>
  (<["backgroundOpacity" := VNumber (lit 0)]>
  (<["animationType" := VAnimation SCALE_UP]>
  (<["positionY" := VNumber (lit 70)]>
  (<["positionX" := VNumber (lit 50)]>
  (<["fontWeight" := VString "900"]> ∅)))))))))).

Module Caption.
Record t : Type := mk {
  id : string;
  start : string;
  end_ : string;
  text : string;
  style : option StyleConfig
}.
End Caption.

(** [Partial<Caption>]: a present key overrides; [style] may be present
    with the value [undefined]. *)
Module Updates.
Record t : Type := mk {
  id : option string;
  start : option string;
  end_ : option string;
  text : option string;
  style : option (option StyleConfig)
}.
End Updates.

(** The object spread [{ ...c, ...updates }]. *)
Definition spreadCaption (c : Caption.t) (u : Updates.t) : Caption.t :=
  Caption.mk
    (default (Caption.id c) (Updates.id u))
    (default (Caption.start c) (Updates.start u))
    (default (Caption.end_ c) (Updates.end_ u))
    (default (Caption.text c) (Updates.text u))
    (default (Caption.style c) (Updates.style u)).

(** ** utils.ts: style resolution *)

(** The object spread [{ ...globalStyle, ...override }]: the properties of
    the right operand win. *)
Definition spread (globalStyle override : StyleConfig) : StyleConfig :=
  override ∪ globalStyle.

Definition getEffectiveStyle (globalStyle : StyleConfig)
    (caption : option Caption.t) : StyleConfig :=
  match caption with
  | None => globalStyle
  | Some c =>
      match Caption.style c with
      | None => globalStyle
      | Some override => spread globalStyle override
      end
  end.

(** ** components/VideoPlayer.tsx: the active caption *)

Definition containsTime (time : number) (c : Caption.t) : bool :=
  let start := parseTime (TString (Caption.start c)) in
  let end_ := parseTime (TString (Caption.end_ c)) in
  (time >=? start)%js && (time <=? end_)%js.

Definition findCaptionAtTime (captions : list Caption.t) (time : number)
  : option Caption.t :=
  List.find (containsTime time) captions.

(** What one [render] tick draws over the frame: the text and effective
    style of the caption found at the video element's live time. *)
Definition renderOverlay (styleConfig : StyleConfig)
    (captions : list Caption.t) (liveTime : number)
  : option (string * StyleConfig) :=
  match findCaptionAtTime captions liveTime with
  | Some activeCaption =>
      Some (Caption.text activeCaption,
            getEffectiveStyle styleConfig (Some activeCaption))
  | None => None
  end.

(** ** components/Timeline.tsx: pointer drags *)

Inductive DragType : Type :=
| Move
| ResizeLeft
| ResizeRight
| Playhead.

Module Dragging.
Record t : Type := mk {
  id : option string;
  type : DragType;
  startX : number;
  initialStart : option number;
  initialEnd : option number
}.
End Dragging.

Definition pixelsToTime (zoom px : number) : number := (px / zoom)%js.
Definition timeToPixels (zoom time : number) : number := (time * zoom)%js.

Definition handleZoom (prev delta : number) : number :=
  JSNumber.max (lit 10) (JSNumber.min (lit 300) (prev + delta)%js).

Definition maxCaptionTime (captions : list Caption.t) : number :=
  fold_left
    (fun acc c => JSNumber.max acc (parseTime (TString (Caption.end_ c))))
    captions (lit 0).

Definition effectiveDuration (duration : number)
    (captions : list Caption.t) : number :=
  JSNumber.max (orZero duration) (maxCaptionTime captions + lit 5)%js.

Definition handleMouseDown (clientX : number) (id : string)
    (type : DragType) (start end_ : number) : Dragging.t :=
  Dragging.mk (Some id) type clientX (Some start) (Some end_).

Definition handlePlayheadMouseDown (clientX : number) : Dragging.t :=
  Dragging.mk None Playhead clientX None None.

(** The [onMouseDown] handlers of a rendered caption block. *)
Definition captionMouseDown (caption : Caption.t) (type : DragType)
    (clientX : number) : Dragging.t :=
  handleMouseDown clientX (Caption.id caption) type
    (parseTime (TString (Caption.start caption)))
    (parseTime (TString (Caption.end_ caption))).

(** The span computed by [handleMouseMove] for a caption drag. The sums
    are the exact ones; the source adds in binary64, whose results differ
    from them by a rounding error, and statements about the committed time
    codes allow for that error where it can change a printed digit. *)
Definition dragSpan (type : DragType) (initialStart initialEnd deltaTime : number)
  : number * number :=
  match type with
  | Move =>
      let newStart := JSNumber.max (lit 0) (initialStart + deltaTime)%js in
      let newEnd :=
        JSNumber.max (newStart + dec 1 10)%js (initialEnd + deltaTime)%js in
      (newStart, newEnd)
  | ResizeLeft =>
      let newStart :=
        JSNumber.max (lit 0)
          (JSNumber.min (initialEnd - dec 2 10)%js (initialStart + deltaTime)%js) in
      (newStart, initialEnd)
  | ResizeRight =>
      let newEnd :=
        JSNumber.max (initialStart + dec 2 10)%js (initialEnd + deltaTime)%js in
      (initialStart, newEnd)
  | Playhead => (initialStart, initialEnd)
  end.

(** What a mouse-move event makes the timeline call. *)
Inductive timelineCall : Type :=
| NoCall
| OnSeek (time : number)
| OnCaptionChange (id : string) (updates : Updates.t).

(** [container] is the scroll container when mounted: the left edge of its
    bounding rectangle and its scroll offset. *)
Definition handleMouseMove (zoom effDuration : number)
    (container : option (number * number))
    (dragging : option Dragging.t) (clientX : number) : timelineCall :=
  match dragging with
  | None => NoCall
  | Some d =>
      match Dragging.type d with
      | Playhead =>
          match container with
          | Some (rectLeft, scrollLeft) =>
              let offsetX := (clientX - rectLeft + scrollLeft)%js in
              let newTime :=
                JSNumber.max (lit 0)
                  (JSNumber.min effDuration (pixelsToTime zoom offsetX)) in
              OnSeek newTime
          | None => NoCall
          end
      | type =>
          match Dragging.id d, Dragging.initialStart d, Dragging.initialEnd d with
          | Some id, Some initialStart, Some initialEnd =>
              if String.eqb id EmptyString then NoCall
              else
                let deltaPixels := (clientX - Dragging.startX d)%js in
                let deltaTime := pixelsToTime zoom deltaPixels in
                let '(newStart, newEnd) :=
                  dragSpan type initialStart initialEnd deltaTime in
                OnCaptionChange id
                  (Updates.mk None (Some (formatTime newStart))
                     (Some (formatTime newEnd)) None None)
          | _, _, _ => NoCall
          end
      end
  end.

(** ** App.tsx: the caption list *)

(** [Array.prototype.sort] with a comparator: a stable sort; [y] goes
    before [x] only when the comparator puts [x] after [y]. *)
Section Sort.

Context {A : Type} (compareFn : A -> A -> number).

Fixpoint insertSorted (x : A) (l : list A) : list A :=
  match l with
  | [] => [x]
  | y :: r =>
      if (compareFn x y >? lit 0)%js then y :: insertSorted x r
      else x :: y :: r
  end.

Definition sort (l : list A) : list A := fold_right insertSorted [] l.

End Sort.

Definition byStart (a b : Caption.t) : number :=
  (parseTime (TString (Caption.start a)) - parseTime (TString (Caption.start b)))%js.

(** [now] is the value of [Date.now()]. *)
Definition handleAddCaption (now : Z) (currentTime duration : number)
    (prev : list Caption.t) : list Caption.t :=
  let start := currentTime in
  let end_ := JSNumber.min duration (start + lit 2)%js in
  let newCaption :=
    Caption.mk
      ("manual-" +:+ string_of_list_ascii (intToString now))
      (formatTime start) (formatTime end_) "New Caption" None in
  sort byStart (prev ++ [newCaption]).

(** [captions] is the list the handler closed over, [prev] the list the
    state updater receives. *)
Definition handleSplitCaption (captions : list Caption.t) (id : string)
    (prev : list Caption.t) : list Caption.t :=
  match List.find (fun c => String.eqb (Caption.id c) id) captions with
  | None => prev
  | Some captionToSplit =>
      let start := parseTime (TString (Caption.start captionToSplit)) in
      let end_ := parseTime (TString (Caption.end_ captionToSplit)) in
      let mid := (start + (end_ - start) / lit 2)%js in
      let part1 :=
        spreadCaption captionToSplit
          (Updates.mk None None (Some (formatTime mid)) None None) in
      let part2 :=
        spreadCaption captionToSplit
          (Updates.mk (Some (Caption.id captionToSplit +:+ "-split"))
             (Some (formatTime mid)) None
             (Some (Caption.text captionToSplit +:+ " (Part 2)")) None) in
      sort byStart
        (map (fun c => if String.eqb (Caption.id c) id then part1 else c) prev
           ++ [part2])
  end.

Definition handleCaptionChange (id : string) (updates : Updates.t)
    (prev : list Caption.t) : list Caption.t :=
  map (fun c => if String.eqb (Caption.id c) id then spreadCaption c updates else c)
    prev.

Definition onCaptionDelete (id : string) (prev : list Caption.t)
  : list Caption.t :=
  List.filter (fun c => negb (String.eqb (Caption.id c) id)) prev.

(** A timeline drag, end to end: mouse down on a caption block, one mouse
    move, and the resulting call applied to the caption list. *)
Definition applyCall (call : timelineCall) (captions : list Caption.t)
  : list Caption.t :=
  match call with
  | OnCaptionChange id updates => handleCaptionChange id updates captions
  | _ => captions
  end.

(** ** App.tsx: export *)

Inductive Status : Type :=
| idle
| uploading
| transcribing
| success
| error.

Record ProcessingState : Type := {
  status : Status;
  message : option string
}.

(** The fields of the [HTMLVideoElement] the export touches. *)
Module Video.
Record t : Type := mk {
  currentTime : number;
  muted : bool;
  playbackRate : number;
  duration : number;
  onended : bool   (* whether an [onended] handler is installed *)
}.
End Video.

(** A [Blob] is the sequence of its bytes. *)
Abbreviation Blob := (list ascii) (only parsing).

Inductive RecorderState : Type :=
| inactive
| recording.

(** Events the recorder queues for dispatch after the running code
    yields. *)
Inductive Task : Type :=
| DataAvailable (data : Blob)
| Stop.

(** Calls and notifications on the video element and the recorder, in the
    order they happen. *)
Inductive Event : Type :=
| RecorderStarted
| TimeSet (t : number)
| MutedSet (b : bool)
| Seeked
| PlayCalled
| PlayRejected
| Ended
| RecorderStopped
| ChunkPushed
| Downloaded.

Record World : Type := {
  video : Video.t;
  isPlaying : bool;
  processing : ProcessingState;
  recorder : RecorderState;
  chunks : list Blob;
  downloads : list (string * Blob);
  tasks : list Task;
  trace : list Event
}.

(** What the browser decides during one export: whether the promise of
    [video.play()] resolves, and the data the recorder has gathered by the
    time it is stopped. *)
Record Environment : Type := {
  playResolves : bool;
  captured : Blob
}.

Module ExportM.

Definition M (A : Type) : Type := World -> A * World.

Definition ret {A} (a : A) : M A := fun w => (a, w).

Definition bind {A B} (m : M A) (k : A -> M B) : M B :=
  fun w => let '(a, w') := m w in k a w'.

Definition modify (f : World -> World) : M unit := fun w => (tt, f w).

Definition gets {A} (f : World -> A) : M A := fun w => (f w, w).

Definition emit (e : Event) (w : World) : World :=
  {| video := video w; isPlaying := isPlaying w; processing := processing w;
     recorder := recorder w; chunks := chunks w; downloads := downloads w;
     tasks := tasks w; trace := trace w ++ [e] |}.

Definition withVideo (f : Video.t -> Video.t) (w : World) : World :=
  {| video := f (video w); isPlaying := isPlaying w;
     processing := processing w; recorder := recorder w; chunks := chunks w;
     downloads := downloads w; tasks := tasks w; trace := trace w |}.

Definition setProcessing (s : Status) (msg : string) : M unit :=
  modify (fun w =>
    {| video := video w; isPlaying := isPlaying w;
       processing := {| status := s; message := Some msg |};
       recorder := recorder w; chunks := chunks w; downloads := downloads w;
       tasks := tasks w; trace := trace w |}).

Definition setIsPlaying (b : bool) : M unit :=
  modify (fun w =>
    {| video := video w; isPlaying := b; processing := processing w;
       recorder := recorder w; chunks := chunks w; downloads := downloads w;
       tasks := tasks w; trace := trace w |}).

(** [new MediaRecorder(...)] with a fresh [chunks] array. *)
Definition newRecorder : M unit :=
  modify (fun w =>
    {| video := video w; isPlaying := isPlaying w; processing := processing w;
       recorder := inactive; chunks := []; downloads := downloads w;
       tasks := tasks w; trace := trace w |}).

Definition recorderStart : M unit :=
  modify (fun w =>
    emit RecorderStarted
      {| video := video w; isPlaying := isPlaying w;
         processing := processing w; recorder := recording;
         chunks := chunks w; downloads := downloads w; tasks := tasks w;
         trace := trace w |}).

(** [mediaRecorder.stop()]: the gathered data and the stop notification
    are queued. *)
Definition recorderStop (env : Environment) : M unit :=
  modify (fun w =>
    emit RecorderStopped
      {| video := video w; isPlaying := isPlaying w;
         processing := processing w; recorder := inactive;
         chunks := chunks w; downloads := downloads w;
         tasks := tasks w ++ [DataAvailable (captured env); Stop];
         trace := trace w |}).

Definition setCurrentTime (t : number) : M unit :=
  modify (fun w =>
    emit (TimeSet t)
      (withVideo (fun v =>
         Video.mk t (Video.muted v) (Video.playbackRate v)
           (Video.duration v) (Video.onended v)) w)).

Definition setMuted (b : bool) : M unit :=
  modify (fun w =>
    emit (MutedSet b)
      (withVideo (fun v =>
         Video.mk (Video.currentTime v) b (Video.playbackRate v)
           (Video.duration v) (Video.onended v)) w)).

Definition setPlaybackRate (r : number) : M unit :=
  modify (withVideo (fun v =>
    Video.mk (Video.currentTime v) (Video.muted v) r
      (Video.duration v) (Video.onended v))).

Definition setOnended (installed : bool) : M unit :=
  modify (withVideo (fun v =>
    Video.mk (Video.currentTime v) (Video.muted v) (Video.playbackRate v)
      (Video.duration v) installed)).

(** Waiting for the [seeked] notification. *)
Definition awaitSeeked : M unit := modify (emit Seeked).

(** [await video.play()]: [true] when the promise resolves. *)
Definition play (env : Environment) : M bool :=
  fun w =>
    let w1 := emit PlayCalled w in
    if playResolves env then (true, w1) else (false, emit PlayRejected w1).

(** Waiting for [ended]: the video has played up to its duration. *)
Definition awaitEnded : M unit :=
  bind (setOnended true) (fun _ =>
  modify (fun w =>
    emit Ended
      (withVideo (fun v =>
         Video.mk (Video.duration v) (Video.muted v) (Video.playbackRate v)
           (Video.duration v) (Video.onended v)) w))).

(** The anchor click of [onstop]: the file handed to the user. *)
Definition download (name : string) (blob : Blob) : M unit :=
  modify (fun w =>
    emit Downloaded
      {| video := video w; isPlaying := isPlaying w;
         processing := processing w; recorder := recorder w;
         chunks := chunks w; downloads := downloads w ++ [(name, blob)];
         tasks := tasks w; trace := trace w |}).

Definition pushChunk (data : Blob) : M unit :=
  modify (fun w =>
    emit ChunkPushed
      {| video := video w; isPlaying := isPlaying w;
         processing := processing w; recorder := recorder w;
         chunks := chunks w ++ [data]; downloads := downloads w;
         tasks := tasks w; trace := trace w |}).

End ExportM.

Import ExportM.

Declare Scope export_scope.
Delimit Scope export_scope with export.
Notation "x <- m ;; k" := (bind m (fun x => k))
  (at level 100, m at next level, k at level 200, right associativity)
  : export_scope.
Notation "m ;; k" := (bind m (fun _ => k))
  (at level 100, k at level 200, right associativity) : export_scope.
Local Open Scope export_scope.

Definition ondataavailable (data : Blob) : M unit :=
  if Nat.ltb 0 (length data) then pushChunk data else ret tt.

(** [currentTime] is the React state value the handler closed over. *)
Definition onstop (currentTime : number) : M unit :=
  cs <- gets chunks ;;
  let blob : Blob := concat cs in
  download "captioned_video.webm" blob ;;
  setProcessing success "Video exported successfully!" ;;
  setCurrentTime currentTime ;;
  setMuted false ;;
  setPlaybackRate (lit 1).

(** [playerReady] tells whether the player ref and both of its elements
    are set. *)
Definition handleExport (env : Environment) (playerReady : bool)
    (currentTime : number) : M unit :=
  if negb playerReady then ret tt
  else
    setProcessing transcribing "Rendering video... Do not close this tab." ;;
    setIsPlaying false ;;
    newRecorder ;;
    recorderStart ;;
    originalTime <- gets (fun w => Video.currentTime (video w)) ;;
    originalMuted <- gets (fun w => Video.muted (video w)) ;;
    setCurrentTime (lit 0) ;;
    setMuted true ;;
    awaitSeeked ;;
    (* try *)
    (played <- play env ;;
     if played then
       awaitEnded ;;
       recorderStop env
     else
       (* catch *)
       setProcessing error "Export failed during rendering." ;;
       recorderStop env) ;;
    (* finally *)
    setOnended false ;;
    setMuted originalMuted ;;
    setCurrentTime originalTime.

Definition dispatch (currentTime : number) (t : Task) : M unit :=
  match t with
  | DataAvailable data => ondataavailable data
  | Stop => onstop currentTime
  end.

(** The event loop delivering the queued recorder events, oldest first. *)
Definition runTasks (currentTime : number) (w : World) : World :=
  fold_left (fun w t => snd (dispatch currentTime t w)) (tasks w)
    {| video := video w; isPlaying := isPlaying w; processing := processing w;
       recorder := recorder w; chunks := chunks w; downloads := downloads w;
       tasks := []; trace := trace w |}.

(** One export run: the handler, then the events it left queued. *)
Definition exportRun (env : Environment) (playerReady : bool)
    (currentTime : number) (w : World) : World :=
  runTasks currentTime (snd (handleExport env playerReady currentTime w)).

(** The state of the application between exports: nothing queued, nothing
    traced yet. *)
Definition quiescent (v : Video.t) (p : ProcessingState) (playing : bool)
  : World :=
  {| video := v; isPlaying := playing; processing := p; recorder := inactive;
     chunks := []; downloads := []; tasks := []; trace := [] |}.

(** Position of the first event satisfying [p]. *)
Fixpoint firstIndex (p : Event -> bool) (l : list Event) : option nat :=
  match l with
  | [] => None
  | e :: r => if p e then Some O else option_map S (firstIndex p r)
  end.

(** [p] occurs, and strictly before the first [q] if [q] occurs at all. *)
Definition before (p q : Event -> bool) (l : list Event) : bool :=
  match firstIndex p l, firstIndex q l with
  | Some i, Some j => Nat.ltb i j
  | Some _, None => true
  | None, _ => false
  end.

Definition isRecorderStarted (e : Event) : bool :=
  match e with RecorderStarted => true | _ => false end.
Definition isSeekToZero (e : Event) : bool :=
  match e with TimeSet (Num q) => Qeq_bool q 0 | _ => false end.
Definition isMutedOn (e : Event) : bool :=
  match e with MutedSet true => true | _ => false end.
Definition isSeeked (e : Event) : bool :=
  match e with Seeked => true | _ => false end.
Definition isPlayCalled (e : Event) : bool :=
  match e with PlayCalled => true | _ => false end.
Definition isRecorderStopped (e : Event) : bool :=
  match e with RecorderStopped => true | _ => false end.

(** ** components/StyleToolbar.tsx: style edits *)

(** The edit mode ['global' | 'current']. *)
Inductive EditMode : Type :=
| GlobalMode
| CurrentMode.

(** What a toolbar handler makes the toolbar call. *)
Inductive toolbarCall : Type :=
| NoToolbarCall
| OnGlobalChange (newConfig : StyleConfig)
| ToolbarCaptionChange (id : string) (updates : Updates.t).

(** The spread [{ ...style, [key]: value }] of an optional style: an
    absent style spreads as no property. *)
Definition spreadWith (style : option StyleConfig) (key : string)
    (value : styleValue) : StyleConfig :=
  <[key := value]> (default ∅ style).

Definition handleChange (editMode : EditMode) (globalConfig : StyleConfig)
    (activeCaption : option Caption.t) (key : string) (value : styleValue)
  : toolbarCall :=
  match editMode with
  | GlobalMode => OnGlobalChange (<[key := value]> globalConfig)
  | CurrentMode =>
      match activeCaption with
      | Some c =>
          ToolbarCaptionChange (Caption.id c)
            (Updates.mk None None None None
               (Some (Some (spreadWith (Caption.style c) key value))))
      | None => NoToolbarCall
      end
  end.


(** The toolbar's calls as wired in [App.tsx]: [setStyleConfig] and
    [handleCaptionChange]. *)
Definition applyToolbarCall (call : toolbarCall)
    (state : StyleConfig * list Caption.t) : StyleConfig * list Caption.t :=
  match call with
  | NoToolbarCall => state
  | OnGlobalChange newConfig => (newConfig, snd state)
  | ToolbarCaptionChange id updates =>
      (fst state, handleCaptionChange id updates (snd state))
  end.

(** ** components/VideoPlayer.tsx: dragging the caption on the canvas *)

Definition abs (n : number) : number :=
  match n with
  | NaN => NaN
  | NegInf | PosInf => PosInf
  | Num q => Num (Qabs q)
  end.

(** A numeric property read off a style object; [undefined] turns into
    [NaN] in the arithmetic that uses it. *)
Definition numericProperty (config : StyleConfig) (key : string) : number :=
  match config !! key with
  | Some (VNumber n) => n
  | _ => NaN
  end.

(** The drag state of the player: [isDraggingText] and
    [activeCaptionId]. *)
Record TextDrag : Type := {
  isDraggingText : bool;
  activeCaptionId : option string
}.

(** The bounding rectangle of the canvas. *)
Record Rect : Type := {
  left : number;
  top : number;
  width : number;
  height : number
}.

Inductive canvasCall : Type :=
| NoCanvasCall
| OnPlayToggle
| CanvasCaptionChange (id : string) (updates : Updates.t).

(** [mounted] tells whether the canvas and video refs are set;
    [liveTime] is the video element's time. *)
Definition handleCanvasMouseDown (mounted : bool) (captions : list Caption.t)
    (styleConfig : StyleConfig) (liveTime : number) (rect : Rect)
    (clientX clientY : number) (drag : TextDrag) : TextDrag * canvasCall :=
  if negb mounted then (drag, NoCanvasCall)
  else
    match findCaptionAtTime captions liveTime with
    | None => (drag, NoCanvasCall)
    | Some activeCaption =>
        let effectiveStyle := getEffectiveStyle styleConfig (Some activeCaption) in
        let clickX := (clientX - left rect)%js in
        let clickY := (clientY - top rect)%js in
        let clickPercX := (clickX / width rect * lit 100)%js in
        let clickPercY := (clickY / height rect * lit 100)%js in
        let hitToleranceX := lit 20 in
        let hitToleranceY := lit 15 in
        if (abs (clickPercX - numericProperty effectiveStyle "positionX")
              <? hitToleranceX)%js
           && (abs (clickPercY - numericProperty effectiveStyle "positionY")
                 <? hitToleranceY)%js
        then
          ({| isDraggingText := true;
              activeCaptionId := Some (Caption.id activeCaption) |},
           NoCanvasCall)
        else (drag, OnPlayToggle)
    end.

Definition handleCanvasMouseMove (mounted : bool) (captions : list Caption.t)
    (rect : Rect) (clientX clientY : number) (drag : TextDrag) : canvasCall :=
  if negb (isDraggingText drag) || negb mounted then NoCanvasCall
  else
    match activeCaptionId drag with
    | None => NoCanvasCall
    | Some activeId =>
        if String.eqb activeId EmptyString then NoCanvasCall
        else
          let currentX := (clientX - left rect)%js in
          let currentY := (clientY - top rect)%js in
          let newPercX :=
            JSNumber.max (lit 0)
              (JSNumber.min (lit 100) (currentX / width rect * lit 100)%js) in
          let newPercY :=
            JSNumber.max (lit 0)
              (JSNumber.min (lit 100) (currentY / height rect * lit 100)%js) in
          match List.find (fun c => String.eqb (Caption.id c) activeId) captions with
          | Some activeCaption =>
              CanvasCaptionChange (Caption.id activeCaption)
                (Updates.mk None None None None
                   (Some (Some
                      (<["positionY" := VNumber newPercY]>
                         (spreadWith (Caption.style activeCaption)
                            "positionX" (VNumber newPercX))))))
          | None => NoCanvasCall
          end
    end.

Definition handleCanvasMouseUp (drag : TextDrag) : TextDrag :=
  {| isDraggingText := false; activeCaptionId := None |}.

(** ** components/VideoPlayer.tsx: drawing the caption *)

(** The properties [drawCaption] destructures from its [config]. *)
Record StyleFields : Type := {
  fontFamily : string;
  fontSize : number;
  textColor : string;
  borderColor : string;
  borderWidth : number;
  backgroundColor : string;
  backgroundOpacity : number;
  positionY : number;
  positionX : number;
  fontWeight : string;
  animationType : AnimationType
}.

(** The calls on the 2D context that put pixels on the canvas or set what
    the text is drawn with. *)
Inductive DrawOp : Type :=
| SetFont (fontWeight : string) (sizePx : number) (fontFamily : string)
| FillRect (x y w h : number) (fillStyle : string) (globalAlpha : number)
| SetShadow (color : string) (blur offsetX offsetY : number)
| StrokeText (line : list ascii) (x y : number) (lineWidth : number)
    (strokeStyle : string)
| FillText (line : list ascii) (x y : number) (fillStyle : string)
| ClearShadow.

Definition isKaraoke (a : AnimationType) : bool :=
  match a with KARAOKE_HIGHLIGHT => true | _ => false end.

(** [Math.max(...values)]. *)
Definition maxOf (values : list number) : number :=
  fold_left JSNumber.max values NegInf.

Section DrawCaption.

(** [ctx.measureText(line).width] under the font [drawCaption] has set. *)
Context (measureText : list ascii -> number).

(** The word-wrapping loop: [currentLine] and the words still to place. *)
Fixpoint wrapWords (maxLineWidth : number) (currentLine : list ascii)
    (words : list (list ascii)) : list (list ascii) :=
  match words with
  | [] => [currentLine]
  | word :: rest =>
      let testLine := currentLine ++ " "%char :: word in
      if (measureText testLine <? maxLineWidth)%js
      then wrapWords maxLineWidth testLine rest
      else currentLine :: wrapWords maxLineWidth word rest
  end.

Definition wordWrap (text : list ascii) (width : number)
  : list (list ascii) :=
  match split " " text with
  | first :: rest => wrapWords (width * dec 9 10)%js first rest
  | [] => [[]]
  end.

(** The [forEach] over the lines, from [index] on. *)
Fixpoint drawLines (config : StyleFields) (scaleFactor x y lineHeight : number)
    (count : nat) (fill : string) (index : nat) (lines : list (list ascii))
  : list DrawOp :=
  match lines with
  | [] => []
  | line :: rest =>
      let startY :=
        (y - (lit (Z.of_nat count) - lit 1) * lineHeight / lit 2)%js in
      let lineY := (startY + lit (Z.of_nat index) * lineHeight)%js in
      (if (borderWidth config >? lit 0)%js
       then [StrokeText line x lineY (borderWidth config * scaleFactor)%js
               (borderColor config)]
       else [])
      ++ FillText line x lineY fill
      :: drawLines config scaleFactor x y lineHeight count fill (S index) rest
  end.

Definition drawCaption (text : list ascii) (width height : number)
    (config : StyleFields) : list DrawOp :=
  let scaleFactor := (JSNumber.min width height / lit 720)%js in
  let scaledFontSize := (fontSize config * scaleFactor)%js in
  let lines := wordWrap text width in
  let lineHeight := (scaledFontSize * dec 13 10)%js in
  let totalBlockHeight := (lit (Z.of_nat (length lines)) * lineHeight)%js in
  let x := (positionX config / lit 100 * width)%js in
  let y := (positionY config / lit 100 * height)%js in
  let background :=
    if (backgroundOpacity config >? lit 0)%js then
      let maxWidth := maxOf (map measureText lines) in
      let padding := (lit 20 * scaleFactor)%js in
      let bgX := (x - maxWidth / lit 2 - padding)%js in
      let bgY := (y - totalBlockHeight / lit 2 - padding)%js in
      let bgW := (maxWidth + padding * lit 2)%js in
      let bgH := (totalBlockHeight + padding * lit 2)%js in
      [FillRect bgX bgY bgW bgH (backgroundColor config)
         (backgroundOpacity config)]
    else [] in
  let fill :=
    if isKaraoke (animationType config) then "#34d399"
    else textColor config in
  SetFont (fontWeight config) scaledFontSize (fontFamily config)
  :: background
  ++ SetShadow "rgba(0,0,0,0.8)" (lit 4 * scaleFactor)%js
       (lit 2 * scaleFactor)%js (lit 2 * scaleFactor)%js
  :: drawLines config scaleFactor x y lineHeight (length lines) fill 0 lines
  ++ [ClearShadow].

End DrawCaption.

(** ** components/Timeline.tsx: seeking by click *)

Definition handleTimelineClick (zoom effDuration : number)
    (container : option (number * number))
    (dragging : option Dragging.t) (clientX : number) : timelineCall :=
  match dragging with
  | Some _ => NoCall
  | None =>
      match container with
      | None => NoCall
      | Some (rectLeft, scrollLeft) =>
          let offsetX := (clientX - rectLeft + scrollLeft)%js in
          let newTime :=
            JSNumber.max (lit 0)
              (JSNumber.min effDuration (pixelsToTime zoom offsetX)) in
          OnSeek newTime
      end
  end.

(** ** services/geminiService.ts: normalising the model response *)

(** A value of the parsed response. An array or object is carried by the
    string [String] gives for it; [undefined] is the absent value. *)
Inductive JsonValue : Type :=
| JNull
| JBool (b : bool)
| JNumber (n : number)
| JString (s : string)
| JObject (rendered : string).

(** An item of the response array: its own keys in [Object.keys] order,
    each with its value (items that are not objects are not modelled). *)
Abbreviation Item := (list (string * JsonValue)).

(** [String.prototype.toLowerCase] on code units below 256. *)
Definition toLowerCase (s : list ascii) : list ascii :=
  map (fun c =>
         let n := nat_of_ascii c in
         if (Nat.leb 65 n && Nat.leb n 90)
            || (Nat.leb 192 n && Nat.leb n 222 && negb (Nat.eqb n 215))
         then ascii_of_nat (n + 32)
         else c) s.

(** [String.prototype.includes] with a string argument. *)
Fixpoint includesString (needle s : list ascii) : bool :=
  startsWith needle s
  || match s with
     | [] => false
     | _ :: r => includesString needle r
     end.

(** [keys.find(k => needles.some(n => k.toLowerCase().includes(n))) || dflt]. *)
Definition findKey (needles : list string) (item : Item) (dflt : string) : string :=
  match
    List.find
      (fun kv =>
         existsb
           (fun n =>
              includesString (list_ascii_of_string n)
                (toLowerCase (list_ascii_of_string (fst kv))))
           needles)
      item
  with
  | Some (String c k, _) => String c k
  | _ => dflt
  end.

(** [item[key]]. *)
Fixpoint get (item : Item) (key : string) : option JsonValue :=
  match item with
  | [] => None
  | (k, v) :: r => if String.eqb k key then Some v else get r key
  end.

(** The heuristic of lines 101 to 106: a number above 500 is taken as
    milliseconds. *)
Definition msToSeconds (v : option JsonValue) : option JsonValue :=
  match v with
  | Some (JNumber n) => if (n >? lit 500)%js then Some (JNumber (n / lit 1000)%js) else v
  | _ => v
  end.

Definition truthy (v : option JsonValue) : bool :=
  match v with
  | None | Some JNull => false
  | Some (JBool b) => b
  | Some (JNumber NaN) => false
  | Some (JNumber (Num q)) => negb (Qeq_bool q 0)
  | Some (JNumber _) => true
  | Some (JString s) => negb (String.eqb s EmptyString)
  | Some (JObject _) => true
  end.

(** The id template [`caption-${index}-${Date.now()}`]. *)
Definition importId (index : nat) (now : Z) : string :=
  "caption-" +:+ string_of_list_ascii (intToString (Z.of_nat index))
  +:+ "-" +:+ string_of_list_ascii (intToString now).

Section Normalize.

(** [Number.prototype.toString] of an arbitrary number is left open. *)
Context (numberToString : number -> string).

(** [String(v || dflt)]. *)
Definition stringOr (v : option JsonValue) (dflt : string) : string :=
  match v with
  | Some x =>
      if truthy v then
        match x with
        | JNull => "null"
        | JBool true => "true"
        | JBool false => "false"
        | JNumber n => numberToString n
        | JString s => s
        | JObject rendered => rendered
        end
      else dflt
  | None => dflt
  end.

(** The callback of [rawData.map], [now] being what [Date.now()] returns
    in this call. *)
Definition normalize (index : nat) (now : Z) (item : Item) : Caption.t :=
  let startKey := findKey ["start"] item "start" in
  let endKey := findKey ["end"] item "end" in
  let textKey := findKey ["text"; "caption"] item "text" in
  let startVal := msToSeconds (get item startKey) in
  let endVal := msToSeconds (get item endKey) in
  {| Caption.id := importId index now;
     Caption.start := stringOr startVal "00:00:00";
     Caption.end_ := stringOr endVal "00:00:01";
     Caption.text := stringOr (get item textKey) EmptyString;
     Caption.style := None |}.

(** [rawData.map(...)], [clock i] being the reading of [Date.now()] at
    the item of index [i]. *)
Definition normalizedCaptions (clock : nat -> Z) (rawData : list Item) : list Caption.t :=
  imap (fun index item => normalize index (clock index) item) rawData.

End Normalize.

(** ** Vocabulary of the statements *)

(** Value of a digit string read on top of [acc]. *)
Definition digitsValue (ds : list ascii) (acc : Z) : Z :=
  fold_left (fun a c => (a * 10 + default 0 (digitValue c))%Z) ds acc.

Definition allDigits (ds : list ascii) : Prop :=
  Forall (fun c => isDigit c = true) ds.

Definition noLeadingDigit (s : list ascii) : Prop :=
  match s with
  | c :: _ => isDigit c = false
  | [] => True
  end.

(** A time rounded to the nearest millisecond (upwards on a tie), in
    milliseconds. *)
Definition roundMs (q : Q) : Z := Qfloor (q * 1000 + (1 # 2))%Q.

(** The least duration each kind of caption drag enforces on the span it
    computes. *)
Definition minimumSpan (type : DragType) : Q :=
  match type with
  | Move => 1 # 10
  | _ => 2 # 10
  end.

(** The initial spans on which a drag's bound survives the clamping at
    zero. *)
Definition clampFree (type : DragType) (initialStart initialEnd : Q) : Prop :=
  match type with
  | Move => True
  | ResizeLeft => (2 # 10 <= initialEnd)%Q
  | ResizeRight => (0 <= initialStart)%Q
  | Playhead => False
  end.

(** A character that is neither the I of an [Infinity] literal nor the
    [e] or [E] of an exponent. *)
Definition plainChar (c : ascii) : bool :=
  negb (Ascii.eqb c "I" || Ascii.eqb c "e" || Ascii.eqb c "E").

(** The order of the numbers, the infinities included; [NaN] is not
    comparable with anything. *)
Definition atMost (a b : number) : Prop :=
  match a, b with
  | NaN, _ | _, NaN => False
  | NegInf, _ => True
  | _, PosInf => True
  | Num x, Num y => (x <= y)%Q
  | _, _ => False
  end.

(** The closed interval from the start of a caption to its end contains
    the time. *)
Definition spans (c : Caption.t) (time : number) : Prop :=
  atMost (parseTime (TString (Caption.start c))) time /\
  atMost time (parseTime (TString (Caption.end_ c))).

(** [Array.prototype.join] with a one-character separator. *)
Fixpoint joinWith (sep : ascii) (parts : list (list ascii)) : list ascii :=
  match parts with
  | [] => []
  | [p] => p
  | p :: rest => p ++ sep :: joinWith sep rest
  end.

(** The lines a list of context calls fills, in order. *)
Definition filledLines (ops : list DrawOp) : list (list ascii) :=
  flat_map (fun op => match op with FillText line _ _ _ => [line] | _ => [] end)
    ops.

(** The start of a caption as a rational, for captions whose start reads
    as a finite number. *)
Definition startOf (c : Caption.t) : Q :=
  match parseTime (TString (Caption.start c)) with
  | Num q => q
  | _ => 0
  end.

Definition finiteStart (c : Caption.t) : Prop :=
  exists q, parseTime (TString (Caption.start c)) = Num q.

(** Merging two update objects: [{ ...u1, ...u2 }]. *)
Definition mergeUpdates (u1 u2 : Updates.t) : Updates.t :=
  Updates.mk
    (match Updates.id u2 with Some x => Some x | None => Updates.id u1 end)
    (match Updates.start u2 with Some x => Some x | None => Updates.start u1 end)
    (match Updates.end_ u2 with Some x => Some x | None => Updates.end_ u1 end)
    (match Updates.text u2 with Some x => Some x | None => Updates.text u1 end)
    (match Updates.style u2 with Some x => Some x | None => Updates.style u1 end).

(** The fill styles of the text a list of context calls fills. *)
Definition fillStyles (ops : list DrawOp) : list string :=
  flat_map (fun op => match op with FillText _ _ _ style => [style] | _ => [] end)
    ops.

Definition withAnimation (config : StyleFields) (a : AnimationType)
  : StyleFields :=
  {| fontFamily := fontFamily config; fontSize := fontSize config;
     textColor := textColor config; borderColor := borderColor config;
     borderWidth := borderWidth config;
     backgroundColor := backgroundColor config;
     backgroundOpacity := backgroundOpacity config;
     positionY := positionY config; positionX := positionX config;
     fontWeight := fontWeight config; animationType := a |}.

(** A list of times in which no element is followed by a smaller one. *)
Fixpoint ascending (times : list Q) : Prop :=
  match times with
  | [] => True
  | t :: rest => Forall (fun t' => (t <= t')%Q) rest /\ ascending rest
  end.

(** * Properties *)

(** ** Characters *)

Lemma digit_char_class (c : ascii) :
  isDigit c = true ->
  isWhite c = false /\ Ascii.eqb c "-" = false /\ Ascii.eqb c "+" = false /\
  Ascii.eqb "I" c = false /\ Ascii.eqb c ":" = false /\
  Ascii.eqb c "," = false /\ Ascii.eqb c "." = false /\
  Ascii.eqb ":" c = false.
Proof.
  destruct c as [[] [] [] [] [] [] [] []]; vm_compute; intros H;
    try discriminate H; repeat split; reflexivity.
Qed.

Lemma digit_char_value (c : ascii) :
  isDigit c = true -> exists d, digitValue c = Some d /\ (0 <= d < 10)%Z.
Proof.
  destruct c as [[] [] [] [] [] [] [] []]; vm_compute; intros H;
    try discriminate H; eexists; (split; [reflexivity | idtac]); split;
    discriminate || reflexivity.
Qed.

Lemma digitChar_isDigit (d : Z) : (0 <= d < 10)%Z -> isDigit (digitChar d) = true.
Proof.
  intros Hd.
  assert (Hc : (d = 0 \/ d = 1 \/ d = 2 \/ d = 3 \/ d = 4 \/ d = 5 \/
                d = 6 \/ d = 7 \/ d = 8 \/ d = 9)%Z) by lia.
  repeat (destruct Hc as [-> | Hc]; [reflexivity | idtac]). subst d. reflexivity.
Qed.

Lemma digitChar_value (d : Z) :
  (0 <= d < 10)%Z -> digitValue (digitChar d) = Some d.
Proof.
  intros Hd.
  assert (Hc : (d = 0 \/ d = 1 \/ d = 2 \/ d = 3 \/ d = 4 \/ d = 5 \/
                d = 6 \/ d = 7 \/ d = 8 \/ d = 9)%Z) by lia.
  repeat (destruct Hc as [-> | Hc]; [reflexivity | idtac]). subst d. reflexivity.
Qed.

(** ** Decimal numerals *)

Lemma digitsValue_app (a b : list ascii) (acc : Z) :
  digitsValue (a ++ b) acc = digitsValue b (digitsValue a acc).
Proof. unfold digitsValue. apply fold_left_app. Qed.

Lemma digitsValue_acc (ds : list ascii) (acc : Z) :
  digitsValue ds acc = (acc * 10 ^ Z.of_nat (length ds) + digitsValue ds 0)%Z.
Proof.
  revert acc. induction ds as [| c ds IH]; intros acc.
  - simpl. lia.
  - change (digitsValue (c :: ds) acc)
      with (digitsValue ds (acc * 10 + default 0 (digitValue c))%Z).
    change (digitsValue (c :: ds) 0)
      with (digitsValue ds (0 * 10 + default 0 (digitValue c))%Z).
    rewrite IH. rewrite (IH (0 * 10 + _)%Z).
    replace (Z.of_nat (length (c :: ds))) with (1 + Z.of_nat (length ds))%Z
      by (simpl length; lia).
    rewrite Z.pow_add_r by lia. lia.
Qed.

Lemma digitsValue_zeros (k : nat) (ds : list ascii) :
  digitsValue (repeat "0"%char k ++ ds) 0 = digitsValue ds 0.
Proof.
  induction k as [| k IH]; [reflexivity | idtac].
  simpl repeat. simpl app.
  change (digitsValue ("0"%char :: repeat "0"%char k ++ ds) 0)
    with (digitsValue (repeat "0"%char k ++ ds) 0).
  exact IH.
Qed.

Lemma allDigits_zeros (k : nat) : allDigits (repeat "0"%char k).
Proof. induction k; constructor; [reflexivity | assumption]. Qed.

Lemma decimalDigits_spec (fuel : nat) :
  forall (n : Z) (acc : list ascii),
    (0 <= n < 2 ^ Z.of_nat (S fuel))%Z ->
    exists ds,
      decimalDigits (S fuel) n acc = ds ++ acc /\ allDigits ds /\ ds <> [] /\
      digitsValue ds 0 = n.
Proof.
  assert (Hsmall : forall f (n : Z) (acc : list ascii),
             (0 <= n < 10)%Z ->
             exists ds,
               decimalDigits (S f) n acc = ds ++ acc /\ allDigits ds /\
               ds <> [] /\ digitsValue ds 0 = n).
  { intros f n acc Hlt. exists [digitChar n]. repeat split.
    - change (decimalDigits (S f) n acc)
        with (if (n <? 10)%Z then digitChar (n mod 10) :: acc
              else decimalDigits f (n / 10) (digitChar (n mod 10) :: acc)).
      destruct (Z.ltb_spec n 10); [idtac | lia].
      rewrite Z.mod_small by lia. reflexivity.
    - constructor; [apply digitChar_isDigit; lia | constructor].
    - discriminate.
    - change (digitsValue [digitChar n] 0)
        with (0 * 10 + default 0 (digitValue (digitChar n)))%Z.
      rewrite digitChar_value by lia. reflexivity. }
  induction fuel as [| f IH]; intros n acc Hn.
  - apply Hsmall. change (2 ^ Z.of_nat 1)%Z with 2%Z in Hn. lia.
  - destruct (Z.ltb_spec n 10) as [Hlt | Hge]; [apply Hsmall; lia | idtac].
    assert (Hq : (0 <= n / 10 < 2 ^ Z.of_nat (S f))%Z).
    { split; [apply Z.div_pos; lia | idtac].
      apply Z.div_lt_upper_bound; [lia | idtac].
      rewrite (Nat2Z.inj_succ (S f)), Z.pow_succ_r in Hn by lia. lia. }
    destruct (IH (n / 10)%Z (digitChar (n mod 10) :: acc) Hq)
      as (ds & Heq & Hds & _ & Hval).
    assert (Hm : (0 <= n mod 10 < 10)%Z) by (apply Z.mod_pos_bound; lia).
    exists (ds ++ [digitChar (n mod 10)]). repeat split.
    + change (decimalDigits (S (S f)) n acc)
        with (if (n <? 10)%Z then digitChar (n mod 10) :: acc
              else decimalDigits (S f) (n / 10) (digitChar (n mod 10) :: acc)).
      destruct (Z.ltb_spec n 10); [lia | idtac].
      rewrite Heq, <- app_assoc. reflexivity.
    + apply Forall_app. split; [exact Hds | idtac].
      constructor; [apply digitChar_isDigit; exact Hm | constructor].
    + intros Habs. apply app_eq_nil in Habs. destruct Habs; discriminate.
    + rewrite digitsValue_app, Hval.
      change (digitsValue [digitChar (n mod 10)] (n / 10))
        with (n / 10 * 10 + default 0 (digitValue (digitChar (n mod 10))))%Z.
      rewrite digitChar_value by exact Hm.
      change (default 0%Z (Some (n mod 10)%Z)) with (n mod 10)%Z.
      pose proof (Z.div_mod n 10). lia.
Qed.

Lemma decimalNumeral_spec (n : Z) :
  (0 <= n)%Z ->
  allDigits (decimalNumeral n) /\ decimalNumeral n <> [] /\
  digitsValue (decimalNumeral n) 0 = n.
Proof.
  intros Hn. unfold decimalNumeral.
  assert (Hb : (0 <= n < 2 ^ Z.of_nat (S (Z.to_nat (Z.log2 n))))%Z).
  { split; [exact Hn | idtac].
    rewrite Nat2Z.inj_succ, Z2Nat.id by apply Z.log2_nonneg.
    destruct (Z.eq_dec n 0%Z) as [-> | Hne]; [reflexivity | idtac].
    apply Z.log2_spec. lia. }
  destruct (decimalDigits_spec _ n [] Hb) as (ds & Heq & Hds & Hne & Hval).
  rewrite Heq, app_nil_r. auto.
Qed.

Lemma intToString_spec (n : Z) :
  (0 <= n)%Z ->
  allDigits (intToString n) /\ intToString n <> [] /\
  digitsValue (intToString n) 0 = n.
Proof.
  intros Hn. unfold intToString.
  destruct (Z.ltb_spec n 0); [lia | idtac]. apply decimalNumeral_spec. exact Hn.
Qed.

Lemma padStart_digits (k : nat) (ds : list ascii) :
  allDigits ds -> ds <> [] ->
  allDigits (padStart k "0" ds) /\ padStart k "0" ds <> [] /\
  digitsValue (padStart k "0" ds) 0 = digitsValue ds 0 /\
  (k <= length (padStart k "0" ds))%nat.
Proof.
  intros Hds Hne. unfold padStart. repeat split.
  - apply Forall_app. split; [apply allDigits_zeros | exact Hds].
  - intros Habs. apply app_eq_nil in Habs. destruct Habs. contradiction.
  - apply digitsValue_zeros.
  - rewrite length_app, repeat_length. lia.
Qed.

(** ** Scanning numerals back *)

Lemma scanDigits_digits (ds rest : list ascii) :
  allDigits ds -> noLeadingDigit rest ->
  forall acc count,
    scanDigits (ds ++ rest) acc count
    = (digitsValue ds acc, (count + length ds)%nat, rest).
Proof.
  intros Hds Hrest. induction Hds as [| c ds Hc Hds IH]; intros acc count.
  - simpl app. simpl length. rewrite Nat.add_0_r.
    destruct rest as [| c r]; [reflexivity | idtac].
    simpl in Hrest. unfold isDigit in Hrest. simpl scanDigits.
    destruct (digitValue c); [discriminate | reflexivity].
  - destruct (digit_char_value c Hc) as (d & Hd & _).
    simpl app. simpl scanDigits. rewrite Hd, IH.
    change (digitsValue (c :: ds) acc)
      with (digitsValue ds (acc * 10 + default 0 (digitValue c))%Z).
    rewrite Hd. simpl length. f_equal. f_equal. lia.
Qed.

Lemma trimStart_digit (c : ascii) (s : list ascii) :
  isDigit c = true -> trimStart (c :: s) = c :: s.
Proof.
  intros Hc. destruct (digit_char_class c Hc) as (Hw & _).
  simpl. rewrite Hw. reflexivity.
Qed.

Lemma scanSign_digit (c : ascii) (s : list ascii) :
  isDigit c = true -> scanSign (c :: s) = (false, c :: s).
Proof.
  intros Hc. destruct (digit_char_class c Hc) as (_ & Hm & Hp & _).
  unfold scanSign. rewrite Hm, Hp. reflexivity.
Qed.

Lemma startsWith_Infinity_digit (c : ascii) (s : list ascii) :
  isDigit c = true ->
  startsWith (list_ascii_of_string "Infinity") (c :: s) = false.
Proof.
  intros Hc. destruct (digit_char_class c Hc) as (_ & _ & _ & HI & _).
  change (startsWith (list_ascii_of_string "Infinity") (c :: s))
    with (Ascii.eqb "I" c && startsWith (list_ascii_of_string "nfinity") s).
  rewrite HI. reflexivity.
Qed.

(** [parseFloat] of a numeral without fraction. *)
Lemma parseFloat_integer (ds : list ascii) :
  allDigits ds -> ds <> [] ->
  exists x, parseFloat ds = Num x /\ (x == inject_Z (digitsValue ds 0))%Q.
Proof.
  intros Hds Hne. destruct ds as [| c ds]; [contradiction | idtac].
  assert (Hc : isDigit c = true) by (inversion Hds; assumption).
  unfold parseFloat.
  rewrite (trimStart_digit c ds Hc), (scanSign_digit c ds Hc),
    (startsWith_Infinity_digit c ds Hc).
  rewrite <- (app_nil_r (c :: ds)).
  rewrite (scanDigits_digits (c :: ds) [] Hds I 0%Z 0%nat).
  simpl length. cbv iota beta.
  change (Nat.eqb (0 + S (length ds) + 0) 0) with false. cbv iota.
  eexists. split; [reflexivity | idtac].
  change (scanExponent []) with 0%Z. change (Qpower 10 0) with 1%Q.
  change (inject_Z (10 ^ Z.of_nat 0)) with 1%Q.
  rewrite app_nil_r. change (inject_Z 0) with 0%Q. field.
Qed.

(** [parseFloat] of a numeral with a fraction. *)
Lemma parseFloat_fraction (ds fs : list ascii) :
  allDigits ds -> ds <> [] -> allDigits fs ->
  exists x,
    parseFloat (ds ++ "."%char :: fs) = Num x /\
    (x == inject_Z (digitsValue ds 0)
          + inject_Z (digitsValue fs 0) / inject_Z (10 ^ Z.of_nat (length fs)))%Q.
Proof.
  intros Hds Hne Hfs. destruct ds as [| c ds]; [contradiction | idtac].
  assert (Hc : isDigit c = true) by (inversion Hds; assumption).
  unfold parseFloat. rewrite <- app_comm_cons.
  rewrite (trimStart_digit c _ Hc), (scanSign_digit c _ Hc),
    (startsWith_Infinity_digit c _ Hc).
  rewrite app_comm_cons.
  rewrite (scanDigits_digits (c :: ds) ("."%char :: fs) Hds eq_refl 0%Z 0%nat).
  cbv iota beta. change (Ascii.eqb "." ".") with true. cbv iota.
  pose proof (scanDigits_digits fs [] Hfs I 0%Z 0%nat) as Hscan.
  rewrite app_nil_r in Hscan. rewrite Hscan.
  cbv iota beta. simpl length.
  change (Nat.eqb (0 + S (length ds) + (0 + length fs)) 0) with false.
  cbv iota.
  eexists. split; [reflexivity | idtac].
  change (scanExponent []) with 0%Z. change (Qpower 10 0) with 1%Q.
  rewrite Nat.add_0_l. ring.
Qed.

(** ** String functions on the characters of a time code *)

Lemma replaceFirst_absent (a b : ascii) (s : list ascii) :
  Forall (fun c => Ascii.eqb c a = false) s -> replaceFirst a b s = s.
Proof.
  induction 1 as [| c s Hc Hs IH]; [reflexivity | idtac].
  simpl. rewrite Hc, IH. reflexivity.
Qed.

Lemma trimEnd_snoc (s : list ascii) (c : ascii) :
  isWhite c = false -> trimEnd (s ++ [c]) = s ++ [c].
Proof.
  intros Hc. unfold trimEnd. rewrite rev_app_distr. simpl rev at 2.
  simpl app. simpl trimStart. rewrite Hc.
  change (c :: rev s) with ([c] ++ rev s).
  rewrite rev_app_distr, rev_involutive. reflexivity.
Qed.

Lemma trimEnd_digits_tail (s fs : list ascii) :
  allDigits fs -> fs <> [] -> trimEnd (s ++ fs) = s ++ fs.
Proof.
  intros Hfs Hne.
  destruct (exists_last Hne) as (fs' & c & ->).
  apply Forall_app in Hfs. destruct Hfs as (_ & Hc).
  inversion Hc as [| ? ? Hd _]; subst.
  rewrite app_assoc. apply trimEnd_snoc.
  apply (digit_char_class c Hd).
Qed.

Lemma includes_app_sep (c : ascii) (a r : list ascii) :
  includes c (a ++ c :: r) = true.
Proof.
  unfold includes. rewrite existsb_app. simpl.
  rewrite Ascii.eqb_refl. apply orb_true_iff. right. reflexivity.
Qed.

Lemma split_absent (sep : ascii) (a : list ascii) :
  Forall (fun c => Ascii.eqb c sep = false) a -> split sep a = [a].
Proof.
  induction 1 as [| c s Hc Hs IH]; [reflexivity | idtac].
  simpl. rewrite Hc, IH. reflexivity.
Qed.

Lemma split_app_sep (sep : ascii) (a r : list ascii) :
  Forall (fun c => Ascii.eqb c sep = false) a ->
  split sep (a ++ sep :: r) = a :: split sep r.
Proof.
  induction 1 as [| c s Hc Hs IH].
  - simpl. rewrite Ascii.eqb_refl. reflexivity.
  - simpl. rewrite Hc, IH. reflexivity.
Qed.

Lemma allDigits_no (sep : ascii) (ds : list ascii) :
  isDigit sep = false ->
  allDigits ds -> Forall (fun c => Ascii.eqb c sep = false) ds.
Proof.
  intros Hsep Hds. eapply Forall_impl; [exact Hds | idtac].
  intros c Hc. simpl in Hc. destruct (Ascii.eqb_spec c sep) as [-> | _];
    [congruence | reflexivity].
Qed.

(** ** Floors and remainders *)

Lemma Qfloor_unique (x : Q) (z : Z) :
  (inject_Z z <= x)%Q -> (x < inject_Z (z + 1))%Q -> Qfloor x = z.
Proof.
  intros Hle Hlt.
  pose proof (Qfloor_le x) as Hf1. pose proof (Qlt_floor x) as Hf2.
  assert (H1 : (z < Qfloor x + 1)%Z).
  { rewrite Zlt_Qlt. eapply Qle_lt_trans; eassumption. }
  assert (H2 : (Qfloor x < z + 1)%Z).
  { rewrite Zlt_Qlt. eapply Qle_lt_trans; eassumption. }
  lia.
Qed.

Lemma Qfloor_nonneg (x : Q) : (0 <= x)%Q -> (0 <= Qfloor x)%Z.
Proof.
  intros Hx. change 0%Z with (Qfloor 0). apply Qfloor_resp_le. exact Hx.
Qed.

Lemma Qltb_false (x y : Q) : (y <= x)%Q -> Qltb x y = false.
Proof.
  intros H. unfold Qltb. apply Qle_bool_iff in H. rewrite H. reflexivity.
Qed.

Lemma Qltb_true (x y : Q) : (x < y)%Q -> Qltb x y = true.
Proof.
  intros H. unfold Qltb. destruct (Qle_bool y x) eqn:E; [idtac | reflexivity].
  apply Qle_bool_iff in E. exfalso. eapply Qlt_not_le; eassumption.
Qed.

Lemma Qdiv_nonneg (a b : Q) : (0 <= a)%Q -> (0 < b)%Q -> (0 <= a / b)%Q.
Proof.
  intros Ha Hb. apply Qle_shift_div_l; [exact Hb | idtac].
  rewrite Qmult_0_l. exact Ha.
Qed.

(** On a non-negative dividend and a positive divisor, [%] leaves
    [a - b * floor (a / b)], which lies in [[0, b)]. *)
Lemma Qrem_floor (a b : Q) :
  (0 <= a)%Q -> (0 < b)%Q ->
  Qrem a b = (a - b * inject_Z (Qfloor (a / b)))%Q.
Proof.
  intros Ha Hb. unfold Qrem, Qtrunc.
  assert (H : Qle_bool 0 (a / b) = true)
    by (apply Qle_bool_iff, Qdiv_nonneg; assumption).
  rewrite H. reflexivity.
Qed.

Lemma Qfloor_bounds (x : Q) :
  (inject_Z (Qfloor x) <= x)%Q /\ (x < inject_Z (Qfloor x) + 1)%Q.
Proof.
  split; [apply Qfloor_le | idtac].
  pose proof (Qlt_floor x) as H. rewrite inject_Z_plus in H. exact H.
Qed.

Lemma Qfloor_unique' (x : Q) (z : Z) :
  (inject_Z z <= x)%Q -> (x < inject_Z z + 1)%Q -> Qfloor x = z.
Proof.
  intros Hle Hlt. apply Qfloor_unique; [exact Hle | idtac].
  rewrite inject_Z_plus. exact Hlt.
Qed.

(** The three fields [formatTime] computes from a non-negative time add up
    to that time rounded to the millisecond. *)
Lemma timecode_fields (q : Q) :
  (0 <= q)%Q ->
  let h := Qfloor (q / 3600) in
  let m := Qfloor (Qrem q 3600 / 60) in
  let n := Qfloor (Qrem q 60 * 1000 + (1 # 2)) in
  (0 <= h)%Z /\ (0 <= m)%Z /\ (0 <= Qrem q 60)%Q /\ (0 <= n)%Z /\
  (inject_Z h * 3600 + inject_Z m * 60 + inject_Z n * (1 # 1000)
   == inject_Z (roundMs q) * (1 # 1000))%Q.
Proof.
  intros Hq h m n.
  assert (H3600 : (0 < 3600)%Q) by reflexivity.
  assert (H60 : (0 < 60)%Q) by reflexivity.
  assert (Em : m = Qfloor ((q - 3600 * inject_Z h) * (1 # 60))).
  { unfold m. rewrite (Qrem_floor q 3600 Hq H3600). reflexivity. }
  assert (En : n = Qfloor ((q - 60 * inject_Z (Qfloor (q / 60))) * 1000 + (1 # 2))).
  { unfold n. rewrite (Qrem_floor q 60 Hq H60). reflexivity. }
  assert (Er : Qrem q 60 = (q - 60 * inject_Z (Qfloor (q / 60)))%Q)
    by (apply Qrem_floor; assumption).
  destruct (Qfloor_bounds (q * (1 # 3600))) as [Hh1 Hh2].
  change (Qfloor (q * (1 # 3600))) with h in Hh1, Hh2.
  destruct (Qfloor_bounds ((q - 3600 * inject_Z h) * (1 # 60))) as [Hm1 Hm2].
  rewrite <- Em in Hm1, Hm2.
  assert (EF : Qfloor (q / 60) = (60 * h + m)%Z).
  { apply Qfloor_unique'; rewrite inject_Z_plus, inject_Z_mult;
      change (inject_Z 60) with 60%Q; change (q / 60)%Q with (q * (1 # 60))%Q;
      lra. }
  rewrite EF in En, Er.
  rewrite inject_Z_plus, inject_Z_mult in En, Er.
  change (inject_Z 60) with 60%Q in En, Er.
  destruct (Qfloor_bounds ((q - 60 * (60 * inject_Z h + inject_Z m)) * 1000 + (1 # 2)))
    as [Hn1 Hn2].
  rewrite <- En in Hn1, Hn2.
  assert (ER : roundMs q = (n + 60000 * (60 * h + m))%Z).
  { unfold roundMs. apply Qfloor_unique';
      rewrite !inject_Z_plus, !inject_Z_mult, ?inject_Z_plus, ?inject_Z_mult;
      change (inject_Z 60) with 60%Q; change (inject_Z 60000) with 60000%Q;
      lra. }
  assert (Hh0 : (0 <= h)%Z).
  { apply Qfloor_nonneg. change (q / 3600)%Q with (q * (1 # 3600))%Q. lra. }
  assert (Hm0 : (0 <= m)%Z) by (rewrite Em; apply Qfloor_nonneg; lra).
  assert (Hs0 : (0 <= Qrem q 60)%Q) by (rewrite Er; lra).
  assert (Hn0 : (0 <= n)%Z) by (rewrite En; apply Qfloor_nonneg; lra).
  repeat split; try assumption.
  rewrite ER. rewrite !inject_Z_plus, !inject_Z_mult, ?inject_Z_plus, ?inject_Z_mult.
  change (inject_Z 60) with 60%Q. change (inject_Z 60000) with 60000%Q. lra.
Qed.

(** ** The time codec *)

(** [toFixed(3)] of a non-negative number: integral digits, a point, three
    fractional digits, together the numeral of the rounded thousandths. *)
Lemma toFixed3_shape (x : Q) :
  (0 <= x)%Q ->
  exists ss fs,
    toFixed3 x = ss ++ "."%char :: fs /\
    allDigits ss /\ ss <> [] /\ allDigits fs /\ length fs = 3%nat /\
    (digitsValue ss 0 * 1000 + digitsValue fs 0)%Z
    = Qfloor (x * 1000 + (1 # 2)).
Proof.
  intros Hx. unfold toFixed3. rewrite (Qltb_false x 0 Hx). unfold toFixed3Abs.
  set (n := Qfloor (x * 1000 + (1 # 2))).
  assert (Hn : (0 <= n)%Z) by (apply Qfloor_nonneg; lra).
  destruct (intToString_spec n Hn) as (Hd & Hne & Hv).
  destruct (padStart_digits 4 (intToString n) Hd Hne) as (Hpd & _ & Hpv & Hlen).
  set (ds := padStart 4 "0" (intToString n)) in *.
  set (k := (length ds - 3)%nat).
  exists (firstn k ds), (skipn k ds).
  assert (Hsplit : ds = firstn k ds ++ skipn k ds)
    by (symmetry; apply firstn_skipn).
  assert (Hall : allDigits (firstn k ds) /\ allDigits (skipn k ds)).
  { apply Forall_app. rewrite <- Hsplit. exact Hpd. }
  assert (Hfl : length (firstn k ds) = k)
    by (rewrite length_firstn; unfold k; lia).
  assert (Hsl : length (skipn k ds) = 3%nat)
    by (rewrite length_skipn; unfold k; lia).
  repeat split; try tauto.
  - intros Habs. rewrite Habs in Hfl. simpl in Hfl. unfold k in Hfl. lia.
  - rewrite <- Hv, <- Hpv. rewrite Hsplit at 3.
    rewrite digitsValue_app.
    rewrite (digitsValue_acc (skipn k ds) (digitsValue (firstn k ds) 0)), Hsl.
    reflexivity.
Qed.

(** The shape of every time code [formatTime] prints for a non-negative
    time. *)
Lemma formatTime_shape (q : Q) :
  (0 <= q)%Q ->
  exists hs ms ss fs,
    formatTime (Num q)
    = string_of_list_ascii
        (hs ++ ":"%char :: ms ++ ":"%char :: ss ++ "."%char :: fs) /\
    (allDigits hs /\ hs <> []) /\ (allDigits ms /\ ms <> []) /\
    (allDigits ss /\ ss <> []) /\ (allDigits fs /\ length fs = 3%nat) /\
    (inject_Z (digitsValue hs 0) * 3600 + inject_Z (digitsValue ms 0) * 60
     + (inject_Z (digitsValue ss 0) + inject_Z (digitsValue fs 0) * (1 # 1000))
     == inject_Z (roundMs q) * (1 # 1000))%Q.
Proof.
  intros Hq. unfold formatTime, isFinite, ltb, lit.
  change (inject_Z 0) with 0%Q. rewrite (Qltb_false q 0 Hq).
  cbn [negb orb].
  destruct (timecode_fields q Hq) as (Hh & Hm & Hs & Hn & Hsum).
  destruct (intToString_spec _ Hh) as (Hhd & Hhne & Hhv).
  destruct (padStart_digits 2 _ Hhd Hhne) as (Hhd' & Hhne' & Hhv' & _).
  destruct (intToString_spec _ Hm) as (Hmd & Hmne & Hmv).
  destruct (padStart_digits 2 _ Hmd Hmne) as (Hmd' & Hmne' & Hmv' & _).
  destruct (toFixed3_shape _ Hs) as (ss & fs & Hfix & Hsd & Hsne & Hfd & Hfl & Hv).
  rewrite Hfix. unfold padStart at 3.
  set (z := repeat "0"%char (6 - length (ss ++ "."%char :: fs))).
  exists (padStart 2 "0" (intToString (Qfloor (q / 3600)))),
    (padStart 2 "0" (intToString (Qfloor (Qrem q 3600 / 60)))),
    (z ++ ss), fs.
  split; [rewrite <- (app_assoc z ss); reflexivity | idtac].
  repeat split; try assumption.
  - apply Forall_app. split; [apply allDigits_zeros | exact Hsd].
  - intros Habs. apply app_eq_nil in Habs. destruct Habs. contradiction.
  - unfold z. rewrite digitsValue_zeros, Hhv', Hhv, Hmv', Hmv.
    rewrite <- Hsum, <- Hv. rewrite inject_Z_plus, inject_Z_mult.
    change (inject_Z 1000) with 1000%Q. lra.
Qed.

(** Closes [Forall (fun c => Ascii.eqb c sep = false) l] for a list [l]
    assembled from digit strings and literal characters other than
    [sep]. *)
Ltac charsFree :=
  repeat first
    [ apply allDigits_no; [reflexivity | assumption]
    | apply Forall_app; split
    | apply Forall_cons; split; [reflexivity | idtac]
    | apply Forall_nil ].

(** [parseTime] reads a time code of that shape field by field. *)
Lemma parseTime_timecode (hs ms ss fs : list ascii) :
  allDigits hs -> hs <> [] -> allDigits ms -> ms <> [] ->
  allDigits ss -> ss <> [] -> allDigits fs -> fs <> [] ->
  exists r,
    parseTime (TString (string_of_list_ascii
      (hs ++ ":"%char :: ms ++ ":"%char :: ss ++ "."%char :: fs))) = Num r /\
    (r == inject_Z (digitsValue hs 0) * 3600 + inject_Z (digitsValue ms 0) * 60
          + (inject_Z (digitsValue ss 0)
             + inject_Z (digitsValue fs 0) / inject_Z (10 ^ Z.of_nat (length fs))))%Q.
Proof.
  intros Hh Hhne Hm Hmne Hs Hsne Hf Hfne.
  set (L := hs ++ ":"%char :: ms ++ ":"%char :: ss ++ "."%char :: fs).
  assert (Hcomma : Forall (fun c => Ascii.eqb c "," = false) L).
  { unfold L. charsFree. }
  assert (Hcolon_h : Forall (fun c => Ascii.eqb c ":" = false) hs)
    by charsFree.
  assert (Hcolon_m : Forall (fun c => Ascii.eqb c ":" = false) ms)
    by charsFree.
  assert (Hcolon_s : Forall (fun c => Ascii.eqb c ":" = false) (ss ++ "."%char :: fs))
    by charsFree.
  assert (Hsplit : split ":" L = [hs; ms; ss ++ "."%char :: fs]).
  { unfold L. rewrite (split_app_sep _ _ _ Hcolon_h),
      (split_app_sep _ _ _ Hcolon_m), (split_absent _ _ Hcolon_s). reflexivity. }
  assert (Hincl : includes ":" L = true) by apply includes_app_sep.
  assert (Htrim : trim L = L).
  { unfold trim. destruct hs as [| c hs']; [contradiction | idtac].
    assert (Hc : isDigit c = true) by (inversion Hh; assumption).
    unfold L. rewrite <- app_comm_cons, (trimStart_digit c _ Hc).
    rewrite app_comm_cons.
    replace ((c :: hs') ++ ":"%char :: ms ++ ":"%char :: ss ++ "."%char :: fs)
      with (((c :: hs') ++ ":"%char :: ms ++ ":"%char :: ss ++ ["."%char]) ++ fs).
    - apply trimEnd_digits_tail; assumption.
    - repeat first [rewrite <- app_assoc | rewrite <- app_comm_cons].
      reflexivity. }
  destruct (parseFloat_integer hs Hh Hhne) as (x & Hx & Ex).
  destruct (parseFloat_integer ms Hm Hmne) as (y & Hy & Ey).
  destruct (parseFloat_fraction ss fs Hs Hsne Hf) as (z & Hz & Ez).
  unfold parseTime.
  rewrite list_ascii_of_string_of_list_ascii.
  fold L. rewrite (replaceFirst_absent _ _ _ Hcomma), Htrim.
  destruct L as [| c0 L0] eqn:EL.
  { destruct hs; [contradiction | discriminate EL]. }
  rewrite Hincl, Hsplit. simpl map. rewrite Hx, Hy, Hz.
  eexists. split; [reflexivity | idtac].
  rewrite Ex, Ey, Ez. change (inject_Z 3600) with 3600%Q.
  change (inject_Z 60) with 60%Q. ring.
Qed.

(** What [parseTime] reads back from [formatTime]: the time rounded to the
    millisecond. *)
Lemma parseTime_formatTime (q : Q) :
  (0 <= q)%Q ->
  exists r,
    parseTime (TString (formatTime (Num q))) = Num r /\
    (r == inject_Z (roundMs q) * (1 # 1000))%Q.
Proof.
  intros Hq.
  destruct (formatTime_shape q Hq)
    as (hs & ms & ss & fs & -> & (Hh & Hhne) & (Hm & Hmne) & (Hs & Hsne)
        & (Hf & Hfl) & Hsum).
  assert (Hfne : fs <> []) by (intros ->; discriminate Hfl).
  destruct (parseTime_timecode hs ms ss fs Hh Hhne Hm Hmne Hs Hsne Hf Hfne)
    as (r & Hr & Er).
  exists r. split; [exact Hr | idtac].
  rewrite Er, <- Hsum, Hfl.
  change (inject_Z (10 ^ Z.of_nat 3)) with 1000%Q.
  unfold Qdiv. change (/ 1000)%Q with (1 # 1000)%Q. reflexivity.
Qed.

(** ** Rounding to the millisecond *)

Lemma Qmake_thousandths (k : Z) : (k # 1000 == inject_Z k * (1 # 1000))%Q.
Proof. unfold Qeq, inject_Z. simpl. lia. Qed.

Lemma roundMs_exact (q : Q) (k : Z) : (q == k # 1000)%Q -> roundMs q = k.
Proof.
  intros Hq. rewrite Qmake_thousandths in Hq.
  unfold roundMs. apply Qfloor_unique'; lra.
Qed.

Lemma roundMs_mono (p q : Q) : (p <= q)%Q -> (roundMs p <= roundMs q)%Z.
Proof. intros H. unfold roundMs. apply Qfloor_resp_le. lra. Qed.

Lemma roundMs_shift (q : Q) (j : Z) :
  roundMs (q + inject_Z j * (1 # 1000)) = (roundMs q + j)%Z.
Proof.
  unfold roundMs.
  destruct (Qfloor_bounds (q * 1000 + (1 # 2))) as [H1 H2].
  apply Qfloor_unique'; rewrite inject_Z_plus; lra.
Qed.

Lemma roundMs_nonneg (q : Q) : (0 <= q)%Q -> (0 <= roundMs q)%Z.
Proof. intros H. unfold roundMs. apply Qfloor_nonneg. lra. Qed.

Lemma roundMs_near (q : Q) :
  (Qabs (inject_Z (roundMs q) * (1 # 1000) - q) <= 1 # 2000)%Q.
Proof.
  unfold roundMs.
  destruct (Qfloor_bounds (q * 1000 + (1 # 2))) as [H1 H2].
  apply Qabs_Qle_condition. split; lra.
Qed.

(** X4. Whatever the precision of a non-negative time, the time code
    printed for it reads back within half a millisecond. *)
Lemma parseTime_formatTime_near (q : Q) :
  (0 <= q)%Q ->
  exists r,
    parseTime (TString (formatTime (Num q))) = Num r /\
    (Qabs (r - q) <= 1 # 2000)%Q.
Proof.
  intros Hq. destruct (parseTime_formatTime q Hq) as (r & Hr & Er).
  exists r. split; [exact Hr | idtac].
  rewrite Er. apply roundMs_near.
Qed.

(** The sample values of the time codec. *)
Example parseTime_samples :
  parseTime (TString "01:02:03.500") = Num (3723500 # 1000) /\
  parseTime (TString "90") = Num (90 # 1) /\
  parseTime (TString "1:30") = Num (90 # 1) /\
  parseTime (TString "bad") = Num 0 /\
  parseTime (TString "01,5") = Num (15 # 10) /\
  parseTime TUndefined = Num 0 /\
  parseTime (TNumber (dec 15 10)) = dec 15 10.
Proof. repeat split; vm_compute; reflexivity. Qed.

Example formatTime_samples :
  formatTime (lit (-1)) = "00:00:00.000" /\
  formatTime NaN = "00:00:00.000" /\
  formatTime PosInf = "00:00:00.000" /\
  formatTime (dec 37235 10) = "01:02:03.500" /\
  formatTime (lit 360000) = "100:00:00.000" /\
  formatTime (dec 599996 10000) = "00:00:60.000".
Proof. repeat split; vm_compute; reflexivity. Qed.

(** ** Claim C6 *)

(** C6. For every non-negative time [q] at millisecond precision (a whole
    number [k] of thousandths), [parseTime (formatTime q)] is a finite
    number equal to [q], hence within one millisecond of it. *)
Theorem parseTime_formatTime_roundtrip (q : Q) (k : Z) :
  (0 <= q)%Q -> (q == k # 1000)%Q ->
  exists r,
    parseTime (TString (formatTime (Num q))) = Num r /\
    (r == q)%Q /\ (Qabs (r - q) < 1 # 1000)%Q.
Proof.
  intros Hq Hk.
  destruct (parseTime_formatTime q Hq) as (r & Hr & Er).
  rewrite (roundMs_exact q k Hk) in Er.
  exists r. split; [exact Hr | idtac].
  assert (E : (r == q)%Q) by (rewrite Er, Hk; symmetry; apply Qmake_thousandths).
  split; [exact E | idtac].
  apply Qabs_Qlt_condition. split; lra.
Qed.

Lemma parseTime_formatTime_roundtrip_witness :
  exists r,
    parseTime (TString (formatTime (Num (7447 # 2)))) = Num r /\
    (r == 7447 # 2)%Q /\ (Qabs (r - (7447 # 2)) < 1 # 1000)%Q.
Proof.
  apply (parseTime_formatTime_roundtrip (7447 # 2) 3723500).
  - discriminate.
  - reflexivity.
Defined.

(** ** Claim C7 *)

Lemma spread_lookup (globalStyle override : StyleConfig) (key : string) :
  spread globalStyle override !! key
  = match override !! key with
    | Some v => Some v
    | None => globalStyle !! key
    end.
Proof.
  unfold spread. rewrite lookup_union.
  destruct (override !! key), (globalStyle !! key); reflexivity.
Qed.

(** C7. [getEffectiveStyle] is a field-wise merge: a property present in
    the caption's override has the override's value, an absent one the
    global value, and without a caption or without an override the result
    is the global style; with the override [{textColor: "#f00"}] the result
    is the global style with [textColor] set to ["#f00"] and every other
    property as in the global style. *)
Theorem getEffectiveStyle_fieldwise_merge
    (globalStyle override : StyleConfig) (id start end_ text key : string) :
  getEffectiveStyle globalStyle None = globalStyle /\
  getEffectiveStyle globalStyle (Some (Caption.mk id start end_ text None))
  = globalStyle /\
  getEffectiveStyle globalStyle
    (Some (Caption.mk id start end_ text (Some override))) !! key
  = match override !! key with
    | Some v => Some v
    | None => globalStyle !! key
    end /\
  getEffectiveStyle globalStyle
    (Some (Caption.mk id start end_ text
             (Some {["textColor" := VString "#f00"]})))
  = <["textColor" := VString "#f00"]> globalStyle /\
  getEffectiveStyle globalStyle
    (Some (Caption.mk id start end_ text
             (Some {["textColor" := VString "#f00"]}))) !! key
  = if decide (key = "textColor") then Some (VString "#f00")
    else globalStyle !! key.
Proof.
  repeat split.
  - apply spread_lookup.
  - simpl. unfold spread. symmetry. apply insert_union_singleton_l.
  - simpl. rewrite spread_lookup.
    destruct (decide (key = "textColor")) as [-> | Hne].
    + rewrite lookup_singleton_eq. reflexivity.
    + rewrite lookup_singleton_ne by congruence. reflexivity.
Qed.

(** Overriding the text colour of the default style of [constants.ts]. *)
Example getEffectiveStyle_default_sample :
  let caption :=
    Caption.mk "c" "00:00:00.000" "00:00:01.000" "hi"
      (Some {["textColor" := VString "#f00"]}) in
  let effective := getEffectiveStyle DEFAULT_STYLE (Some caption) in
  effective !! "textColor" = Some (VString "#f00") /\
  effective !! "fontFamily" = Some (VString "Montserrat") /\
  effective !! "fontSize" = Some (VNumber (lit 32)) /\
  effective !! "borderColor" = Some (VString "#000000") /\
  effective !! "borderWidth" = Some (VNumber (lit 4)) /\
  effective !! "backgroundColor" = Some (VString "#000000") /\
  effective !! "backgroundOpacity" = Some (VNumber (lit 0)) /\
  effective !! "animationType" = Some (VAnimation SCALE_UP) /\
  effective !! "positionY" = Some (VNumber (lit 70)) /\
  effective !! "positionX" = Some (VNumber (lit 50)) /\
  effective !! "fontWeight" = Some (VString "900").
Proof. cbv zeta. repeat split; vm_compute; reflexivity. Qed.

(** ** Claim C8 *)

(** On finite numbers, [containsTime] is membership in the closed interval
    between the parsed start and end. *)
Lemma containsTime_closed_interval (c : Caption.t) (t s e : Q) :
  parseTime (TString (Caption.start c)) = Num s ->
  parseTime (TString (Caption.end_ c)) = Num e ->
  containsTime (Num t) c = true <-> (s <= t)%Q /\ (t <= e)%Q.
Proof.
  intros Hs He. unfold containsTime. rewrite Hs, He.
  unfold geb, leb. rewrite andb_true_iff, !Qle_bool_iff. reflexivity.
Qed.

Lemma find_first_match {A : Type} (p : A -> bool) (l : list A) :
  match List.find p l with
  | Some x =>
      exists earlier later,
        l = earlier ++ x :: later /\ p x = true /\
        forallb (fun y => negb (p y)) earlier = true
  | None => forallb (fun y => negb (p y)) l = true
  end.
Proof.
  induction l as [| a l IH]; [reflexivity | idtac].
  simpl. destruct (p a) eqn:Ea.
  - exists [], l. auto.
  - destruct (List.find p l) as [x |].
    + destruct IH as (earlier & later & -> & Hx & Hpre).
      exists (a :: earlier), later. simpl. rewrite Ea. auto.
    + simpl. exact IH.
Qed.

Lemma leb_atMost (a b : number) : (a <=? b)%js = true <-> atMost a b.
Proof.
  destruct a as [| | x |], b as [| | y |]; simpl;
    try (split; [discriminate | contradiction]);
    try (split; [intros _; exact I | reflexivity]).
  apply Qle_bool_iff.
Qed.

Lemma containsTime_spans (time : number) (c : Caption.t) :
  containsTime time c = true <-> spans c time.
Proof.
  unfold containsTime, spans, geb. cbv zeta.
  rewrite andb_true_iff, !leb_atMost. reflexivity.
Qed.

Lemma none_spans (time : number) (l : list Caption.t) :
  forallb (fun c => negb (containsTime time c)) l = true ->
  Forall (fun c => ~ spans c time) l.
Proof.
  induction l as [| c l IH]; intros H; [constructor | idtac].
  simpl in H. apply andb_true_iff in H. destruct H as [Hc Hl].
  constructor; [idtac | exact (IH Hl)].
  intros Hs. apply containsTime_spans in Hs. rewrite Hs in Hc. discriminate Hc.
Qed.

(** C8. The active caption at a time is the first caption, in list order,
    whose closed interval from start to end contains the time: it
    contains the time, every caption before it in the list does not, and
    no caption is active when none contains the time; one caption at most
    is drawn per tick. With A = [0,5] before B = [3,8], both contain t = 4
    and A is the active one; the interval is closed at both ends, and a
    caption listed first is passed over at a time before its start. *)
Theorem findCaptionAtTime_first_in_list_order
    (styleConfig : StyleConfig) (captions : list Caption.t) (time : number) :
  match findCaptionAtTime captions time with
  | Some c =>
      exists earlier later,
        captions = earlier ++ c :: later /\ spans c time /\
        Forall (fun c' => ~ spans c' time) earlier
  | None => Forall (fun c' => ~ spans c' time) captions
  end /\
  renderOverlay styleConfig captions time
  = option_map
      (fun c => (Caption.text c, getEffectiveStyle styleConfig (Some c)))
      (findCaptionAtTime captions time) /\
  let A := Caption.mk "A" "00:00:00.000" "00:00:05.000" "first" None in
  let B := Caption.mk "B" "00:00:03.000" "00:00:08.000" "second" None in
  containsTime (lit 4) A = true /\ containsTime (lit 4) B = true /\
  findCaptionAtTime [A; B] (lit 4) = Some A /\
  findCaptionAtTime [A; B] (lit 5) = Some A /\
  findCaptionAtTime [A; B] (lit 8) = Some B /\
  findCaptionAtTime [A; B] (lit 9) = None /\
  findCaptionAtTime [B; A] (lit 4) = Some B /\
  findCaptionAtTime [B; A] (lit 3) = Some B /\
  findCaptionAtTime [B; A] (lit 2) = Some A /\
  findCaptionAtTime [B; A] (lit 0) = Some A /\
  findCaptionAtTime [B; A] (lit (-1)) = None.
Proof.
  split.
  - pose proof (find_first_match (containsTime time) captions) as H.
    unfold findCaptionAtTime.
    destruct (List.find (containsTime time) captions) as [c |].
    + destruct H as (earlier & later & Heq & Hc & Hpre).
      exists earlier, later. split; [exact Heq | idtac].
      split; [apply containsTime_spans; exact Hc | apply none_spans; exact Hpre].
    + apply none_spans. exact H.
  - split.
    + unfold renderOverlay. destruct (findCaptionAtTime captions time); reflexivity.
    + cbv zeta. repeat split; vm_compute; reflexivity.
Qed.

(** ** Arithmetic on finite numbers *)

Lemma Qltb_spec (x y : Q) : reflect (x < y)%Q (Qltb x y).
Proof.
  destruct (Qlt_le_dec x y) as [H | H].
  - rewrite (Qltb_true x y H). constructor. exact H.
  - rewrite (Qltb_false x y H). constructor. apply Qle_not_lt. exact H.
Qed.

Lemma max_finite (a b : Q) :
  exists c, JSNumber.max (Num a) (Num b) = Num c /\
            (a <= c)%Q /\ (b <= c)%Q /\ (c = a \/ c = b).
Proof.
  unfold JSNumber.max, ltb. destruct (Qltb_spec a b) as [H | H].
  - exists b. repeat split; auto; lra.
  - exists a. repeat split; auto; lra.
Qed.

Lemma max_left (a b : Q) :
  (b <= a)%Q -> JSNumber.max (Num a) (Num b) = Num a.
Proof.
  intros H. unfold JSNumber.max, ltb. rewrite (Qltb_false a b H). reflexivity.
Qed.

Lemma min_finite (a b : Q) :
  exists c, JSNumber.min (Num a) (Num b) = Num c /\
            (c <= a)%Q /\ (c <= b)%Q /\ (c = a \/ c = b).
Proof.
  unfold JSNumber.min, ltb. destruct (Qltb_spec b a) as [H | H].
  - exists b. repeat split; auto; lra.
  - exists a. repeat split; auto; lra.
Qed.

Lemma add_finite (a b : Q) : (Num a + Num b)%js = Num (a + b).
Proof. reflexivity. Qed.

Lemma sub_finite (a b : Q) : (Num a - Num b)%js = Num (a - b).
Proof. reflexivity. Qed.

Lemma pixelsToTime_finite (zoom px : Q) :
  ~ (zoom == 0)%Q -> pixelsToTime (Num zoom) (Num px) = Num (px / zoom).
Proof.
  intros Hz. unfold pixelsToTime, div.
  destruct (zoom ?= 0)%Q eqn:E; try reflexivity.
  apply Qeq_alt in E. contradiction.
Qed.

(** ** Claims C4 and C5: timeline drags *)

(** X17. Zooming keeps the scale between 10 and 300 pixels per second,
    so the scale of the timeline is never zero. *)
Lemma handleZoom_bounds (prev delta : Q) :
  exists zoom,
    handleZoom (Num prev) (Num delta) = Num zoom /\
    (10 <= zoom)%Q /\ (zoom <= 300)%Q.
Proof.
  unfold handleZoom, lit. rewrite add_finite.
  destruct (min_finite (inject_Z 300) (prev + delta)) as (m & Hm & Hm1 & _ & _).
  rewrite Hm.
  destruct (max_finite (inject_Z 10) m) as (z & Hz & Hz1 & _ & Hzc).
  rewrite Hz. exists z.
  change (inject_Z 10) with 10%Q in *. change (inject_Z 300) with 300%Q in *.
  repeat split; auto. destruct Hzc as [-> | ->]; lra.
Qed.

(** The span a caption drag computes from a finite initial span. *)
Lemma dragSpan_finite (type : DragType) (initialStart initialEnd delta : Q) :
  clampFree type initialStart initialEnd ->
  exists newStart newEnd,
    dragSpan type (Num initialStart) (Num initialEnd) (Num delta)
    = (Num newStart, Num newEnd) /\
    (0 <= newStart)%Q /\ (newStart + minimumSpan type <= newEnd)%Q.
Proof.
  destruct type; simpl clampFree; intros Hc; try contradiction;
    unfold dragSpan; cbv zeta; unfold lit, dec; rewrite ?add_finite, ?sub_finite.
  - (* move *)
    destruct (max_finite (inject_Z 0) (initialStart + delta))
      as (s & Hs & Hs0 & _ & _).
    rewrite Hs, add_finite.
    destruct (max_finite (s + (1 # 10)) (initialEnd + delta))
      as (e & He & He1 & _ & _).
    rewrite He. exists s, e. simpl minimumSpan.
    change (inject_Z 0) with 0%Q in Hs0. repeat split; auto.
  - (* resize-left *)
    destruct (min_finite (initialEnd - (2 # 10)) (initialStart + delta))
      as (m & Hm & Hm1 & _ & _).
    rewrite Hm.
    destruct (max_finite (inject_Z 0) m) as (s & Hs & Hs0 & _ & Hsc).
    rewrite Hs. exists s, initialEnd. simpl minimumSpan.
    change (inject_Z 0) with 0%Q in *. repeat split; auto.
    destruct Hsc as [-> | ->]; lra.
  - (* resize-right *)
    destruct (max_finite (initialStart + (2 # 10)) (initialEnd + delta))
      as (e & He & He1 & _ & _).
    rewrite He. exists initialStart, e. simpl minimumSpan.
    repeat split; auto.
Qed.

(** Two non-negative times at least [j] milliseconds apart are still that
    far apart once printed by [formatTime] and read back. *)
Lemma formatTime_keeps_distance (a b : Q) (j : Z) :
  (0 <= a)%Q -> (a + inject_Z j * (1 # 1000) <= b)%Q -> (0 <= j)%Z ->
  exists ra rb,
    parseTime (TString (formatTime (Num a))) = Num ra /\
    parseTime (TString (formatTime (Num b))) = Num rb /\
    (inject_Z j * (1 # 1000) <= rb - ra)%Q.
Proof.
  intros Ha Hab Hj.
  assert (Hj' : (0 <= inject_Z j)%Q)
    by (change 0%Q with (inject_Z 0); rewrite <- Zle_Qle; exact Hj).
  assert (Hb : (0 <= b)%Q) by lra.
  destruct (parseTime_formatTime a Ha) as (ra & Hra & Era).
  destruct (parseTime_formatTime b Hb) as (rb & Hrb & Erb).
  exists ra, rb. repeat split; try assumption.
  pose proof (roundMs_mono _ _ Hab) as Hmono.
  rewrite roundMs_shift in Hmono.
  rewrite Zle_Qle, inject_Z_plus in Hmono.
  rewrite Era, Erb. lra.
Qed.

(** Resizing [2,5] from the left by four seconds stops the start at 4.8. *)
Example resize_left_sample :
  handleMouseMove (lit 60) (lit 100) None
    (Some (captionMouseDown
             (Caption.mk "c" "00:00:02.000" "00:00:05.000" "hi" None)
             ResizeLeft (lit 0)))
    (lit 240)
  = OnCaptionChange "c"
      (Updates.mk None (Some "00:00:04.800") (Some "00:00:05.000") None None).
Proof. vm_compute. reflexivity. Qed.

(** Numbers within half a millisecond of two non-negative times at least
    [j] milliseconds apart print as time codes at least [j - 1]
    milliseconds apart. *)
Lemma formatTime_keeps_distance_near (a b a' b' : Q) (j : Z) :
  (0 <= a')%Q -> (a + inject_Z j * (1 # 1000) <= b)%Q -> (1 <= j)%Z ->
  (Qabs (a' - a) <= 1 # 2000)%Q -> (Qabs (b' - b) <= 1 # 2000)%Q ->
  exists ra rb,
    parseTime (TString (formatTime (Num a'))) = Num ra /\
    parseTime (TString (formatTime (Num b'))) = Num rb /\
    (inject_Z j * (1 # 1000) - (1 # 1000) <= rb - ra)%Q.
Proof.
  intros Ha' Hab Hj Hna Hnb.
  apply Qabs_Qle_condition in Hna. apply Qabs_Qle_condition in Hnb.
  destruct Hna as [_ Hna]. destruct Hnb as [Hnb _].
  assert (Hj1 : (0 <= j - 1)%Z) by lia.
  assert (Hd : (a' + inject_Z (j - 1) * (1 # 1000) <= b')%Q).
  { unfold Z.sub. rewrite inject_Z_plus.
    change (inject_Z (- (1))) with (- (1))%Q. lra. }
  destruct (formatTime_keeps_distance a' b' (j - 1) Ha' Hd Hj1)
    as (ra & rb & Hra & Hrb & Hdist).
  exists ra, rb. repeat split; try assumption.
  unfold Z.sub in Hdist. rewrite inject_Z_plus in Hdist.
  change (inject_Z (- (1))) with (- (1))%Q in Hdist. lra.
Qed.

(** C4, as the code has it. A caption drag started from a finite initial
    start and end commits the time codes of the span its branch computes,
    and the branch keeps the computed end at least 0.2 seconds after the
    computed start when it is a resize-right from a non-negative start or
    a resize-left from an end of at least 0.2 seconds, and at least 0.1
    seconds when it is a move. The committed time codes are printed at
    the millisecond from numbers the double arithmetic has rounded: for
    every pair of numbers within half a millisecond of the computed start
    and end, the printed time codes, read back by [parseTime], are at
    least 0.199 seconds apart for the resizes and 0.099 seconds for the
    move, one millisecond below the bound of the branch. *)
Theorem drag_commit_minimum_span
    (type : DragType) (id : string)
    (zoom startX clientX initialStart initialEnd : Q)
    (effDuration : number) (container : option (number * number)) :
  id <> EmptyString -> ~ (zoom == 0)%Q -> clampFree type initialStart initialEnd ->
  exists newStart newEnd,
    dragSpan type (Num initialStart) (Num initialEnd)
      (Num ((clientX - startX) / zoom))
    = (Num newStart, Num newEnd) /\
    handleMouseMove (Num zoom) effDuration container
      (Some (handleMouseDown (Num startX) id type
               (Num initialStart) (Num initialEnd)))
      (Num clientX)
    = OnCaptionChange id
        (Updates.mk None (Some (formatTime (Num newStart)))
           (Some (formatTime (Num newEnd))) None None) /\
    forall computedStart computedEnd : Q,
      (0 <= computedStart)%Q ->
      (Qabs (computedStart - newStart) <= 1 # 2000)%Q ->
      (Qabs (computedEnd - newEnd) <= 1 # 2000)%Q ->
      exists rs re,
        parseTime (TString (formatTime (Num computedStart))) = Num rs /\
        parseTime (TString (formatTime (Num computedEnd))) = Num re /\
        (minimumSpan type - (1 # 1000) <= re - rs)%Q.
Proof.
  intros Hid Hzoom Hc.
  destruct (dragSpan_finite type initialStart initialEnd
              ((clientX - startX) / zoom) Hc) as (s & e & Hspan & Hs0 & Hse).
  exists s, e. split; [exact Hspan | idtac]. split.
  - assert (Hne : String.eqb id EmptyString = false)
      by (apply String.eqb_neq; exact Hid).
    unfold handleMouseMove, handleMouseDown.
    cbv beta iota delta [Dragging.type Dragging.id Dragging.initialStart
                         Dragging.initialEnd Dragging.startX].
    rewrite Hne, sub_finite, (pixelsToTime_finite zoom _ Hzoom).
    destruct type; try (simpl in Hc; contradiction); rewrite Hspan; reflexivity.
  - intros s' e' Hs' Hns Hne.
    assert (Hj : exists j, (1 <= j)%Z /\
                           (minimumSpan type == inject_Z j * (1 # 1000))%Q).
    { destruct type; [exists 100%Z | exists 200%Z | exists 200%Z | exists 200%Z];
        (split; [discriminate | reflexivity]). }
    destruct Hj as (j & Hj & Ej). rewrite Ej in Hse.
    destruct (formatTime_keeps_distance_near s e s' e' j Hs' Hse Hj Hns Hne)
      as (rs & re & Hrs & Hre & Hdist).
    exists rs, re. repeat split; try assumption. rewrite Ej. exact Hdist.
Qed.

Lemma drag_commit_minimum_span_witness :
  exists newStart newEnd,
    dragSpan ResizeLeft (Num 2) (Num 5) (Num ((240 - 0) / 60))
    = (Num newStart, Num newEnd) /\
    handleMouseMove (Num 60) (lit 100) None
      (Some (handleMouseDown (Num 0) "c" ResizeLeft (Num 2) (Num 5)))
      (Num 240)
    = OnCaptionChange "c"
        (Updates.mk None (Some (formatTime (Num newStart)))
           (Some (formatTime (Num newEnd))) None None) /\
    forall computedStart computedEnd : Q,
      (0 <= computedStart)%Q ->
      (Qabs (computedStart - newStart) <= 1 # 2000)%Q ->
      (Qabs (computedEnd - newEnd) <= 1 # 2000)%Q ->
      exists rs re,
        parseTime (TString (formatTime (Num computedStart))) = Num rs /\
        parseTime (TString (formatTime (Num computedEnd))) = Num re /\
        (minimumSpan ResizeLeft - (1 # 1000) <= re - rs)%Q.
Proof.
  apply (drag_commit_minimum_span ResizeLeft "c" 60 0 240 2 5 (lit 100) None).
  - discriminate.
  - discriminate.
  - simpl. discriminate.
Defined.

(** C4, as stated, fails on a move: dragging the caption [2,5] left by ten
    seconds commits a span of 0.1 seconds, below 0.2. *)
Lemma move_drag_commits_span_below_fifth :
  exists start end_,
    handleMouseMove (lit 60) (lit 100) None
      (Some (captionMouseDown
               (Caption.mk "c" "00:00:02.000" "00:00:05.000" "hi" None)
               Move (lit 600)))
      (lit 0)
    = OnCaptionChange "c" (Updates.mk None (Some start) (Some end_) None None) /\
    (parseTime (TString end_) - parseTime (TString start) <? dec 2 10)%js = true.
Proof.
  exists "00:00:00.000", "00:00:00.100". split; vm_compute; reflexivity.
Qed.

(** C5, as the code has it. For a caption spanning [2,5], a move drag
    whose pointer delta maps to -10 seconds commits start 0 and end 0.1:
    the start is clamped at zero and the span shrinks to the 0.1 second
    floor. *)
Theorem move_drag_clamped_at_zero
    (id text : string) (style : option StyleConfig)
    (zoom startX clientX : Q)
    (effDuration : number) (container : option (number * number)) :
  id <> EmptyString -> ~ (zoom == 0)%Q -> ((clientX - startX) / zoom == - (10))%Q ->
  let caption := Caption.mk id "00:00:02.000" "00:00:05.000" text style in
  let call :=
    handleMouseMove (Num zoom) effDuration container
      (Some (captionMouseDown caption Move (Num startX))) (Num clientX) in
  call = OnCaptionChange id
           (Updates.mk None (Some "00:00:00.000") (Some "00:00:00.100")
              None None) /\
  applyCall call [caption]
  = [Caption.mk id "00:00:00.000" "00:00:00.100" text style].
Proof.
  intros Hid Hzoom Hdelta caption call.
  assert (Hne : String.eqb id EmptyString = false) by (apply String.eqb_neq; exact Hid).
  assert (Hs : exists s, parseTime (TString "00:00:02.000") = Num s /\ (s == 2)%Q)
    by (exists (2000 # 1000)%Q; split; vm_compute; reflexivity).
  assert (He : exists e, parseTime (TString "00:00:05.000") = Num e /\ (e == 5)%Q)
    by (exists (5000 # 1000)%Q; split; vm_compute; reflexivity).
  destruct Hs as (s & Hs & Es). destruct He as (e & He & Ee).
  assert (Hcall : call = OnCaptionChange id
            (Updates.mk None (Some "00:00:00.000") (Some "00:00:00.100")
               None None)).
  { unfold call, handleMouseMove, captionMouseDown, handleMouseDown, caption.
    cbv beta iota delta [Dragging.type Dragging.id Dragging.initialStart
                         Dragging.initialEnd Dragging.startX
                         Caption.id Caption.start Caption.end_].
    rewrite Hne, Hs, He, sub_finite, (pixelsToTime_finite zoom _ Hzoom).
    unfold dragSpan, lit, dec. rewrite !add_finite.
    rewrite (max_left (inject_Z 0) (s + (clientX - startX) / zoom))
      by (change (inject_Z 0) with 0%Q; lra).
    rewrite add_finite.
    rewrite (max_left (inject_Z 0 + (1 # 10)) (e + (clientX - startX) / zoom))
      by (change (inject_Z 0) with 0%Q; lra).
    reflexivity. }
  split; [exact Hcall | idtac].
  rewrite Hcall. unfold applyCall, handleCaptionChange, caption. simpl map.
  cbv beta iota delta [Caption.id]. rewrite String.eqb_refl. reflexivity.
Qed.

Lemma move_drag_clamped_at_zero_witness :
  let caption := Caption.mk "c" "00:00:02.000" "00:00:05.000" "hi" None in
  let call :=
    handleMouseMove (Num 60) (lit 100) None
      (Some (captionMouseDown caption Move (Num 600))) (Num 0) in
  call = OnCaptionChange "c"
           (Updates.mk None (Some "00:00:00.000") (Some "00:00:00.100")
              None None) /\
  applyCall call [caption]
  = [Caption.mk "c" "00:00:00.000" "00:00:00.100" "hi" None].
Proof.
  apply (move_drag_clamped_at_zero "c" "hi" None 60 600 0 (lit 100) None).
  - discriminate.
  - discriminate.
  - vm_compute. reflexivity.
Defined.

(** C5, as stated, fails: the move of [2,5] by -10 seconds does not commit
    the end 3. *)
Lemma move_drag_does_not_keep_span :
  handleMouseMove (lit 60) (lit 100) None
    (Some (captionMouseDown
             (Caption.mk "c" "00:00:02.000" "00:00:05.000" "hi" None)
             Move (lit 600)))
    (lit 0)
  <> OnCaptionChange "c"
       (Updates.mk None (Some (formatTime (lit 0))) (Some (formatTime (lit 3)))
          None None).
Proof. vm_compute. discriminate. Qed.

(** ** The caption list *)

Lemma insertSorted_Permutation {A : Type} (compareFn : A -> A -> number)
    (x : A) (l : list A) :
  Permutation (insertSorted compareFn x l) (x :: l).
Proof.
  induction l as [| y l IH]; [reflexivity | idtac].
  change (insertSorted compareFn x (y :: l))
    with (if (compareFn x y >? lit 0)%js
          then y :: insertSorted compareFn x l else x :: y :: l).
  destruct (compareFn x y >? lit 0)%js; [idtac | reflexivity].
  rewrite IH. apply perm_swap.
Qed.

(** Sorting rearranges and neither drops nor duplicates an element. *)
Lemma sort_Permutation {A : Type} (compareFn : A -> A -> number) (l : list A) :
  Permutation (sort compareFn l) l.
Proof.
  induction l as [| x l IH]; [reflexivity | idtac].
  simpl. rewrite insertSorted_Permutation, IH. reflexivity.
Qed.

Lemma handleAddCaption_Permutation (now : Z) (currentTime duration : number)
    (prev : list Caption.t) :
  Permutation (handleAddCaption now currentTime duration prev)
    (Caption.mk ("manual-" +:+ string_of_list_ascii (intToString now))
       (formatTime currentTime)
       (formatTime (JSNumber.min duration (currentTime + lit 2)%js))
       "New Caption" None :: prev).
Proof.
  unfold handleAddCaption. rewrite sort_Permutation.
  rewrite Permutation_app_comm. reflexivity.
Qed.

(** The edits under which distinct ids stay distinct. *)
Lemma onCaptionDelete_ids_NoDup (id : string) (prev : list Caption.t) :
  NoDup (map Caption.id prev) -> NoDup (map Caption.id (onCaptionDelete id prev)).
Proof.
  unfold onCaptionDelete. induction prev as [| c prev IH]; [trivial | idtac].
  simpl. intros Hnd. apply NoDup_cons in Hnd. destruct Hnd as [Hc Hnd].
  destruct (negb (Caption.id c =? id)%string); [idtac | auto].
  simpl. apply NoDup_cons. split; [idtac | auto].
  intros Hin. apply Hc. apply list_elem_of_In in Hin. apply list_elem_of_In.
  apply in_map_iff in Hin. destruct Hin as (c' & Hid & Hin).
  apply filter_In in Hin. apply in_map_iff. exists c'. tauto.
Qed.

Lemma handleCaptionChange_ids (id : string) (updates : Updates.t)
    (prev : list Caption.t) :
  Updates.id updates = None ->
  map Caption.id (handleCaptionChange id updates prev) = map Caption.id prev.
Proof.
  intros Hu. unfold handleCaptionChange. rewrite map_map. apply map_ext.
  intros c. destruct (Caption.id c =? id)%string; [idtac | reflexivity].
  unfold spreadCaption. simpl. rewrite Hu. reflexivity.
Qed.

Lemma handleAddCaption_ids_NoDup (now : Z) (currentTime duration : number)
    (prev : list Caption.t) :
  ~ In ("manual-" +:+ string_of_list_ascii (intToString now))
       (map Caption.id prev) ->
  NoDup (map Caption.id prev) ->
  NoDup (map Caption.id (handleAddCaption now currentTime duration prev)).
Proof.
  intros Hfresh Hnd.
  pose proof (Permutation_map Caption.id
                (handleAddCaption_Permutation now currentTime duration prev))
    as HP.
  rewrite HP. simpl. apply NoDup_cons. split; [idtac | exact Hnd].
  intros Hin. apply Hfresh. apply list_elem_of_In. exact Hin.
Qed.

(** ** Claim C9 *)

(** C9, at its failing input. Splitting the same caption twice derives the
    same child id twice: from the one-caption list with id ["a"], the first
    split keeps the ids distinct and the second yields the ids
    ["a"; "a-split"; "a-split"]. *)
Theorem handleSplitCaption_twice_repeats_child_id :
  let captions := [Caption.mk "a" "00:00:00.000" "00:00:04.000" "hello" None] in
  let once := handleSplitCaption captions "a" captions in
  let twice := handleSplitCaption once "a" once in
  NoDup (map Caption.id captions) /\
  map Caption.id once = ["a"; "a-split"] /\
  map Caption.id twice = ["a"; "a-split"; "a-split"] /\
  ~ NoDup (map Caption.id twice).
Proof.
  cbv zeta. split; [idtac | split; [idtac | split]].
  - simpl. apply NoDup_singleton.
  - vm_compute. reflexivity.
  - vm_compute. reflexivity.
  - intros Hnd.
    assert (E : map Caption.id
              (handleSplitCaption
                 (handleSplitCaption
                    [Caption.mk "a" "00:00:00.000" "00:00:04.000" "hello" None] "a"
                    [Caption.mk "a" "00:00:00.000" "00:00:04.000" "hello" None])
                 "a"
                 (handleSplitCaption
                    [Caption.mk "a" "00:00:00.000" "00:00:04.000" "hello" None] "a"
                    [Caption.mk "a" "00:00:00.000" "00:00:04.000" "hello" None]))
              = ["a"; "a-split"; "a-split"]) by (vm_compute; reflexivity).
    rewrite E in Hnd.
    apply NoDup_cons in Hnd. destruct Hnd as [_ Hnd].
    apply NoDup_cons in Hnd. destruct Hnd as [Hin _].
    apply Hin. apply list_elem_of_here.
Qed.

(** ** Claim C10 *)

Lemma min_left (a b : Q) :
  (a <= b)%Q -> JSNumber.min (Num a) (Num b) = Num a.
Proof.
  intros H. unfold JSNumber.min, ltb. rewrite (Qltb_false b a H). reflexivity.
Qed.

(** C10, as the code has it. Manual-add clamps only the end: the created
    caption has start [formatTime t] and end [formatTime (min d (t + 2))].
    For a playhead time [t] beyond the duration [d >= 0] the end read back
    is at most the start read back, so start < end fails at creation; it
    is strictly less unless [t] exceeds [d] by under a millisecond, in
    which case both may print as the same time code. *)
Theorem handleAddCaption_clamps_end_only
    (now : Z) (t d : Q) (prev : list Caption.t) :
  (0 <= d)%Q -> (d < t)%Q ->
  let created :=
    Caption.mk ("manual-" +:+ string_of_list_ascii (intToString now))
      (formatTime (Num t))
      (formatTime (JSNumber.min (Num d) (Num t + lit 2)%js))
      "New Caption" None in
  Permutation (handleAddCaption now (Num t) (Num d) prev) (created :: prev) /\
  exists rs re,
    parseTime (TString (Caption.start created)) = Num rs /\
    parseTime (TString (Caption.end_ created)) = Num re /\
    (re <= rs)%Q /\ ((re < rs)%Q \/ (t < d + (1 # 1000))%Q).
Proof.
  intros Hd Hdt created.
  split; [apply handleAddCaption_Permutation | idtac].
  assert (Ht : (0 <= t)%Q) by lra.
  destruct (parseTime_formatTime t Ht) as (rs & Hrs & Ers).
  destruct (parseTime_formatTime d Hd) as (re & Hre & Ere).
  exists rs, re. unfold created. cbv beta iota delta [Caption.start Caption.end_].
  unfold lit. rewrite add_finite.
  rewrite (min_left d (t + inject_Z 2)) by (change (inject_Z 2) with 2%Q; lra).
  split; [exact Hrs | idtac]. split; [exact Hre | idtac].
  assert (Hmono : (roundMs d <= roundMs t)%Z) by (apply roundMs_mono; lra).
  rewrite Zle_Qle in Hmono.
  split; [rewrite Ers, Ere; lra | idtac].
  destruct (Qlt_le_dec t (d + (1 # 1000))) as [Hnear | Hfar];
    [right; exact Hnear | left].
  assert (Hstep : (roundMs d + 1 <= roundMs t)%Z).
  { rewrite <- roundMs_shift. apply roundMs_mono.
    change (inject_Z 1) with 1%Q. lra. }
  rewrite Zle_Qle, inject_Z_plus in Hstep. change (inject_Z 1) with 1%Q in Hstep.
  rewrite Ers, Ere. lra.
Qed.

Lemma handleAddCaption_clamps_end_only_witness :
  let created :=
    Caption.mk ("manual-" +:+ string_of_list_ascii (intToString 1700000000000))
      (formatTime (Num 3))
      (formatTime (JSNumber.min (Num 0) (Num 3 + lit 2)%js))
      "New Caption" None in
  Permutation (handleAddCaption 1700000000000 (Num 3) (Num 0) []) (created :: []) /\
  exists rs re,
    parseTime (TString (Caption.start created)) = Num rs /\
    parseTime (TString (Caption.end_ created)) = Num re /\
    (re <= rs)%Q /\ ((re < rs)%Q \/ (3 < 0 + (1 # 1000))%Q).
Proof.
  apply (handleAddCaption_clamps_end_only 1700000000000 3 0 []).
  - discriminate.
  - reflexivity.
Defined.

(** C10, as stated, fails for a playhead less than a millisecond beyond
    the duration: with [t = 0.0004 > d = 0] the created caption has equal
    start and end, its end not being less than its start. *)
Lemma handleAddCaption_end_equal_to_start :
  (0 < 1 # 2500)%Q /\
  handleAddCaption 1700000000000 (Num (1 # 2500)) (lit 0) []
  = [Caption.mk "manual-1700000000000" "00:00:00.000" "00:00:00.000"
       "New Caption" None] /\
  (parseTime (TString "00:00:00.000") <? parseTime (TString "00:00:00.000"))%js
  = false.
Proof. repeat split; vm_compute; reflexivity. Qed.

Lemma map_keeping_ids (f : Caption.t -> Caption.t) (l : list Caption.t) :
  (forall c, Caption.id (f c) = Caption.id c) ->
  map Caption.id (map f l) = map Caption.id l.
Proof. intros Hf. rewrite map_map. apply map_ext. exact Hf. Qed.

Lemma handleSplitCaption_ids_NoDup (captions prev : list Caption.t) (id : string) :
  ~ In (id +:+ "-split") (map Caption.id prev) ->
  NoDup (map Caption.id prev) ->
  NoDup (map Caption.id (handleSplitCaption captions id prev)).
Proof.
  intros Hfresh Hnd. unfold handleSplitCaption.
  destruct (List.find (fun c => (Caption.id c =? id)%string) captions)
    as [c |] eqn:Hfind; [idtac | exact Hnd].
  apply find_some in Hfind. destruct Hfind as [_ Hid].
  apply String.eqb_eq in Hid.
  match goal with
  | |- NoDup (map _ (sort _ ?l)) =>
      pose proof (Permutation_map Caption.id (sort_Permutation byStart l)) as HP
  end.
  rewrite HP, map_app, map_keeping_ids.
  - rewrite Permutation_app_comm. simpl. rewrite Hid.
    apply NoDup_cons. split; [idtac | exact Hnd].
    intros Hin. apply Hfresh. apply list_elem_of_In. exact Hin.
  - intros x. destruct (Caption.id x =? id)%string eqn:Ex; [idtac | reflexivity].
    apply String.eqb_eq in Ex. simpl. congruence.
Qed.

(** ** Export *)

(** The [finally] block does restore what the handler saved: when
    [handleExport] returns, on either path, the mute flag and the time are
    those at entry. *)
Lemma handleExport_finally_restores (env : Environment) (playerReady : bool)
    (currentTime : number) (w : World) :
  let w' := snd (handleExport env playerReady currentTime w) in
  Video.muted (video w') = Video.muted (video w) /\
  Video.currentTime (video w') = Video.currentTime (video w).
Proof.
  destruct env as [[] data], playerReady; split; reflexivity.
Qed.

(** The run always ends with the [onstop] handler, which leaves its own
    values in the video element. *)
Lemma exportRun_ends_with_onstop (env : Environment) (currentTime : number)
    (w : World) :
  let w' := exportRun env true currentTime w in
  Video.muted (video w') = false /\
  Video.currentTime (video w') = currentTime /\
  status (processing w') = success /\
  exists earlier,
    downloads w' = earlier ++ [("captioned_video.webm", concat (chunks w'))].
Proof.
  unfold exportRun, runTasks.
  assert (Ht : exists w1,
             snd (handleExport env true currentTime w) = w1 /\
             tasks w1 = tasks w ++ [DataAvailable (captured env); Stop]).
  { eexists. split; [reflexivity | idtac]. destruct env as [[] data]; reflexivity. }
  destruct Ht as (w1 & -> & ->).
  rewrite fold_left_app. cbn [fold_left].
  match goal with
  | |- context [dispatch currentTime (DataAvailable ?d) ?w0] =>
      generalize (snd (dispatch currentTime (DataAvailable d) w0))
  end.
  intros w2. cbv zeta. repeat split. exists (downloads w2). reflexivity.
Qed.

(** ** Claim C1 *)

(** C1, at its failing inputs. A successful export started while the live
    video time (3.2) is ahead of the React [currentTime] state (3): the
    [finally] block restores time 3.2, then [onstop] sets the time to the
    state value 3. And an export of a muted video: the [finally] block
    restores the mute flag, then [onstop] clears it. In both, the state
    after the run differs from the state before it. *)
Theorem exportRun_overwrites_restored_state :
  let p := {| status := idle; message := None |} in
  let env := {| playResolves := true; captured := ["d"%char] |} in
  let playing := Video.mk (dec 32 10) false (lit 1) (lit 10) false in
  let mutedVideo := Video.mk (lit 3) true (lit 1) (lit 10) false in
  (Video.currentTime
     (video (snd (handleExport env true (lit 3) (quiescent playing p true))))
   = dec 32 10 /\
   Video.currentTime (video (exportRun env true (lit 3) (quiescent playing p true)))
   = lit 3 /\
   (lit 3 <? dec 32 10)%js = true) /\
  (Video.muted
     (video (snd (handleExport env true (lit 3) (quiescent mutedVideo p false))))
   = true /\
   Video.muted (video (exportRun env true (lit 3) (quiescent mutedVideo p false)))
   = false).
Proof. cbv zeta. repeat split. Qed.

(** ** Claim C2 *)

(** C2, at its failing input. When [video.play()] rejects, the recorder
    is stopped and the [catch] block reports the error status; the [onstop]
    handler then assembles the data gathered so far into a file, hands it
    to the user and replaces the error status by the success status. *)
Theorem exportRun_failure_delivers_partial_artifact :
  let p := {| status := idle; message := None |} in
  let env := {| playResolves := false; captured := ["d"%char] |} in
  let v := Video.mk (lit 3) false (lit 1) (lit 10) false in
  let afterHandler := snd (handleExport env true (lit 3) (quiescent v p false)) in
  let afterRun := exportRun env true (lit 3) (quiescent v p false) in
  recorder afterHandler = inactive /\
  status (processing afterHandler) = error /\
  downloads afterHandler = [] /\
  status (processing afterRun) = success /\
  downloads afterRun = [("captioned_video.webm", ["d"%char])] /\
  chunks afterRun = [["d"%char]].
Proof. cbv zeta. repeat split. Qed.

(** On the failure path of every run, [onstop] still delivers a file and
    reports success. *)
Lemma exportRun_failure_reports_success (data : list ascii)
    (currentTime : number) (w : World) :
  let w' := exportRun {| playResolves := false; captured := data |} true
              currentTime w in
  status (processing w') = success /\ downloads w' <> [].
Proof.
  destruct (exportRun_ends_with_onstop
              {| playResolves := false; captured := data |} currentTime w)
    as (_ & _ & Hs & earlier & Hd).
  cbv zeta. split; [exact Hs | idtac].
  rewrite Hd. intros Habs. apply app_eq_nil in Habs. destruct Habs; discriminate.
Qed.

(** ** Claim C3 *)

(** C3, as the code has it. In every export run the recorder is started
    first; the seek to time 0 and the mute are issued after that, and the
    seek is acknowledged before [play] is called; so playback starts after
    capture has started and after the seek is acknowledged, and capture is
    stopped after playback was started. *)
Theorem exportRun_protocol_order (env : Environment) (currentTime : number)
    (v : Video.t) (p : ProcessingState) (playing : bool) :
  let tr := trace (exportRun env true currentTime (quiescent v p playing)) in
  before isRecorderStarted isSeekToZero tr = true /\
  before isSeekToZero isMutedOn tr = true /\
  before isMutedOn isSeeked tr = true /\
  before isSeeked isPlayCalled tr = true /\
  before isRecorderStarted isPlayCalled tr = true /\
  before isPlayCalled isRecorderStopped tr = true.
Proof.
  destruct env as [[] [| b data]]; cbv zeta; repeat split.
Qed.

(** C3, as stated, fails: the seek is not acknowledged before capture is
    started; the recorder is already running when the seek is issued. *)
Lemma exportRun_capture_precedes_seek :
  let tr :=
    trace (exportRun {| playResolves := true; captured := ["d"%char] |} true
             (lit 3)
             (quiescent (Video.mk (lit 3) false (lit 1) (lit 10) false)
                {| status := idle; message := None |} false)) in
  before isSeeked isRecorderStarted tr = false /\
  before isSeekToZero isRecorderStarted tr = false /\
  firstIndex isRecorderStarted tr = Some 0%nat /\
  firstIndex isSeekToZero tr = Some 1%nat /\
  firstIndex isSeeked tr = Some 3%nat.
Proof. cbv zeta. repeat split. Qed.

(** * Further properties *)

(** ** The time codec on every input *)

Lemma Qle_bool_comp (x y x' y' : Q) :
  (x == x')%Q -> (y == y')%Q -> Qle_bool x y = Qle_bool x' y'.
Proof.
  intros Hx Hy. destruct (Qle_bool x y) eqn:E, (Qle_bool x' y') eqn:E';
    try reflexivity.
  - apply Qle_bool_iff in E. rewrite Hx, Hy in E. apply Qle_bool_iff in E.
    congruence.
  - apply Qle_bool_iff in E'. rewrite <- Hx, <- Hy in E'.
    apply Qle_bool_iff in E'. congruence.
Qed.

Lemma Qltb_comp (x y x' y' : Q) :
  (x == x')%Q -> (y == y')%Q -> Qltb x y = Qltb x' y'.
Proof.
  intros Hx Hy. unfold Qltb. rewrite (Qle_bool_comp y x y' x' Hy Hx).
  reflexivity.
Qed.

Lemma Qtrunc_comp (x y : Q) : (x == y)%Q -> Qtrunc x = Qtrunc y.
Proof.
  intros H. unfold Qtrunc.
  rewrite (Qle_bool_comp 0 x 0 y (Qeq_refl 0) H).
  rewrite (Qfloor_comp x y H), (Qceiling_comp x y H). reflexivity.
Qed.

Lemma Qrem_comp (a a' b : Q) : (a == a')%Q -> (Qrem a b == Qrem a' b)%Q.
Proof.
  intros H. unfold Qrem.
  assert (E : Qtrunc (a / b) = Qtrunc (a' / b))
    by (apply Qtrunc_comp; rewrite H; reflexivity).
  rewrite E, H. reflexivity.
Qed.

Lemma toFixed3_comp (x y : Q) : (x == y)%Q -> toFixed3 x = toFixed3 y.
Proof.
  intros H. unfold toFixed3, toFixed3Abs.
  rewrite (Qltb_comp x 0 y 0 H (Qeq_refl 0)).
  assert (E1 : Qfloor (x * 1000 + (1 # 2)) = Qfloor (y * 1000 + (1 # 2)))
    by (apply Qfloor_comp; rewrite H; reflexivity).
  assert (E2 : Qfloor (- x * 1000 + (1 # 2)) = Qfloor (- y * 1000 + (1 # 2)))
    by (apply Qfloor_comp; rewrite H; reflexivity).
  rewrite E1, E2. reflexivity.
Qed.

(** [formatTime] does not depend on how a rational is written. *)
Lemma formatTime_comp (p q : Q) :
  (p == q)%Q -> formatTime (Num p) = formatTime (Num q).
Proof.
  intros H. unfold formatTime, isFinite, ltb, lit.
  rewrite (Qltb_comp p (inject_Z 0) q (inject_Z 0) H (Qeq_refl _)).
  assert (Eh : Qfloor (p / 3600) = Qfloor (q / 3600))
    by (apply Qfloor_comp; rewrite H; reflexivity).
  assert (Em : Qfloor (Qrem p 3600 / 60) = Qfloor (Qrem q 3600 / 60))
    by (apply Qfloor_comp; rewrite (Qrem_comp p q 3600 H); reflexivity).
  rewrite Eh, Em, (toFixed3_comp _ _ (Qrem_comp p q 60 H)). reflexivity.
Qed.

Lemma formatTime_negative (q : Q) :
  (q < 0)%Q -> formatTime (Num q) = "00:00:00.000".
Proof.
  intros H. unfold formatTime, isFinite, ltb, lit.
  change (inject_Z 0) with 0%Q. rewrite (Qltb_true q 0 H). reflexivity.
Qed.

(** X1. Whatever number [formatTime] is given, [parseTime] reads the
    printed time code as a finite, non-negative number; unless the number
    is finite and not negative, it reads zero: [NaN], the infinities and
    the negative numbers all print as the zero time code. *)
Theorem formatTime_always_parses (n : number) :
  exists r,
    parseTime (TString (formatTime n)) = Num r /\ (0 <= r)%Q /\
    ((isFinite n && negb (n <? lit 0)%js = true) \/ (r == 0)%Q).
Proof.
  assert (Hzero : exists r, parseTime (TString "00:00:00.000") = Num r /\
                            (r == 0)%Q)
    by (exists (0 # 1000)%Q; split; vm_compute; reflexivity).
  destruct Hzero as (z & Hz & Ez).
  destruct n as [| | q |];
    try (exists z; change (formatTime _) with "00:00:00.000";
         split; [exact Hz | split; [lra | right; exact Ez]]).
  destruct (Qlt_le_dec q 0) as [Hneg | Hpos].
  - exists z. rewrite (formatTime_negative q Hneg).
    split; [exact Hz | split; [lra | right; exact Ez]].
  - destruct (parseTime_formatTime q Hpos) as (r & Hr & Er).
    exists r. split; [exact Hr | idtac].
    pose proof (roundMs_nonneg q Hpos) as Hn. rewrite Zle_Qle in Hn.
    change (inject_Z 0) with 0%Q in Hn.
    split; [rewrite Er; lra | left].
    unfold isFinite, ltb, lit. change (inject_Z 0) with 0%Q.
    rewrite (Qltb_false q 0 Hpos). reflexivity.
Qed.

(** X2. [formatTime] is injective on non-negative times at millisecond
    precision: two such times with the same time code are equal. *)
Theorem formatTime_injective_at_millisecond (p q : Q) (kp kq : Z) :
  (0 <= p)%Q -> (0 <= q)%Q -> (p == kp # 1000)%Q -> (q == kq # 1000)%Q ->
  formatTime (Num p) = formatTime (Num q) -> (p == q)%Q.
Proof.
  intros Hp Hq Ep Eq Hfmt.
  destruct (parseTime_formatTime p Hp) as (rp & Hrp & Erp).
  destruct (parseTime_formatTime q Hq) as (rq & Hrq & Erq).
  rewrite Hfmt, Hrq in Hrp. injection Hrp as Hr.
  rewrite (roundMs_exact p kp Ep) in Erp. rewrite (roundMs_exact q kq Eq) in Erq.
  rewrite Ep, Eq, (Qmake_thousandths kp), (Qmake_thousandths kq).
  rewrite <- Erp, <- Erq, Hr. reflexivity.
Qed.

Lemma formatTime_injective_at_millisecond_witness : (15 # 10 == 3 # 2)%Q.
Proof.
  apply (formatTime_injective_at_millisecond (15 # 10) (3 # 2) 1500 1500).
  - discriminate.
  - discriminate.
  - vm_compute. reflexivity.
  - vm_compute. reflexivity.
  - vm_compute. reflexivity.
Defined.

(** X3. Printing preserves the order of times: of two non-negative times
    the later one never reads back earlier. *)
Theorem formatTime_preserves_order (a b : Q) :
  (0 <= a)%Q -> (a <= b)%Q ->
  exists ra rb,
    parseTime (TString (formatTime (Num a))) = Num ra /\
    parseTime (TString (formatTime (Num b))) = Num rb /\
    (ra <= rb)%Q.
Proof.
  intros Ha Hab.
  assert (Hb : (0 <= b)%Q) by lra.
  destruct (parseTime_formatTime a Ha) as (ra & Hra & Era).
  destruct (parseTime_formatTime b Hb) as (rb & Hrb & Erb).
  exists ra, rb. repeat split; try assumption.
  pose proof (roundMs_mono a b Hab) as Hm. rewrite Zle_Qle in Hm.
  rewrite Era, Erb. lra.
Qed.

Lemma formatTime_preserves_order_witness :
  exists ra rb,
    parseTime (TString (formatTime (Num (12346 # 10000)))) = Num ra /\
    parseTime (TString (formatTime (Num (12349 # 10000)))) = Num rb /\
    (ra <= rb)%Q.
Proof.
  apply (formatTime_preserves_order (12346 # 10000) (12349 # 10000)).
  - discriminate.
  - discriminate.
Defined.

Lemma parseTime_formatTime_near_witness :
  exists r,
    parseTime (TString (formatTime (Num (1 # 3)))) = Num r /\
    (Qabs (r - (1 # 3)) <= 1 # 2000)%Q.
Proof. apply (parseTime_formatTime_near (1 # 3)). discriminate. Defined.

(** X5. A time in the last half millisecond before a full minute prints
    with the seconds field [60.000]; read back and printed again, the time
    code changes to the canonical one of the full minute. *)
Theorem formatTime_seconds_field_sixty (q : Q) :
  (599995 # 10000 <= q)%Q -> (q < 60)%Q ->
  formatTime (Num q) = "00:00:60.000" /\
  formatTime (parseTime (TString (formatTime (Num q)))) = "00:01:00.000".
Proof.
  intros Hlo Hhi.
  assert (Hq : (0 <= q)%Q) by lra.
  assert (Eh : Qfloor (q / 3600) = 0%Z).
  { apply Qfloor_unique'; change (q / 3600)%Q with (q * (1 # 3600))%Q;
      change (inject_Z 0) with 0%Q; lra. }
  assert (Ef : Qfloor (q / 60) = 0%Z).
  { apply Qfloor_unique'; change (q / 60)%Q with (q * (1 # 60))%Q;
      change (inject_Z 0) with 0%Q; lra. }
  assert (Er1 : (Qrem q 3600 == q)%Q).
  { rewrite (Qrem_floor q 3600 Hq eq_refl), Eh. change (inject_Z 0) with 0%Q. lra. }
  assert (Er2 : (Qrem q 60 == q)%Q).
  { rewrite (Qrem_floor q 60 Hq eq_refl), Ef. change (inject_Z 0) with 0%Q. lra. }
  assert (Em : Qfloor (Qrem q 3600 / 60) = 0%Z).
  { rewrite (Qfloor_comp _ (q / 60)) by (rewrite Er1; reflexivity). exact Ef. }
  assert (En : Qfloor (q * 1000 + (1 # 2)) = 60000%Z).
  { apply Qfloor_unique'; change (inject_Z 60000) with 60000%Q; lra. }
  assert (E1 : formatTime (Num q) = "00:00:60.000").
  { unfold formatTime, isFinite, ltb, lit. change (inject_Z 0) with 0%Q.
    rewrite (Qltb_false q 0 Hq). cbn [negb orb].
    rewrite Eh, Em, (toFixed3_comp _ _ Er2).
    unfold toFixed3, toFixed3Abs. rewrite (Qltb_false q 0 Hq), En.
    vm_compute. reflexivity. }
  split; [exact E1 | idtac].
  rewrite E1. vm_compute. reflexivity.
Qed.

Lemma formatTime_seconds_field_sixty_witness :
  formatTime (Num (599996 # 10000)) = "00:00:60.000" /\
  formatTime (parseTime (TString (formatTime (Num (599996 # 10000)))))
  = "00:01:00.000".
Proof.
  apply (formatTime_seconds_field_sixty (599996 # 10000)).
  - discriminate.
  - reflexivity.
Defined.

(** X6. At millisecond precision a printed time code is canonical: read
    back by [parseTime] and printed again by [formatTime], it is the same
    string. *)
Theorem formatTime_parseTime_fixed_point (q : Q) (k : Z) :
  (0 <= q)%Q -> (q == k # 1000)%Q ->
  formatTime (parseTime (TString (formatTime (Num q)))) = formatTime (Num q).
Proof.
  intros Hq Hk.
  destruct (parseTime_formatTime q Hq) as (r & Hr & Er).
  rewrite Hr. apply formatTime_comp.
  rewrite Er, (roundMs_exact q k Hk), Hk. symmetry. apply Qmake_thousandths.
Qed.

Lemma formatTime_parseTime_fixed_point_witness :
  formatTime (parseTime (TString (formatTime (Num (7447 # 2)))))
  = formatTime (Num (7447 # 2)).
Proof.
  apply (formatTime_parseTime_fixed_point (7447 # 2) 3723500).
  - discriminate.
  - reflexivity.
Defined.

(** ** [parseTime] on arbitrary strings *)

Lemma trimStart_Forall (P : ascii -> Prop) (s : list ascii) :
  Forall P s -> Forall P (trimStart s).
Proof.
  induction 1 as [| c s Hc Hs IH]; [constructor | idtac].
  simpl. destruct (isWhite c); [exact IH | constructor; assumption].
Qed.

Lemma trim_Forall (P : ascii -> Prop) (s : list ascii) :
  Forall P s -> Forall P (trim s).
Proof.
  intros H. unfold trim, trimEnd.
  apply Forall_rev, trimStart_Forall, Forall_rev, trimStart_Forall, H.
Qed.

Lemma replaceFirst_Forall (P : ascii -> Prop) (a b : ascii) (s : list ascii) :
  P b -> Forall P s -> Forall P (replaceFirst a b s).
Proof.
  intros Hb. induction 1 as [| c s Hc Hs IH]; [constructor | idtac].
  simpl. destruct (Ascii.eqb c a); constructor; assumption.
Qed.

Lemma split_Forall (P : ascii -> Prop) (sep : ascii) (s : list ascii) :
  Forall P s -> Forall (Forall P) (split sep s).
Proof.
  induction 1 as [| c s Hc Hs IH]; [repeat constructor | idtac].
  simpl. destruct (Ascii.eqb c sep); [constructor; [constructor | exact IH] | idtac].
  destruct (split sep s) as [| p ps]; [repeat constructor; assumption | idtac].
  inversion IH; subst. constructor; [constructor; assumption | assumption].
Qed.

Lemma scanSign_Forall (P : ascii -> Prop) (s : list ascii) :
  Forall P s -> Forall P (snd (scanSign s)).
Proof.
  intros H. destruct H as [| c s Hc Hs]; [constructor | idtac].
  unfold scanSign. destruct (Ascii.eqb c "-"); [exact Hs | idtac].
  destruct (Ascii.eqb c "+"); [exact Hs | constructor; assumption].
Qed.

Lemma trimStart_length (s : list ascii) : (length (trimStart s) <= length s)%nat.
Proof.
  induction s as [| c s IH]; [reflexivity | idtac].
  simpl. destruct (isWhite c); simpl; lia.
Qed.

Lemma trim_length (s : list ascii) : (length (trim s) <= length s)%nat.
Proof.
  unfold trim, trimEnd. rewrite length_rev.
  pose proof (trimStart_length (rev (trimStart s))) as H1.
  rewrite length_rev in H1. pose proof (trimStart_length s). lia.
Qed.

Lemma replaceFirst_length (a b : ascii) (s : list ascii) :
  length (replaceFirst a b s) = length s.
Proof.
  induction s as [| c s IH]; [reflexivity | idtac].
  simpl. destruct (Ascii.eqb c a); simpl; [reflexivity | rewrite IH; reflexivity].
Qed.

Lemma split_length (sep : ascii) (s : list ascii) :
  Forall (fun p => (length p <= length s)%nat) (split sep s).
Proof.
  induction s as [| c s IH]; [repeat constructor | idtac].
  simpl. destruct (Ascii.eqb c sep).
  - constructor; [simpl; lia | idtac].
    eapply Forall_impl; [exact IH | idtac]. simpl. intros p Hp. lia.
  - destruct (split sep s) as [| p ps];
      [constructor; [simpl; lia | constructor] | idtac].
    apply Forall_cons in IH. destruct IH as [Hp Hps].
    constructor; [simpl; lia | idtac].
    eapply Forall_impl; [exact Hps | idtac]. simpl. intros q Hq. lia.
Qed.

Lemma scanSign_length (s : list ascii) :
  (length (snd (scanSign s)) <= length s)%nat.
Proof.
  destruct s as [| c s]; [reflexivity | idtac].
  unfold scanSign. destruct (Ascii.eqb c "-"); [simpl; lia | idtac].
  destruct (Ascii.eqb c "+"); simpl; lia.
Qed.

(** What [scanDigits] reads: [k] digits, whose value on top of [acc] is
    below [(acc + 1) * 10 ^ k], and a rest that is a suffix of the input. *)
Lemma scanDigits_bound (P : ascii -> Prop) (s : list ascii) :
  forall (acc : Z) (count : nat) (v : Z) (n : nat) (rest : list ascii),
    (0 <= acc)%Z -> Forall P s ->
    scanDigits s acc count = (v, n, rest) ->
    exists k : nat,
      n = (count + k)%nat /\ (k + length rest = length s)%nat /\
      (0 <= v)%Z /\ (v < (acc + 1) * 10 ^ Z.of_nat k)%Z /\ Forall P rest.
Proof.
  induction s as [| c s IH]; intros acc count v n rest Hacc HP E.
  - simpl in E. injection E as <- <- <-. exists 0%nat.
    repeat split; try lia. constructor.
  - apply Forall_cons in HP. destruct HP as [Hc HP].
    simpl in E. destruct (digitValue c) as [d |] eqn:Ed.
    + assert (Hd : (0 <= d < 10)%Z).
      { assert (Hdig : isDigit c = true) by (unfold isDigit; rewrite Ed; reflexivity).
        destruct (digit_char_value c Hdig) as (d' & Ed' & Hd').
        rewrite Ed in Ed'. injection Ed' as <-. exact Hd'. }
      assert (Hacc' : (0 <= acc * 10 + d)%Z) by lia.
      destruct (IH _ _ _ _ _ Hacc' HP E) as (k & Hn & Hlen & Hv0 & Hv & Hrest).
      exists (S k). repeat split; try assumption; try (simpl; lia).
      rewrite Nat2Z.inj_succ, Z.pow_succ_r by lia.
      assert (Hp : (0 <= 10 ^ Z.of_nat k)%Z) by (apply Z.pow_nonneg; lia).
      apply Z.lt_le_trans with ((acc * 10 + d + 1) * 10 ^ Z.of_nat k)%Z;
        [exact Hv | idtac].
      rewrite Z.mul_assoc. apply Z.mul_le_mono_nonneg_r; lia.
    + injection E as <- <- <-. exists 0%nat.
      repeat split; try (simpl; lia). constructor; assumption.
Qed.

Lemma scanExponent_plain (s : list ascii) :
  Forall (fun c => plainChar c = true) s -> scanExponent s = 0%Z.
Proof.
  intros H. destruct H as [| c s Hc _]; [reflexivity | idtac].
  unfold scanExponent. unfold plainChar in Hc.
  apply negb_true_iff in Hc. apply orb_false_iff in Hc. destruct Hc as [Hc HE].
  apply orb_false_iff in Hc. destruct Hc as [_ He].
  rewrite He, HE. reflexivity.
Qed.

Lemma plainChar_not_I (s : list ascii) :
  Forall (fun c => plainChar c = true) s ->
  Forall (fun c => Ascii.eqb "I" c = false) s.
Proof.
  intros H. eapply Forall_impl; [exact H | idtac].
  intros c Hc. unfold plainChar in Hc.
  apply negb_true_iff in Hc. apply orb_false_iff in Hc. destruct Hc as [Hc _].
  apply orb_false_iff in Hc. destruct Hc as [Hc _].
  rewrite Ascii.eqb_sym. exact Hc.
Qed.

(** The value of a mantissa: an integral part below [10 ^ k] and a
    fraction below 1. *)
Lemma mantissa_bound (ip fp : Z) (k nf : nat) :
  (0 <= ip < 10 ^ Z.of_nat k)%Z -> (0 <= fp < 10 ^ Z.of_nat nf)%Z ->
  let mant := (inject_Z ip + inject_Z fp / inject_Z (10 ^ Z.of_nat nf))%Q in
  (0 <= mant)%Q /\ (mant <= inject_Z (10 ^ Z.of_nat k))%Q.
Proof.
  intros Hip Hfp mant.
  assert (Hpos : (0 < inject_Z (10 ^ Z.of_nat nf))%Q).
  { change 0%Q with (inject_Z 0). rewrite <- Zlt_Qlt. lia. }
  assert (Hf0 : (0 <= inject_Z fp / inject_Z (10 ^ Z.of_nat nf))%Q).
  { apply Qle_shift_div_l; [exact Hpos | idtac].
    rewrite Qmult_0_l. change 0%Q with (inject_Z 0). rewrite <- Zle_Qle. lia. }
  assert (Hf1 : (inject_Z fp / inject_Z (10 ^ Z.of_nat nf) <= 1)%Q).
  { apply Qle_shift_div_r; [exact Hpos | idtac].
    rewrite Qmult_1_l. rewrite <- Zle_Qle. lia. }
  assert (Hi0 : (0 <= inject_Z ip)%Q).
  { change 0%Q with (inject_Z 0). rewrite <- Zle_Qle. lia. }
  assert (Hi1 : (inject_Z ip + 1 <= inject_Z (10 ^ Z.of_nat k))%Q).
  { change 1%Q with (inject_Z 1). rewrite <- inject_Z_plus, <- Zle_Qle. lia. }
  unfold mant. split; lra.
Qed.

(** Without the letters I, e and E, [parseFloat] gives [NaN] or a finite
    number below ten to the length of the string. *)
Lemma parseFloat_bounded (s : list ascii) (n : nat) :
  Forall (fun c => plainChar c = true) s -> (length s <= n)%nat ->
  parseFloat s = NaN \/
  exists q, parseFloat s = Num q /\ (Qabs q <= inject_Z (10 ^ Z.of_nat n))%Q.
Proof.
  intros H Hlen. unfold parseFloat.
  pose proof (scanSign_Forall _ _ (trimStart_Forall _ _ H)) as Hs1.
  pose proof (scanSign_length (trimStart s)) as Hl1.
  pose proof (trimStart_length s) as Hl0.
  destruct (scanSign (trimStart s)) as [negative s1]. simpl snd in Hs1, Hl1.
  assert (Hinf : startsWith (list_ascii_of_string "Infinity") s1 = false).
  { pose proof (plainChar_not_I _ Hs1) as HI.
    destruct HI as [| c s1' Hc _]; [reflexivity | idtac].
    change (startsWith (list_ascii_of_string "Infinity") (c :: s1'))
      with (Ascii.eqb "I" c && startsWith (list_ascii_of_string "nfinity") s1').
    rewrite Hc. reflexivity. }
  rewrite Hinf.
  destruct (scanDigits s1 0 0) as [[ip ni] s2] eqn:Ei.
  destruct (scanDigits_bound _ s1 0 0 ip ni s2 (Z.le_refl 0) Hs1 Ei)
    as (k & Hni & Hk & Hip0 & Hip & Hs2).
  assert (Hfrac : exists fp nf s3,
            match s2 with
            | c :: r => if Ascii.eqb c "." then scanDigits r 0 0 else (0%Z, O, s2)
            | [] => (0%Z, O, s2)
            end = (fp, nf, s3) /\
            (0 <= fp < 10 ^ Z.of_nat nf)%Z /\
            Forall (fun c => plainChar c = true) s3).
  { destruct s2 as [| c r]; [exists 0%Z, O, []; repeat split; auto; lia | idtac].
    destruct (Ascii.eqb c ".").
    - apply Forall_cons in Hs2. destruct Hs2 as [_ Hr].
      destruct (scanDigits r 0 0) as [[fp nf] s3] eqn:Ef.
      destruct (scanDigits_bound _ r 0 0 fp nf s3 (Z.le_refl 0) Hr Ef)
        as (kf & Hnf & _ & Hfp0 & Hfp & Hs3).
      exists fp, nf, s3. simpl in Hnf. subst nf.
      repeat split; auto; lia.
    - exists 0%Z, O, (c :: r). repeat split; auto; lia. }
  destruct Hfrac as (fp & nf & s3 & -> & Hfp & Hs3).
  destruct (Nat.eqb (ni + nf) 0); [left; reflexivity | right].
  rewrite (scanExponent_plain s3 Hs3).
  assert (Hipk : (0 <= ip < 10 ^ Z.of_nat k)%Z) by lia.
  destruct (mantissa_bound ip fp k nf Hipk Hfp) as [Hm0 Hm1].
  set (mant := (inject_Z ip + inject_Z fp / inject_Z (10 ^ Z.of_nat nf))%Q) in *.
  assert (Hkn : (inject_Z (10 ^ Z.of_nat k) <= inject_Z (10 ^ Z.of_nat n))%Q).
  { rewrite <- Zle_Qle. apply Z.pow_le_mono_r; lia. }
  change (Qpower 10 0) with 1%Q.
  eexists. split; [reflexivity | idtac].
  apply Qabs_Qle_condition. destruct negative; split; lra.
Qed.

Lemma parts_value_bounded (B : Q) (parts : list number) :
  (0 <= B)%Q ->
  Forall (fun n => n = NaN \/ exists q, n = Num q /\ (Qabs q <= B)%Q) parts ->
  exists r,
    (if existsb isNaN parts then lit 0
     else match parts with
          | [p0; p1; p2] => (p0 * lit 3600 + p1 * lit 60 + p2)%js
          | [p0; p1] => (p0 * lit 60 + p1)%js
          | [p0] => p0
          | _ => lit 0
          end) = Num r /\ (Qabs r <= 3661 * B)%Q.
Proof.
  intros HB H.
  assert (Hzero : exists r, lit 0 = Num r /\ (Qabs r <= 3661 * B)%Q).
  { exists (inject_Z 0). split; [reflexivity | idtac].
    apply Qabs_Qle_condition. change (inject_Z 0) with 0%Q. split; lra. }
  destruct parts as [| a [| b [| c [| d rest]]]];
    [exact Hzero | idtac | idtac | idtac
    | destruct (existsb isNaN (a :: b :: c :: d :: rest)); exact Hzero];
    repeat match goal with
      | Hf : Forall _ (_ :: _) |- _ =>
          apply Forall_cons in Hf;
          let Hx := fresh "Hx" in
          let Hq := fresh "Hq" in
          destruct Hf as [Hx Hf]; destruct Hx as [-> | (? & -> & Hq)];
          [idtac | apply Qabs_Qle_condition in Hq]
      end;
    try exact Hzero;
    (eexists; split; [reflexivity | idtac]);
    apply Qabs_Qle_condition;
    change (inject_Z 3600) with 3600%Q; change (inject_Z 60) with 60%Q;
    split; lra.
Qed.

(** X7. [parseTime] never fails on a string of plain decimal numerals: for
    a string of at most 300 characters without the letters I (of an
    [Infinity] literal), e and E (of an exponent), the result is a finite
    number, never [NaN], malformed input included, and its magnitude is at
    most 3661 times ten to the length of the string. That is below
    [2 ^ 1023]: no numeral of such a string reaches the range where
    binary64 turns it into an infinity. *)
Theorem parseTime_finite_on_plain_strings (str : string) :
  Forall (fun c => plainChar c = true) (list_ascii_of_string str) ->
  (length (list_ascii_of_string str) <= 300)%nat ->
  exists r,
    parseTime (TString str) = Num r /\
    (Qabs r
     <= inject_Z (3661 * 10 ^ Z.of_nat (length (list_ascii_of_string str))))%Q /\
    (Qabs r < inject_Z (2 ^ 1023))%Q.
Proof.
  intros H Hlen.
  set (n := length (list_ascii_of_string str)) in *.
  set (B := inject_Z (10 ^ Z.of_nat n)).
  assert (HB : (0 <= B)%Q).
  { unfold B. change 0%Q with (inject_Z 0). rewrite <- Zle_Qle.
    apply Z.pow_nonneg. lia. }
  assert (Hr : exists r, parseTime (TString str) = Num r /\ (Qabs r <= 3661 * B)%Q).
  { unfold parseTime.
    assert (Hn : Forall (fun c => plainChar c = true)
                   (trim (replaceFirst "," "." (list_ascii_of_string str))))
      by (apply trim_Forall, replaceFirst_Forall; [reflexivity | exact H]).
    assert (Hl : (length (trim (replaceFirst "," "." (list_ascii_of_string str)))
                  <= n)%nat).
    { pose proof (trim_length (replaceFirst "," "." (list_ascii_of_string str))) as Ht.
      rewrite replaceFirst_length in Ht. exact Ht. }
    set (normalized := trim (replaceFirst "," "." (list_ascii_of_string str))) in *.
    assert (Hzero : exists r, lit 0 = Num r /\ (Qabs r <= 3661 * B)%Q).
    { exists (inject_Z 0). split; [reflexivity | idtac].
      apply Qabs_Qle_condition. change (inject_Z 0) with 0%Q. split; lra. }
    destruct normalized as [| c0 rest] eqn:En; [exact Hzero | idtac].
    rewrite <- En in *. clear En.
    destruct (includes ":" normalized); cbn [negb].
    - apply (parts_value_bounded B); [exact HB | idtac].
      pose proof (split_Forall _ ":"%char _ Hn) as Hparts.
      pose proof (split_length ":"%char normalized) as Hlens.
      induction Hparts as [| p ps Hp _ IH]; [constructor | idtac].
      apply Forall_cons in Hlens. destruct Hlens as [Hpl Hlens].
      simpl map. constructor; [idtac | exact (IH Hlens)].
      apply parseFloat_bounded; [exact Hp | lia].
    - destruct (parseFloat_bounded normalized n Hn Hl) as [-> | (q & -> & Hq)];
        [exact Hzero | idtac].
      exists q. split; [reflexivity | idtac].
      apply Qabs_Qle_condition in Hq. apply Qabs_Qle_condition. fold B in Hq.
      split; lra. }
  destruct Hr as (r & Hr & Hb). exists r. split; [exact Hr | idtac].
  assert (Hb' : (Qabs r <= inject_Z (3661 * 10 ^ Z.of_nat n))%Q).
  { rewrite inject_Z_mult. exact Hb. }
  split; [exact Hb' | idtac].
  eapply Qle_lt_trans; [exact Hb' | idtac].
  rewrite <- Zlt_Qlt.
  apply Z.le_lt_trans with (3661 * 10 ^ 300)%Z; [idtac | reflexivity].
  apply Z.mul_le_mono_nonneg_l; [lia | idtac].
  apply Z.pow_le_mono_r; lia.
Qed.

Lemma parseTime_finite_on_plain_strings_witness :
  exists r,
    parseTime (TString "1:xx:3") = Num r /\
    (Qabs r
     <= inject_Z (3661 * 10 ^ Z.of_nat (length (list_ascii_of_string "1:xx:3"))))%Q /\
    (Qabs r < inject_Z (2 ^ 1023))%Q.
Proof.
  apply (parseTime_finite_on_plain_strings "1:xx:3").
  - repeat constructor.
  - simpl. lia.
Defined.

(** ** Style edits *)

Lemma getEffectiveStyle_lookup (globalStyle : StyleConfig) (c : Caption.t)
    (key : string) :
  getEffectiveStyle globalStyle (Some c) !! key
  = match Caption.style c with
    | Some override =>
        match override !! key with
        | Some v => Some v
        | None => globalStyle !! key
        end
    | None => globalStyle !! key
    end.
Proof.
  unfold getEffectiveStyle. destruct (Caption.style c); [idtac | reflexivity].
  apply spread_lookup.
Qed.






(** X10. Editing a property in the toolbar's global mode leaves the
    caption list alone and never wins over a caption's own override: a
    caption that overrides the property keeps its value, every other
    caption takes the new one, and all other properties of every caption
    are as before. *)
Theorem handleChange_global_respects_overrides
    (globalConfig : StyleConfig) (captions : list Caption.t)
    (activeCaption : option Caption.t) (c : Caption.t)
    (key k : string) (value : styleValue) :
  let call := handleChange GlobalMode globalConfig activeCaption key value in
  let newConfig := fst (applyToolbarCall call (globalConfig, captions)) in
  snd (applyToolbarCall call (globalConfig, captions)) = captions /\
  getEffectiveStyle newConfig (Some c) !! k
  = if decide (k = key) then
      match Caption.style c with
      | Some override =>
          match override !! key with
          | Some own => Some own
          | None => Some value
          end
      | None => Some value
      end
    else getEffectiveStyle globalConfig (Some c) !! k.
Proof.
  cbv zeta. unfold handleChange, applyToolbarCall. cbn [fst snd].
  split; [reflexivity | idtac].
  rewrite !getEffectiveStyle_lookup.
  destruct (decide (k = key)) as [-> | Hk].
  - rewrite lookup_insert_eq. reflexivity.
  - rewrite lookup_insert_ne by congruence. reflexivity.
Qed.

(** ** Dragging the caption on the canvas *)

Lemma div_finite (a b : Q) :
  ~ (b == 0)%Q -> (Num a / Num b)%js = Num (a / b).
Proof.
  intros Hb. unfold div. destruct (b ?= 0)%Q eqn:E; try reflexivity.
  apply Qeq_alt in E. contradiction.
Qed.

Lemma mul_finite (a b : Q) : (Num a * Num b)%js = Num (a * b).
Proof. reflexivity. Qed.

(** A percentage clamped by [Math.max(0, Math.min(100, _))]. *)
Lemma clamp_percent (v : Q) :
  exists p,
    JSNumber.max (lit 0) (JSNumber.min (lit 100) (Num v)) = Num p /\
    (0 <= p)%Q /\ (p <= 100)%Q.
Proof.
  unfold lit.
  destruct (min_finite (inject_Z 100) v) as (m & Hm & Hm1 & _ & _).
  rewrite Hm.
  destruct (max_finite (inject_Z 0) m) as (p & Hp & Hp0 & _ & Hpc).
  rewrite Hp. exists p.
  change (inject_Z 0) with 0%Q in *. change (inject_Z 100) with 100%Q in *.
  repeat split; auto. destruct Hpc as [-> | ->]; lra.
Qed.

(** X11. While the caption text is dragged on the canvas, every mouse
    move writes [positionX] and [positionY] overrides between 0 and 100
    into the dragged caption, wherever the pointer is, and keeps every
    other override of that caption. *)
Theorem handleCanvasMouseMove_clamps_position
    (captions : list Caption.t) (dragged : Caption.t) (activeId k : string)
    (rectLeft rectTop rectWidth rectHeight clientX clientY : Q) :
  activeId <> EmptyString ->
  List.find (fun c => String.eqb (Caption.id c) activeId) captions = Some dragged ->
  ~ (rectWidth == 0)%Q -> ~ (rectHeight == 0)%Q ->
  exists newStyle px py,
    handleCanvasMouseMove true captions
      {| left := Num rectLeft; top := Num rectTop;
         width := Num rectWidth; height := Num rectHeight |}
      (Num clientX) (Num clientY)
      {| isDraggingText := true; activeCaptionId := Some activeId |}
    = CanvasCaptionChange (Caption.id dragged)
        (Updates.mk None None None None (Some (Some newStyle))) /\
    (0 <= px)%Q /\ (px <= 100)%Q /\ (0 <= py)%Q /\ (py <= 100)%Q /\
    newStyle !! k
    = if decide (k = "positionY") then Some (VNumber (Num py))
      else if decide (k = "positionX") then Some (VNumber (Num px))
      else default ∅ (Caption.style dragged) !! k.
Proof.
  intros Hid Hfind Hw Hh.
  destruct (clamp_percent ((clientX - rectLeft) / rectWidth * inject_Z 100))
    as (px & Hpx & Hpx0 & Hpx1).
  destruct (clamp_percent ((clientY - rectTop) / rectHeight * inject_Z 100))
    as (py & Hpy & Hpy0 & Hpy1).
  exists (<["positionY" := VNumber (Num py)]>
            (spreadWith (Caption.style dragged) "positionX" (VNumber (Num px)))),
    px, py.
  split; [idtac | repeat (split; [assumption | idtac])].
  - unfold handleCanvasMouseMove.
    cbn [isDraggingText activeCaptionId negb orb left top width height].
    apply String.eqb_neq in Hid. rewrite Hid, Hfind.
    rewrite !sub_finite, (div_finite _ _ Hw), (div_finite _ _ Hh).
    rewrite <- Hpx, <- Hpy. reflexivity.
  - unfold spreadWith.
    destruct (decide (k = "positionY")) as [-> | Hky];
      [apply lookup_insert_eq | idtac].
    rewrite lookup_insert_ne by congruence.
    destruct (decide (k = "positionX")) as [-> | Hkx];
      [apply lookup_insert_eq | idtac].
    rewrite lookup_insert_ne by congruence. reflexivity.
Qed.

Lemma handleCanvasMouseMove_clamps_position_witness :
  exists newStyle px py,
    handleCanvasMouseMove true
      [Caption.mk "a" "00:00:00.000" "00:00:02.000" "one"
         (Some {["textColor" := VString "#f00"]})]
      {| left := Num 10; top := Num 20; width := Num 640; height := Num 360 |}
      (Num 5000) (Num (-30))
      {| isDraggingText := true; activeCaptionId := Some "a" |}
    = CanvasCaptionChange "a"
        (Updates.mk None None None None (Some (Some newStyle))) /\
    (0 <= px)%Q /\ (px <= 100)%Q /\ (0 <= py)%Q /\ (py <= 100)%Q /\
    newStyle !! "textColor"
    = if decide ("textColor" = "positionY") then Some (VNumber (Num py))
      else if decide ("textColor" = "positionX") then Some (VNumber (Num px))
      else default (∅ : StyleConfig) (Some {["textColor" := VString "#f00"]})
             !! "textColor".
Proof.
  apply (handleCanvasMouseMove_clamps_position
           [Caption.mk "a" "00:00:00.000" "00:00:02.000" "one"
              (Some {["textColor" := VString "#f00"]})]
           (Caption.mk "a" "00:00:00.000" "00:00:02.000" "one"
              (Some {["textColor" := VString "#f00"]}))
           "a" "textColor" 10 20 640 360 5000 (-30)).
  - discriminate.
  - reflexivity.
  - discriminate.
  - discriminate.
Defined.

(** ** Word wrap and drawing *)

Lemma split_nonempty (sep : ascii) (s : list ascii) : split sep s <> [].
Proof.
  destruct s as [| c r]; [discriminate | idtac].
  simpl. destruct (Ascii.eqb c sep); [discriminate | idtac].
  destruct (split sep r); discriminate.
Qed.

Lemma joinWith_cons (sep : ascii) (p : list ascii) (rest : list (list ascii)) :
  rest <> [] -> joinWith sep (p :: rest) = p ++ sep :: joinWith sep rest.
Proof. destruct rest; [contradiction | reflexivity]. Qed.

(** Joining what [split] produced gives the string back. *)
Lemma joinWith_split (sep : ascii) (s : list ascii) :
  joinWith sep (split sep s) = s.
Proof.
  induction s as [| c r IH]; [reflexivity | idtac].
  simpl split. destruct (Ascii.eqb_spec c sep) as [-> | Hne].
  - rewrite joinWith_cons by apply split_nonempty. rewrite IH. reflexivity.
  - pose proof (split_nonempty sep r) as Hn.
    destruct (split sep r) as [| p ps]; [contradiction | idtac].
    destruct ps as [| q ps].
    + simpl in *. rewrite IH. reflexivity.
    + rewrite joinWith_cons by discriminate.
      rewrite joinWith_cons in IH by discriminate.
      rewrite <- IH. reflexivity.
Qed.

Lemma wrapWords_nonempty (measureText : list ascii -> number)
    (maxLineWidth : number) (words : list (list ascii)) :
  forall currentLine, wrapWords measureText maxLineWidth currentLine words <> [].
Proof.
  induction words as [| w rest IH]; intros cur; simpl; [discriminate | idtac].
  destruct (measureText (cur ++ " "%char :: w) <? maxLineWidth)%js;
    [apply IH | discriminate].
Qed.

(** The wrapping loop only regroups the words: joined by spaces, its lines
    are the current line and the remaining words joined by spaces. *)
Lemma wrapWords_joinWith (measureText : list ascii -> number)
    (maxLineWidth : number) (words : list (list ascii)) :
  forall currentLine,
    joinWith " " (wrapWords measureText maxLineWidth currentLine words)
    = joinWith " " (currentLine :: words).
Proof.
  induction words as [| w rest IH]; intros cur; [reflexivity | idtac].
  simpl wrapWords.
  destruct (measureText (cur ++ " "%char :: w) <? maxLineWidth)%js.
  - rewrite IH. destruct rest as [| r rest]; [reflexivity | idtac].
    rewrite !joinWith_cons by discriminate.
    rewrite <- app_assoc. reflexivity.
  - rewrite joinWith_cons by apply wrapWords_nonempty.
    rewrite IH. rewrite (joinWith_cons _ cur) by discriminate. reflexivity.
Qed.

Lemma wordWrap_joinWith (measureText : list ascii -> number)
    (text : list ascii) (width : number) :
  joinWith " " (wordWrap measureText text width) = text.
Proof.
  unfold wordWrap. pose proof (joinWith_split " " text) as Hs.
  destruct (split " " text) as [| first rest]; [exact Hs | idtac].
  rewrite wrapWords_joinWith. exact Hs.
Qed.

(** X12. Word wrap loses nothing: whatever the text, the surface width
    and the text metrics, the wrapped lines joined by single spaces are
    the text, and there is at least one line. *)
Theorem wordWrap_rejoins_to_text (measureText : list ascii -> number)
    (text : list ascii) (width : number) :
  joinWith " " (wordWrap measureText text width) = text /\
  wordWrap measureText text width <> [].
Proof.
  split; [apply wordWrap_joinWith | idtac].
  unfold wordWrap. destruct (split " " text); [discriminate | idtac].
  apply wrapWords_nonempty.
Qed.

Lemma wrapWords_fit (measureText : list ascii -> number)
    (maxLineWidth : number) (allWords words : list (list ascii)) :
  forall currentLine,
    ((measureText currentLine <? maxLineWidth)%js = true
     \/ In currentLine allWords) ->
    Forall (fun w => In w allWords) words ->
    Forall (fun line => (measureText line <? maxLineWidth)%js = true
                        \/ In line allWords)
      (wrapWords measureText maxLineWidth currentLine words).
Proof.
  induction words as [| w rest IH]; intros cur Hcur Hwords.
  - simpl. constructor; [exact Hcur | constructor].
  - apply Forall_cons in Hwords. destruct Hwords as [Hw Hrest].
    simpl wrapWords.
    destruct (measureText (cur ++ " "%char :: w) <? maxLineWidth)%js eqn:Efit.
    + apply IH; [left; exact Efit | exact Hrest].
    + constructor; [exact Hcur | idtac].
      apply IH; [right; exact Hw | exact Hrest].
Qed.

(** X13. Every wrapped line measures less than 0.9 times the surface
    width, except a line that is a single word of the text (a word too
    wide to fit is left to overflow on a line of its own). *)
Theorem wordWrap_lines_fit_or_single_word
    (measureText : list ascii -> number) (text : list ascii) (width : number) :
  Forall (fun line =>
            (measureText line <? width * dec 9 10)%js = true
            \/ In line (split " " text))
    (wordWrap measureText text width).
Proof.
  unfold wordWrap.
  destruct (split " " text) as [| first rest] eqn:Es.
  - exfalso. exact (split_nonempty _ _ Es).
  - apply wrapWords_fit.
    + right. left. reflexivity.
    + apply Forall_forall. intros w Hw. right.
      apply list_elem_of_In. exact Hw.
Qed.

Lemma filledLines_app (a b : list DrawOp) :
  filledLines (a ++ b) = filledLines a ++ filledLines b.
Proof. unfold filledLines. apply flat_map_app. Qed.

(** One step of the loop over the lines. *)
Lemma drawLines_cons (config : StyleFields)
    (scaleFactor x y lineHeight : number) (count : nat) (fill : string)
    (index : nat) (line : list ascii) (rest : list (list ascii)) :
  exists lineY,
    drawLines config scaleFactor x y lineHeight count fill index (line :: rest)
    = (if (borderWidth config >? lit 0)%js
       then [StrokeText line x lineY (borderWidth config * scaleFactor)%js
               (borderColor config)]
       else [])
      ++ FillText line x lineY fill
      :: drawLines config scaleFactor x y lineHeight count fill (S index) rest.
Proof. eexists. reflexivity. Qed.

Lemma filledLines_drawLines (config : StyleFields)
    (scaleFactor x y lineHeight : number) (count : nat) (fill : string)
    (lines : list (list ascii)) :
  forall index,
    filledLines (drawLines config scaleFactor x y lineHeight count fill index lines)
    = lines.
Proof.
  induction lines as [| line rest IH]; intros index; [reflexivity | idtac].
  destruct (drawLines_cons config scaleFactor x y lineHeight count fill index
              line rest) as (lineY & ->).
  rewrite filledLines_app.
  change (filledLines (FillText line x lineY fill :: ?r))
    with (line :: filledLines r).
  rewrite IH. destruct (borderWidth config >? lit 0)%js; reflexivity.
Qed.

(** X14. What [drawCaption] fills on the canvas is the caption text: the
    filled lines are exactly the wrapped lines, each once and in order, so
    that joined by spaces they are the text; this for every style, size
    and metric. *)
Theorem drawCaption_fills_the_text (measureText : list ascii -> number)
    (text : list ascii) (width height : number) (config : StyleFields) :
  filledLines (drawCaption measureText text width height config)
  = wordWrap measureText text width /\
  joinWith " " (filledLines (drawCaption measureText text width height config))
  = text.
Proof.
  assert (E : filledLines (drawCaption measureText text width height config)
              = wordWrap measureText text width).
  { unfold drawCaption. cbv zeta.
    change (filledLines (SetFont ?a ?b ?c :: ?r)) with (filledLines r).
    rewrite filledLines_app.
    match goal with
    | |- filledLines ?bg ++ _ = _ =>
        assert (Hbg : filledLines bg = [])
          by (destruct (backgroundOpacity config >? lit 0)%js; reflexivity);
        rewrite Hbg
    end.
    change (filledLines (SetShadow ?a ?b ?c ?d :: ?r)) with (filledLines r).
    rewrite filledLines_app, filledLines_drawLines. simpl. apply app_nil_r. }
  split; [exact E | rewrite E; apply wordWrap_joinWith].
Qed.

Lemma fillStyles_app (a b : list DrawOp) :
  fillStyles (a ++ b) = fillStyles a ++ fillStyles b.
Proof. unfold fillStyles. apply flat_map_app. Qed.

Lemma fillStyles_drawLines (config : StyleFields)
    (scaleFactor x y lineHeight : number) (count : nat) (fill : string)
    (lines : list (list ascii)) :
  forall index,
    fillStyles (drawLines config scaleFactor x y lineHeight count fill index lines)
    = map (fun _ => fill) lines.
Proof.
  induction lines as [| line rest IH]; intros index; [reflexivity | idtac].
  destruct (drawLines_cons config scaleFactor x y lineHeight count fill index
              line rest) as (lineY & ->).
  rewrite fillStyles_app.
  change (fillStyles (FillText line x lineY fill :: ?r))
    with (fill :: fillStyles r).
  rewrite IH. destruct (borderWidth config >? lit 0)%js; reflexivity.
Qed.

(** The loop over the lines reads only the border of the style. *)
Lemma drawLines_border_only (c1 c2 : StyleFields)
    (scaleFactor x y lineHeight : number) (count : nat) (fill : string)
    (lines : list (list ascii)) :
  borderWidth c1 = borderWidth c2 -> borderColor c1 = borderColor c2 ->
  forall index,
    drawLines c1 scaleFactor x y lineHeight count fill index lines
    = drawLines c2 scaleFactor x y lineHeight count fill index lines.
Proof.
  intros Hw Hc. induction lines as [| line rest IH]; intros index;
    [reflexivity | idtac].
  cbn [drawLines]. rewrite Hw, Hc, IH. reflexivity.
Qed.

(** X15. Of the animation types only the karaoke highlight changes what
    is drawn: with [FADE_IN], [SLIDE_UP] or [SCALE_UP] the context calls
    are exactly those of [NONE], and with [KARAOKE_HIGHLIGHT] every line is
    filled with the highlight colour instead of the text colour. *)
Theorem drawCaption_animation_only_karaoke
    (measureText : list ascii -> number) (text : list ascii)
    (width height : number) (config : StyleFields) :
  drawCaption measureText text width height (withAnimation config FADE_IN)
  = drawCaption measureText text width height (withAnimation config NONE) /\
  drawCaption measureText text width height (withAnimation config SLIDE_UP)
  = drawCaption measureText text width height (withAnimation config NONE) /\
  drawCaption measureText text width height (withAnimation config SCALE_UP)
  = drawCaption measureText text width height (withAnimation config NONE) /\
  fillStyles
    (drawCaption measureText text width height (withAnimation config NONE))
  = map (fun _ => textColor config) (wordWrap measureText text width) /\
  fillStyles
    (drawCaption measureText text width height
       (withAnimation config KARAOKE_HIGHLIGHT))
  = map (fun _ => "#34d399") (wordWrap measureText text width).
Proof.
  assert (Hfill : forall a,
             fillStyles
               (drawCaption measureText text width height (withAnimation config a))
             = map (fun _ => if isKaraoke a then "#34d399" else textColor config)
                 (wordWrap measureText text width)).
  { intros a. unfold drawCaption. cbv zeta.
    change (fillStyles (SetFont ?a ?b ?c :: ?r)) with (fillStyles r).
    rewrite fillStyles_app.
    match goal with
    | |- fillStyles ?bg ++ _ = _ =>
        assert (Hbg : fillStyles bg = [])
          by (destruct (backgroundOpacity (withAnimation config a) >? lit 0)%js;
              reflexivity);
        rewrite Hbg
    end.
    change (fillStyles (SetShadow ?a ?b ?c ?d :: ?r)) with (fillStyles r).
    rewrite fillStyles_app, fillStyles_drawLines. simpl. apply app_nil_r. }
  assert (Hsame : forall a,
             isKaraoke a = false ->
             drawCaption measureText text width height (withAnimation config a)
             = drawCaption measureText text width height
                 (withAnimation config NONE)).
  { intros a Ha. unfold drawCaption. cbv zeta.
    cbn [withAnimation fontFamily fontSize textColor borderColor borderWidth
         backgroundColor backgroundOpacity positionY positionX fontWeight
         animationType].
    rewrite Ha. cbn [isKaraoke].
    rewrite (drawLines_border_only (withAnimation config a)
               (withAnimation config NONE)) by reflexivity.
    reflexivity. }
  split; [apply Hsame; reflexivity | idtac].
  split; [apply Hsame; reflexivity | idtac].
  split; [apply Hsame; reflexivity | idtac].
  split; [apply (Hfill NONE) | apply (Hfill KARAOKE_HIGHLIGHT)].
Qed.

Lemma fold_max_finite (values : list number) :
  Forall (fun v => exists q, v = Num q) values ->
  forall a, exists m, fold_left JSNumber.max values (Num a) = Num m.
Proof.
  induction 1 as [| v values [q ->] _ IH]; intros a; [eexists; reflexivity | idtac].
  cbn [fold_left]. destruct (max_finite a q) as (c & -> & _). apply IH.
Qed.

Lemma maxOf_finite (values : list number) :
  values <> [] -> Forall (fun v => exists q, v = Num q) values ->
  exists m, maxOf values = Num m.
Proof.
  intros Hne Hall. destruct Hall as [| v values [q ->] Hall]; [contradiction | idtac].
  unfold maxOf. cbn [fold_left].
  change (JSNumber.max NegInf (Num q)) with (Num q).
  apply fold_max_finite. exact Hall.
Qed.

(** X16. When the background is visible, its rectangle is drawn right
    after the font is set and is centred on the anchor point: its centre is
    at [positionX] percent of the surface width and [positionY] percent of
    the surface height, whatever the text, the font size and the metrics. *)
Theorem drawCaption_background_centred
    (measureText : list ascii -> number) (text : list ascii)
    (width height size percentX percentY : Q) (config : StyleFields) :
  (forall line, exists q, measureText line = Num q) ->
  fontSize config = Num size ->
  positionX config = Num percentX -> positionY config = Num percentY ->
  (backgroundOpacity config >? lit 0)%js = true ->
  exists bgX bgY bgW bgH rest,
    drawCaption measureText text (Num width) (Num height) config
    = SetFont (fontWeight config)
        (Num size * (JSNumber.min (Num width) (Num height) / lit 720))%js
        (fontFamily config)
      :: FillRect (Num bgX) (Num bgY) (Num bgW) (Num bgH)
           (backgroundColor config) (backgroundOpacity config)
      :: rest /\
    (bgX + bgW / 2 == percentX / 100 * width)%Q /\
    (bgY + bgH / 2 == percentY / 100 * height)%Q.
Proof.
  intros Hmeasure Hsize Hx Hy Hopacity.
  destruct (min_finite width height) as (m & Hm & _).
  assert (Hlines : exists M,
             maxOf (map measureText (wordWrap measureText text (Num width)))
             = Num M).
  { apply maxOf_finite.
    - intros Habs. apply map_eq_nil in Habs.
      unfold wordWrap in Habs.
      destruct (split " " text); [discriminate | idtac].
      exact (wrapWords_nonempty _ _ _ _ Habs).
    - apply Forall_forall. intros v Hv. apply list_elem_of_In in Hv.
      apply in_map_iff in Hv. destruct Hv as (line & <- & _). apply Hmeasure. }
  destruct Hlines as (M & HM).
  unfold drawCaption. cbv zeta. rewrite Hopacity, Hsize, Hx, Hy, Hm, HM.
  set (n := Z.of_nat (length (wordWrap measureText text (Num width)))).
  do 5 eexists. split; [reflexivity | idtac].
  unfold Qdiv.
  change (/ inject_Z 100)%Q with (1 # 100)%Q.
  change (/ inject_Z 720)%Q with (1 # 720)%Q.
  change (/ inject_Z 2)%Q with (1 # 2)%Q.
  change (/ 100)%Q with (1 # 100)%Q. change (/ 2)%Q with (1 # 2)%Q.
  change (inject_Z 20) with 20%Q. change (inject_Z 2) with 2%Q.
  split; lra.
Qed.

Lemma drawCaption_background_centred_witness :
  let measureText := fun line : list ascii => lit (Z.of_nat (length line) * 10) in
  let config :=
    {| fontFamily := "Montserrat"; fontSize := Num 32; textColor := "#FFFFFF";
       borderColor := "#000000"; borderWidth := Num 4;
       backgroundColor := "#000000"; backgroundOpacity := Num (1 # 2);
       positionY := Num 70; positionX := Num 50; fontWeight := "900";
       animationType := SCALE_UP |} in
  exists bgX bgY bgW bgH rest,
    drawCaption measureText (list_ascii_of_string "hello there") (Num 1280)
      (Num 720) config
    = SetFont (fontWeight config)
        (Num 32 * (JSNumber.min (Num 1280) (Num 720) / lit 720))%js
        (fontFamily config)
      :: FillRect (Num bgX) (Num bgY) (Num bgW) (Num bgH)
           (backgroundColor config) (backgroundOpacity config)
      :: rest /\
    (bgX + bgW / 2 == 50 / 100 * 1280)%Q /\
    (bgY + bgH / 2 == 70 / 100 * 720)%Q.
Proof.
  intros measureText config.
  apply (drawCaption_background_centred measureText
           (list_ascii_of_string "hello there") 1280 720 32 50 70 config).
  - intros line. eexists. reflexivity.
  - reflexivity.
  - reflexivity.
  - reflexivity.
  - reflexivity.
Defined.

(** ** The timeline scale and seeking *)

Lemma seek_clamped (effDuration offsetTime : Q) :
  (0 <= effDuration)%Q ->
  exists t,
    JSNumber.max (lit 0) (JSNumber.min (Num effDuration) (Num offsetTime)) = Num t /\
    (0 <= t)%Q /\ (t <= effDuration)%Q.
Proof.
  intros Hd. unfold lit.
  destruct (min_finite effDuration offsetTime) as (m & Hm & Hm1 & _ & _).
  rewrite Hm.
  destruct (max_finite (inject_Z 0) m) as (t & Ht & Ht0 & _ & Htc).
  rewrite Ht. exists t. change (inject_Z 0) with 0%Q in *.
  repeat split; auto. destruct Htc as [-> | ->]; lra.
Qed.

(** X18. A click on the timeline track and a drag of the playhead seek
    to the same time for the same pointer position, and that time lies
    between 0 and the effective duration however far the pointer is
    outside the track. *)
Theorem timeline_seek_within_extent
    (zoom effDuration rectLeft scrollLeft clientX startX : Q) :
  ~ (zoom == 0)%Q -> (0 <= effDuration)%Q ->
  exists t,
    handleTimelineClick (Num zoom) (Num effDuration)
      (Some (Num rectLeft, Num scrollLeft)) None (Num clientX)
    = OnSeek (Num t) /\
    handleMouseMove (Num zoom) (Num effDuration)
      (Some (Num rectLeft, Num scrollLeft))
      (Some (handlePlayheadMouseDown (Num startX))) (Num clientX)
    = OnSeek (Num t) /\
    (0 <= t)%Q /\ (t <= effDuration)%Q.
Proof.
  intros Hzoom Hd.
  destruct (seek_clamped effDuration ((clientX - rectLeft + scrollLeft) / zoom) Hd)
    as (t & Ht & Ht0 & Ht1).
  exists t. repeat split; try assumption.
  - unfold handleTimelineClick.
    rewrite sub_finite, add_finite, (pixelsToTime_finite zoom _ Hzoom), Ht.
    reflexivity.
  - unfold handleMouseMove, handlePlayheadMouseDown.
    cbv beta iota delta [Dragging.type].
    rewrite sub_finite, add_finite, (pixelsToTime_finite zoom _ Hzoom), Ht.
    reflexivity.
Qed.

Lemma timeline_seek_within_extent_witness :
  exists t,
    handleTimelineClick (Num 60) (Num 12)
      (Some (Num 384, Num 0)) None (Num 5000)
    = OnSeek (Num t) /\
    handleMouseMove (Num 60) (Num 12) (Some (Num 384, Num 0))
      (Some (handlePlayheadMouseDown (Num 400))) (Num 5000)
    = OnSeek (Num t) /\
    (0 <= t)%Q /\ (t <= 12)%Q.
Proof.
  apply (timeline_seek_within_extent 60 12 384 0 5000 400).
  - discriminate.
  - discriminate.
Defined.

Lemma maxCaptionTime_fold (captions : list Caption.t) :
  Forall (fun c => exists e, parseTime (TString (Caption.end_ c)) = Num e) captions ->
  forall a,
    exists M,
      fold_left
        (fun acc c => JSNumber.max acc (parseTime (TString (Caption.end_ c))))
        captions (Num a) = Num M /\
      (a <= M)%Q /\
      Forall (fun c => exists e,
                parseTime (TString (Caption.end_ c)) = Num e /\ (e <= M)%Q)
        captions.
Proof.
  induction 1 as [| c captions [e He] _ IH]; intros a.
  - exists a. repeat split; [lra | constructor].
  - cbn [fold_left]. rewrite He.
    destruct (max_finite a e) as (m & -> & Ha & Hem & _).
    destruct (IH m) as (M & HM & HmM & Hall).
    exists M. repeat split; [exact HM | lra | idtac].
    constructor; [exists e; split; [exact He | lra] | exact Hall].
Qed.

(** X19. The timeline extent never hides a caption: whatever duration the
    video reports (zero and [NaN] before the metadata is there included),
    the effective duration is a finite number of at least 5 seconds, at
    least the reported duration, and at least 5 seconds beyond the end of
    every caption. *)
Theorem effectiveDuration_covers_captions
    (duration : number) (captions : list Caption.t) :
  duration = NaN \/ (exists d, duration = Num d) ->
  Forall (fun c => exists e, parseTime (TString (Caption.end_ c)) = Num e) captions ->
  exists D,
    effectiveDuration duration captions = Num D /\ (5 <= D)%Q /\
    (duration = NaN \/ (duration <=? Num D)%js = true) /\
    Forall (fun c => exists e,
              parseTime (TString (Caption.end_ c)) = Num e /\ (e + 5 <= D)%Q)
      captions.
Proof.
  intros Hd Hends.
  destruct (maxCaptionTime_fold captions Hends (inject_Z 0))
    as (M & HM & HM0 & Hall).
  change (inject_Z 0) with 0%Q in HM0.
  assert (Hdur : exists d0, orZero duration = Num d0 /\
                            (duration = NaN \/ duration = Num d0)).
  { destruct Hd as [-> | [d ->]]; [exists 0%Q | exists d]; auto. }
  destruct Hdur as (d0 & Hd0 & Hcase).
  unfold effectiveDuration, maxCaptionTime, lit. rewrite HM, Hd0, add_finite.
  destruct (max_finite d0 (M + inject_Z 5)) as (D & -> & HD1 & HD2 & _).
  change (inject_Z 5) with 5%Q in HD2.
  exists D. split; [reflexivity | idtac]. split; [lra | idtac]. split.
  - destruct Hcase as [-> | ->]; [left; reflexivity | right].
    unfold leb. apply Qle_bool_iff. exact HD1.
  - eapply Forall_impl; [exact Hall | idtac].
    intros c (e & He & HeM). exists e. split; [exact He | lra].
Qed.

Lemma effectiveDuration_covers_captions_witness :
  exists D,
    effectiveDuration NaN
      [Caption.mk "a" "00:00:00.000" "00:00:07.500" "one" None] = Num D /\
    (5 <= D)%Q /\
    (NaN = NaN \/ (NaN <=? Num D)%js = true) /\
    Forall (fun c => exists e,
              parseTime (TString (Caption.end_ c)) = Num e /\ (e + 5 <= D)%Q)
      [Caption.mk "a" "00:00:00.000" "00:00:07.500" "one" None].
Proof.
  apply (effectiveDuration_covers_captions NaN
           [Caption.mk "a" "00:00:00.000" "00:00:07.500" "one" None]).
  - left. reflexivity.
  - constructor; [idtac | constructor].
    exists (7500 # 1000)%Q. vm_compute. reflexivity.
Defined.

(** A drag without pointer movement recomputes the initial span. *)
Lemma dragSpan_still (type : DragType) (initialStart initialEnd delta : Q) :
  type <> Playhead -> (delta == 0)%Q ->
  (0 <= initialStart)%Q -> (initialStart + (2 # 10) <= initialEnd)%Q ->
  exists newStart newEnd,
    dragSpan type (Num initialStart) (Num initialEnd) (Num delta)
    = (Num newStart, Num newEnd) /\
    (newStart == initialStart)%Q /\ (newEnd == initialEnd)%Q.
Proof.
  intros Htype Hdelta Hs Hse.
  destruct type; try contradiction;
    unfold dragSpan; cbv zeta; unfold lit, dec; rewrite ?add_finite, ?sub_finite.
  - destruct (max_finite (inject_Z 0) (initialStart + delta))
      as (s & Hsv & Hs0 & Hs1 & Hsc).
    rewrite Hsv, add_finite.
    destruct (max_finite (s + (1 # 10)) (initialEnd + delta))
      as (e & Hev & He0 & He1 & Hec).
    rewrite Hev. exists s, e. change (inject_Z 0) with 0%Q in *.
    assert (Es : (s == initialStart)%Q) by (destruct Hsc as [-> | ->]; lra).
    split; [reflexivity | split; [exact Es | idtac]].
    destruct Hec as [-> | ->]; lra.
  - destruct (min_finite (initialEnd - (2 # 10)) (initialStart + delta))
      as (m & Hmv & Hm0 & Hm1 & Hmc).
    rewrite Hmv.
    destruct (max_finite (inject_Z 0) m) as (s & Hsv & Hs0 & Hs1 & Hsc).
    rewrite Hsv. exists s, initialEnd. change (inject_Z 0) with 0%Q in *.
    split; [reflexivity | split; [idtac | reflexivity]].
    assert (Em : (m == initialStart)%Q) by (destruct Hmc as [-> | ->]; lra).
    destruct Hsc as [-> | ->]; lra.
  - destruct (max_finite (initialStart + (2 # 10)) (initialEnd + delta))
      as (e & Hev & He0 & He1 & Hec).
    rewrite Hev. exists initialStart, e.
    split; [reflexivity | split; [reflexivity | idtac]].
    destruct Hec as [-> | ->]; lra.
Qed.

(** X20. Pressing a caption on the timeline and moving the mouse without
    changing its horizontal position changes nothing: for a caption whose
    time codes were printed by [formatTime] at millisecond precision and
    whose span is at least 0.2 seconds, the move, resize-left and
    resize-right drags all commit the caption's own time codes. *)
Theorem drag_without_movement_keeps_caption
    (type : DragType) (id text : string) (style : option StyleConfig)
    (a b zoom x : Q) (ka kb : Z)
    (effDuration : number) (container : option (number * number)) :
  id <> EmptyString -> ~ (zoom == 0)%Q -> type <> Playhead ->
  (0 <= a)%Q -> (a == ka # 1000)%Q -> (b == kb # 1000)%Q ->
  (a + (2 # 10) <= b)%Q ->
  let caption :=
    Caption.mk id (formatTime (Num a)) (formatTime (Num b)) text style in
  applyCall
    (handleMouseMove (Num zoom) effDuration container
       (Some (captionMouseDown caption type (Num x))) (Num x))
    [caption]
  = [caption].
Proof.
  intros Hid Hzoom Htype Ha Hka Hkb Hab caption.
  assert (Hb : (0 <= b)%Q) by lra.
  destruct (parseTime_formatTime a Ha) as (ra & Hra & Era).
  destruct (parseTime_formatTime b Hb) as (rb & Hrb & Erb).
  rewrite (roundMs_exact a ka Hka), <- Qmake_thousandths, <- Hka in Era.
  rewrite (roundMs_exact b kb Hkb), <- Qmake_thousandths, <- Hkb in Erb.
  assert (Hdelta : ((x - x) / zoom == 0)%Q) by (field; exact Hzoom).
  destruct (dragSpan_still type ra rb ((x - x) / zoom) Htype Hdelta)
    as (s & e & Hspan & Es & Ee); [lra | lra | idtac].
  assert (Hne : String.eqb id EmptyString = false)
    by (apply String.eqb_neq; exact Hid).
  assert (Hcall :
    handleMouseMove (Num zoom) effDuration container
      (Some (captionMouseDown caption type (Num x))) (Num x)
    = OnCaptionChange id
        (Updates.mk None (Some (formatTime (Num a))) (Some (formatTime (Num b)))
           None None)).
  { unfold handleMouseMove, captionMouseDown, handleMouseDown, caption.
    cbv beta iota delta [Dragging.type Dragging.id Dragging.initialStart
                         Dragging.initialEnd Dragging.startX
                         Caption.id Caption.start Caption.end_].
    rewrite Hne, Hra, Hrb, sub_finite, (pixelsToTime_finite zoom _ Hzoom).
    rewrite (formatTime_comp a s) by (rewrite Es, Era; reflexivity).
    rewrite (formatTime_comp b e) by (rewrite Ee, Erb; reflexivity).
    destruct type; try contradiction; rewrite Hspan; reflexivity. }
  rewrite Hcall. unfold applyCall, handleCaptionChange, caption. simpl map.
  cbv beta iota delta [Caption.id]. rewrite String.eqb_refl. reflexivity.
Qed.

Lemma drag_without_movement_keeps_caption_witness :
  let caption :=
    Caption.mk "c" (formatTime (Num 2)) (formatTime (Num 5)) "hi" None in
  applyCall
    (handleMouseMove (Num 60) (lit 100) None
       (Some (captionMouseDown caption ResizeLeft (Num 321))) (Num 321))
    [caption]
  = [caption].
Proof.
  apply (drag_without_movement_keeps_caption ResizeLeft "c" "hi" None
           2 5 60 321 2000 5000 (lit 100) None).
  - discriminate.
  - discriminate.
  - discriminate.
  - discriminate.
  - reflexivity.
  - reflexivity.
  - discriminate.
Defined.

(** ** The order of the caption list *)

Lemma formatTime_finiteStart (n : number) :
  exists r, parseTime (TString (formatTime n)) = Num r.
Proof.
  assert (Hzero : exists r, parseTime (TString "00:00:00.000") = Num r)
    by (eexists; vm_compute; reflexivity).
  destruct n as [| | q |]; try exact Hzero.
  destruct (Qlt_le_dec q 0) as [Hneg | Hpos].
  - rewrite (formatTime_negative q Hneg). exact Hzero.
  - destruct (parseTime_formatTime q Hpos) as (r & Hr & _). exists r. exact Hr.
Qed.

Lemma byStart_finite (a b : Caption.t) :
  finiteStart a -> finiteStart b -> byStart a b = Num (startOf a - startOf b).
Proof.
  intros [qa Ha] [qb Hb]. unfold byStart, startOf. rewrite Ha, Hb. reflexivity.
Qed.

Lemma insertSorted_ascending (x : Caption.t) (l : list Caption.t) :
  finiteStart x -> Forall finiteStart l ->
  ascending (map startOf l) ->
  ascending (map startOf (insertSorted byStart x l)).
Proof.
  intros Hx. induction l as [| y l IH]; intros Hl Hasc.
  - simpl. split; [constructor | exact I].
  - apply Forall_cons in Hl. destruct Hl as [Hy Hl].
    destruct Hasc as [Hmin Hasc].
    change (insertSorted byStart x (y :: l))
      with (if (byStart x y >? lit 0)%js
            then y :: insertSorted byStart x l else x :: y :: l).
    rewrite (byStart_finite x y Hx Hy). unfold gtb, ltb, lit.
    destruct (Qltb_spec (inject_Z 0) (startOf x - startOf y)) as [Hgt | Hle];
      change (inject_Z 0) with 0%Q in *.
    + cbn [map ascending]. split; [idtac | apply IH; assumption].
      pose proof (Permutation_map startOf (insertSorted_Permutation byStart x l))
        as HP.
      rewrite HP. cbn [map]. apply Forall_cons. split; [lra | exact Hmin].
    + cbn [map ascending]. split; [idtac | split; assumption].
      apply Forall_cons. split; [lra | idtac].
      eapply Forall_impl; [exact Hmin | idtac]. intros t Ht. simpl in Ht. lra.
Qed.

Lemma sort_finite (l : list Caption.t) :
  Forall finiteStart l -> Forall finiteStart (sort byStart l).
Proof. intros H. rewrite sort_Permutation. exact H. Qed.

Lemma sort_ascending (l : list Caption.t) :
  Forall finiteStart l -> ascending (map startOf (sort byStart l)).
Proof.
  induction 1 as [| x l Hx Hl IH]; [exact I | idtac].
  cbn [sort fold_right]. apply insertSorted_ascending;
    [exact Hx | apply sort_finite; exact Hl | exact IH].
Qed.

(** X21. After a manual add and after a split the caption list is in
    start order, whatever order it had before: provided every start in the
    list reads as a finite number, the result is one caption longer, has
    finite starts again and no caption in it is followed by one that
    starts earlier. This holds of the split whenever the id is found;
    when it is not, the list is returned as it was. *)
Theorem add_and_split_order_by_start
    (now : Z) (currentTime duration : number) (id : string)
    (captions prev : list Caption.t) :
  Forall finiteStart captions -> Forall finiteStart prev ->
  (length (handleAddCaption now currentTime duration prev) = S (length prev) /\
   Forall finiteStart (handleAddCaption now currentTime duration prev) /\
   ascending (map startOf (handleAddCaption now currentTime duration prev))) /\
  match List.find (fun c => String.eqb (Caption.id c) id) captions with
  | Some _ =>
      length (handleSplitCaption captions id prev) = S (length prev) /\
      Forall finiteStart (handleSplitCaption captions id prev) /\
      ascending (map startOf (handleSplitCaption captions id prev))
  | None => handleSplitCaption captions id prev = prev
  end.
Proof.
  intros Hcaps Hprev. split.
  - assert (Hall : Forall finiteStart
              (prev ++ [Caption.mk
                          ("manual-" +:+ string_of_list_ascii (intToString now))
                          (formatTime currentTime)
                          (formatTime (JSNumber.min duration (currentTime + lit 2)%js))
                          "New Caption" None])).
    { apply Forall_app. split; [exact Hprev | idtac].
      constructor; [apply formatTime_finiteStart | constructor]. }
    unfold handleAddCaption.
    split; [idtac | split; [apply sort_finite | apply sort_ascending]; exact Hall].
    rewrite (Permutation_length (sort_Permutation byStart _)), length_app.
    simpl. lia.
  - unfold handleSplitCaption.
    destruct (List.find (fun c => (Caption.id c =? id)%string) captions)
      as [c |] eqn:Hfind; [idtac | reflexivity].
    apply find_some in Hfind. destruct Hfind as [Hin _].
    assert (Hc : finiteStart c).
    { rewrite Forall_forall in Hcaps. apply Hcaps, list_elem_of_In, Hin. }
    match goal with
    | |- _ /\ Forall _ (sort _ ?l) /\ _ => assert (Hall : Forall finiteStart l)
    end.
    { apply Forall_app. split.
      - apply Forall_forall. intros x Hx. apply list_elem_of_In in Hx.
        apply in_map_iff in Hx. destruct Hx as (y & <- & Hy).
        destruct (Caption.id y =? id)%string; [exact Hc | idtac].
        rewrite Forall_forall in Hprev. apply Hprev, list_elem_of_In, Hy.
      - constructor; [apply formatTime_finiteStart | constructor]. }
    split; [idtac | split; [apply sort_finite | apply sort_ascending]; exact Hall].
    rewrite (Permutation_length (sort_Permutation byStart _)), length_app, length_map.
    simpl. lia.
Qed.

Lemma add_and_split_order_by_start_witness :
  let captions :=
    [Caption.mk "b" "00:00:05.000" "00:00:06.000" "late" None;
     Caption.mk "a" "00:00:01.000" "00:00:03.000" "early" None] in
  (length (handleAddCaption 1700000000000 (Num 2) (Num 10) captions)
   = S (length captions) /\
   Forall finiteStart (handleAddCaption 1700000000000 (Num 2) (Num 10) captions) /\
   ascending
     (map startOf (handleAddCaption 1700000000000 (Num 2) (Num 10) captions))) /\
  match List.find (fun c => String.eqb (Caption.id c) "a") captions with
  | Some _ =>
      length (handleSplitCaption captions "a" captions) = S (length captions) /\
      Forall finiteStart (handleSplitCaption captions "a" captions) /\
      ascending (map startOf (handleSplitCaption captions "a" captions))
  | None => handleSplitCaption captions "a" captions = captions
  end.
Proof.
  assert (H : Forall finiteStart
            [Caption.mk "b" "00:00:05.000" "00:00:06.000" "late" None;
             Caption.mk "a" "00:00:01.000" "00:00:03.000" "early" None]).
  { repeat constructor; eexists; vm_compute; reflexivity. }
  exact (add_and_split_order_by_start 1700000000000 (Num 2) (Num 10) "a" _ _ H H).
Defined.

(** ** Edits of the caption list *)

Lemma spreadCaption_merge (c : Caption.t) (u1 u2 : Updates.t) :
  spreadCaption (spreadCaption c u1) u2 = spreadCaption c (mergeUpdates u1 u2).
Proof.
  destruct u1 as [i1 s1 e1 t1 y1], u2 as [i2 s2 e2 t2 y2].
  unfold spreadCaption, mergeUpdates. cbn.
  destruct i2, s2, e2, t2, y2; reflexivity.
Qed.

(** X22. Two successive changes of the same caption amount to one change
    with the merged update [{ ...u1, ...u2 }], the later update winning
    field by field (the first update not touching the id). *)
Theorem handleCaptionChange_composes (id : string) (u1 u2 : Updates.t)
    (prev : list Caption.t) :
  Updates.id u1 = None ->
  handleCaptionChange id u2 (handleCaptionChange id u1 prev)
  = handleCaptionChange id (mergeUpdates u1 u2) prev.
Proof.
  intros Hu. unfold handleCaptionChange. rewrite map_map. apply map_ext.
  intros c. destruct (Caption.id c =? id)%string eqn:Ec.
  - assert (Eid : Caption.id (spreadCaption c u1) = Caption.id c)
      by (unfold spreadCaption; cbn; rewrite Hu; reflexivity).
    rewrite Eid, Ec. apply spreadCaption_merge.
  - rewrite Ec. reflexivity.
Qed.

Lemma handleCaptionChange_composes_witness :
  let prev := [Caption.mk "a" "00:00:00.000" "00:00:02.000" "one" None] in
  let u1 := Updates.mk None None None (Some "two") None in
  let u2 := Updates.mk None (Some "00:00:01.000") None None None in
  handleCaptionChange "a" u2 (handleCaptionChange "a" u1 prev)
  = handleCaptionChange "a" (mergeUpdates u1 u2) prev.
Proof.
  apply (handleCaptionChange_composes "a"
           (Updates.mk None None None (Some "two") None)
           (Updates.mk None (Some "00:00:01.000") None None None)
           [Caption.mk "a" "00:00:00.000" "00:00:02.000" "one" None]).
  reflexivity.
Defined.

Lemma find_absent (id : string) (l : list Caption.t) :
  ~ In id (map Caption.id l) ->
  List.find (fun c => (Caption.id c =? id)%string) l = None /\
  Forall (fun c => (Caption.id c =? id)%string = false) l.
Proof.
  induction l as [| c l IH]; intros Hid; [split; [reflexivity | constructor] | idtac].
  simpl in Hid.
  assert (Hc : (Caption.id c =? id)%string = false)
    by (apply String.eqb_neq; intros E; apply Hid; left; exact E).
  destruct IH as [Hf Hall]; [intros H; apply Hid; right; exact H | idtac].
  split; [simpl; rewrite Hc; exact Hf | constructor; assumption].
Qed.

Lemma handleCaptionChange_untouched (id : string) (updates : Updates.t)
    (l : list Caption.t) :
  Forall (fun c => (Caption.id c =? id)%string = false) l ->
  handleCaptionChange id updates l = l.
Proof.
  unfold handleCaptionChange. induction 1 as [| c l Hc _ IH]; [reflexivity | idtac].
  simpl. rewrite Hc, IH. reflexivity.
Qed.

Lemma onCaptionDelete_untouched (id : string) (l : list Caption.t) :
  Forall (fun c => (Caption.id c =? id)%string = false) l ->
  onCaptionDelete id l = l.
Proof.
  unfold onCaptionDelete. induction 1 as [| c l Hc _ IH]; [reflexivity | idtac].
  simpl. rewrite Hc. simpl. rewrite IH. reflexivity.
Qed.

(** X23. An id that no caption carries is ignored: changing, deleting or
    splitting the caption with such an id leaves the list exactly as it
    was (not re-sorted either). *)
Theorem unknown_id_changes_nothing (id : string) (updates : Updates.t)
    (prev : list Caption.t) :
  ~ In id (map Caption.id prev) ->
  handleCaptionChange id updates prev = prev /\
  onCaptionDelete id prev = prev /\
  handleSplitCaption prev id prev = prev.
Proof.
  intros Hid. destruct (find_absent id prev Hid) as [Hfind Hall].
  split; [idtac | split].
  - apply handleCaptionChange_untouched. exact Hall.
  - apply onCaptionDelete_untouched. exact Hall.
  - unfold handleSplitCaption. rewrite Hfind. reflexivity.
Qed.

Lemma unknown_id_changes_nothing_witness :
  let prev :=
    [Caption.mk "b" "00:00:05.000" "00:00:06.000" "late" None;
     Caption.mk "a" "00:00:01.000" "00:00:03.000" "early" None] in
  handleCaptionChange "zz" (Updates.mk None None None (Some "x") None) prev = prev /\
  onCaptionDelete "zz" prev = prev /\
  handleSplitCaption prev "zz" prev = prev.
Proof.
  apply (unknown_id_changes_nothing "zz"
           (Updates.mk None None None (Some "x") None)
           [Caption.mk "b" "00:00:05.000" "00:00:06.000" "late" None;
            Caption.mk "a" "00:00:01.000" "00:00:03.000" "early" None]).
  simpl. intros [H | [H | H]]; [discriminate H | discriminate H | exact H].
Defined.

Lemma onCaptionDelete_absent (id : string) (l : list Caption.t) :
  ~ In id (map Caption.id l) -> onCaptionDelete id l = l.
Proof.
  intros Hid. destruct (find_absent id l Hid) as [_ Hall].
  apply onCaptionDelete_untouched. exact Hall.
Qed.

(** X24. With pairwise distinct ids, deleting a caption by its id removes
    that caption and nothing else: the list gets one shorter, the id is
    gone, and the captions with other ids remain in their order. *)
Theorem onCaptionDelete_removes_exactly_one (id : string)
    (prev : list Caption.t) :
  NoDup (map Caption.id prev) -> In id (map Caption.id prev) ->
  S (length (onCaptionDelete id prev)) = length prev /\
  ~ In id (map Caption.id (onCaptionDelete id prev)) /\
  exists before removed after,
    prev = before ++ removed :: after /\ Caption.id removed = id /\
    onCaptionDelete id prev = before ++ after.
Proof.
  intros Hnd Hin.
  assert (Hsplit : exists before removed after,
             prev = before ++ removed :: after /\ Caption.id removed = id /\
             onCaptionDelete id prev = before ++ after).
  { induction prev as [| c l IH]; [contradiction | idtac].
    simpl in Hnd. apply NoDup_cons in Hnd. destruct Hnd as [Hc Hnd].
    destruct (String.eqb_spec (Caption.id c) id) as [E | E].
    - exists [], c, l. repeat split; [exact E | idtac].
      unfold onCaptionDelete. simpl. rewrite <- E at 1.
      rewrite String.eqb_refl. simpl.
      apply onCaptionDelete_absent. rewrite <- E. intros H. apply Hc.
      apply list_elem_of_In. exact H.
    - destruct Hin as [Hin | Hin]; [contradiction | idtac].
      destruct (IH Hnd Hin) as (b & r & a & -> & Hr & Hdel).
      exists (c :: b), r, a. repeat split; [exact Hr | idtac].
      unfold onCaptionDelete in *. simpl.
      apply String.eqb_neq in E. rewrite E. simpl. rewrite Hdel. reflexivity. }
  destruct Hsplit as (b & r & a & Hprev & Hr & Hdel).
  split; [idtac | split; [idtac | exists b, r, a; auto]].
  - rewrite Hdel, Hprev, !length_app. simpl. lia.
  - unfold onCaptionDelete. intros H. apply in_map_iff in H.
    destruct H as (c & Hc & Hf). apply filter_In in Hf. destruct Hf as [_ Hf].
    apply String.eqb_eq in Hc. rewrite Hc in Hf. discriminate Hf.
Qed.

Lemma onCaptionDelete_removes_exactly_one_witness :
  let prev :=
    [Caption.mk "b" "00:00:05.000" "00:00:06.000" "late" None;
     Caption.mk "a" "00:00:01.000" "00:00:03.000" "early" None] in
  S (length (onCaptionDelete "a" prev)) = length prev /\
  ~ In "a" (map Caption.id (onCaptionDelete "a" prev)) /\
  exists before removed after,
    prev = before ++ removed :: after /\ Caption.id removed = "a" /\
    onCaptionDelete "a" prev = before ++ after.
Proof.
  apply (onCaptionDelete_removes_exactly_one "a"
           [Caption.mk "b" "00:00:05.000" "00:00:06.000" "late" None;
            Caption.mk "a" "00:00:01.000" "00:00:03.000" "early" None]).
  - simpl. apply NoDup_cons. split.
    + intros H. apply list_elem_of_In in H. simpl in H.
      destruct H as [H | H]; [discriminate H | exact H].
    + apply NoDup_singleton.
  - simpl. right. left. reflexivity.
Defined.



(** ** Export runs *)



(** ** Imported captions *)

Lemma list_ascii_of_string_app (a b : string) :
  list_ascii_of_string (a +:+ b) = list_ascii_of_string a ++ list_ascii_of_string b.
Proof. induction a as [| c a IH]; simpl; [reflexivity | rewrite IH; reflexivity]. Qed.

Lemma digits_before_dash (a b x y : list ascii) :
  allDigits a -> allDigits b ->
  a ++ "-"%char :: x = b ++ "-"%char :: y -> a = b.
Proof.
  intros Ha. revert b. induction Ha as [| c a Hc Ha IH]; intros b Hb E.
  - destruct Hb as [| d b Hd Hb]; [reflexivity | idtac].
    simpl in E. injection E as E1 _. subst d. discriminate Hd.
  - destruct Hb as [| d b Hd Hb].
    + simpl in E. injection E as E1 _. subst c. discriminate Hc.
    + simpl in E. injection E as E1 E2. subst d. f_equal. exact (IH b Hb E2).
Qed.

Lemma importId_chars (index : nat) (now : Z) :
  list_ascii_of_string (importId index now)
  = list_ascii_of_string "caption-"
    ++ intToString (Z.of_nat index) ++ "-"%char :: intToString now.
Proof.
  unfold importId.
  rewrite !list_ascii_of_string_app, !list_ascii_of_string_of_list_ascii.
  rewrite <- ?app_assoc. reflexivity.
Qed.

Lemma importId_index (i j : nat) (s t : Z) :
  importId i s = importId j t -> i = j.
Proof.
  intros E. apply (f_equal list_ascii_of_string) in E.
  rewrite !importId_chars in E. apply app_inv_head in E.
  destruct (intToString_spec (Z.of_nat i) (Nat2Z.is_nonneg i)) as (Hi & _ & Vi).
  destruct (intToString_spec (Z.of_nat j) (Nat2Z.is_nonneg j)) as (Hj & _ & Vj).
  apply (digits_before_dash _ _ _ _ Hi Hj) in E.
  rewrite E in Vi. rewrite Vi in Vj. apply Nat2Z.inj. exact Vj.
Qed.

Lemma last_app_nonempty (a b : list ascii) (d : ascii) :
  b <> [] -> List.last (a ++ b) d = List.last b d.
Proof.
  intros Hb. induction a as [| c a IH]; [reflexivity | idtac].
  simpl. destruct (a ++ b) eqn:E; [idtac | exact IH].
  apply app_eq_nil in E. destruct E as [_ E]. contradiction.
Qed.

Lemma allDigits_last (ds : list ascii) (d : ascii) :
  allDigits ds -> ds <> [] -> isDigit (List.last ds d) = true.
Proof.
  intros H. induction H as [| c ds Hc H IH]; intros Hne; [contradiction | idtac].
  destruct ds as [| c' ds']; [exact Hc | idtac].
  change (isDigit (List.last (c' :: ds') d) = true). apply IH. discriminate.
Qed.

Lemma intToString_last (n : Z) : isDigit (List.last (intToString n) "0"%char) = true.
Proof.
  unfold intToString. destruct (Z.ltb_spec n 0) as [Hn | Hn].
  - destruct (decimalNumeral_spec (- n)) as (Hd & Hne & _); [lia | idtac].
    change ("-"%char :: decimalNumeral (- n))
      with (["-"%char] ++ decimalNumeral (- n)).
    rewrite (last_app_nonempty _ _ _ Hne). apply allDigits_last; assumption.
  - destruct (decimalNumeral_spec n Hn) as (Hd & Hne & _).
    apply allDigits_last; assumption.
Qed.

Lemma importId_not_split (index : nat) (now : Z) (id : string) :
  importId index now <> id +:+ "-split".
Proof.
  intros E. apply (f_equal list_ascii_of_string) in E.
  rewrite importId_chars, list_ascii_of_string_app in E.
  apply (f_equal (fun l => List.last l "0"%char)) in E.
  assert (Hne : intToString now <> []).
  { unfold intToString. destruct (Z.ltb_spec now 0) as [Hn | Hn]; [discriminate | idtac].
    apply (decimalNumeral_spec now Hn). }
  rewrite (last_app_nonempty (list_ascii_of_string "caption-")) in E
    by (intros Hnil; symmetry in Hnil; exact (app_cons_not_nil _ _ _ Hnil)).
  rewrite (last_app_nonempty (intToString (Z.of_nat index))) in E by discriminate.
  change ("-"%char :: intToString now) with (["-"%char] ++ intToString now) in E.
  rewrite (last_app_nonempty _ _ _ Hne) in E.
  rewrite (last_app_nonempty (list_ascii_of_string id)) in E by discriminate.
  pose proof (intToString_last now) as Hl. rewrite E in Hl. discriminate Hl.
Qed.

Lemma normalizedCaptions_ids (numberToString : number -> string)
    (clock : nat -> Z) (rawData : list Item) (i : nat) (id : string) :
  map Caption.id (normalizedCaptions numberToString clock rawData) !! i = Some id ->
  id = importId i (clock i).
Proof.
  unfold normalizedCaptions. intros H.
  rewrite list_lookup_fmap, list_lookup_imap in H.
  destruct (rawData !! i) as [item |]; simpl in H; [idtac | discriminate H].
  injection H as <-. reflexivity.
Qed.

Lemma normalizedCaptions_NoDup (numberToString : number -> string)
    (clock : nat -> Z) (rawData : list Item) :
  NoDup (map Caption.id (normalizedCaptions numberToString clock rawData)).
Proof.
  apply NoDup_alt. intros i j id Hi Hj.
  apply normalizedCaptions_ids in Hi. apply normalizedCaptions_ids in Hj.
  rewrite Hi in Hj. exact (importId_index _ _ _ _ Hj).
Qed.

(** X28. The captions built from a model response carry pairwise distinct
    ids, one caption per item of the response, whatever the items hold
    and whatever the clock returns: the item's index is part of the id. *)
Theorem normalizedCaptions_ids_distinct (numberToString : number -> string)
    (clock : nat -> Z) (rawData : list Item) :
  NoDup (map Caption.id (normalizedCaptions numberToString clock rawData)) /\
  length (normalizedCaptions numberToString clock rawData) = length rawData.
Proof.
  split.
  - apply normalizedCaptions_NoDup.
  - unfold normalizedCaptions. apply length_imap.
Qed.

(** X29. Splitting any caption of a freshly imported list keeps the ids
    pairwise distinct: no imported id ends in [-split], so the id given
    to the second half is new. *)
Theorem split_after_import_keeps_ids_distinct (numberToString : number -> string)
    (clock : nat -> Z) (rawData : list Item) (id : string) :
  let captions := normalizedCaptions numberToString clock rawData in
  NoDup (map Caption.id (handleSplitCaption captions id captions)).
Proof.
  intros captions. apply handleSplitCaption_ids_NoDup.
  - intros Hin. apply list_elem_of_In in Hin.
    apply list_elem_of_lookup in Hin. destruct Hin as [i Hi].
    apply normalizedCaptions_ids in Hi. symmetry in Hi.
    exact (importId_not_split _ _ _ Hi).
  - apply normalizedCaptions_NoDup.
Qed.

(** ** A press on the canvas *)

Lemma find_by_id_present (l : list Caption.t) (c : Caption.t) :
  In c l ->
  exists c',
    List.find (fun x => String.eqb (Caption.id x) (Caption.id c)) l = Some c' /\
    Caption.id c' = Caption.id c.
Proof.
  induction l as [| x l IH]; intros Hin; [destruct Hin | idtac].
  simpl. destruct (String.eqb (Caption.id x) (Caption.id c)) eqn:Ex.
  - exists x. split; [reflexivity | apply String.eqb_eq; exact Ex].
  - destruct Hin as [-> | Hin]; [rewrite String.eqb_refl in Ex; discriminate Ex | idtac].
    exact (IH Hin).
Qed.

(** X30. When no text drag is in progress, a press on the canvas that
    starts one grabs the caption showing at the video's live time and
    calls nothing; from then on every mouse move edits that caption, by
    its id, wherever the playhead has gone meanwhile, provided the id is
    not the empty string; after the mouse is released a move edits
    nothing. *)
Theorem canvas_press_grabs_showing_caption
    (captions : list Caption.t) (styleConfig : StyleConfig) (liveTime : number)
    (rect : Rect) (clientX clientY : number) (drag drag' : TextDrag)
    (call : canvasCall) :
  isDraggingText drag = false ->
  handleCanvasMouseDown true captions styleConfig liveTime rect clientX clientY drag
  = (drag', call) ->
  isDraggingText drag' = true ->
  exists c,
    findCaptionAtTime captions liveTime = Some c /\
    activeCaptionId drag' = Some (Caption.id c) /\
    call = NoCanvasCall /\
    (Caption.id c <> EmptyString ->
     forall (rect' : Rect) (x y : number),
     exists updates,
       handleCanvasMouseMove true captions rect' x y drag'
       = CanvasCaptionChange (Caption.id c) updates /\
       Updates.start updates = None /\ Updates.end_ updates = None /\
       Updates.text updates = None) /\
    (forall (rect' : Rect) (x y : number),
       handleCanvasMouseMove true captions rect' x y (handleCanvasMouseUp drag')
       = NoCanvasCall).
Proof.
  intros Hidle Hdown Hgrab. unfold handleCanvasMouseDown in Hdown.
  cbn [negb] in Hdown.
  destruct (findCaptionAtTime captions liveTime) as [c |] eqn:Hfind.
  - match type of Hdown with
    | (if ?b then _ else _) = _ => destruct b
    end.
    + injection Hdown as <- <-. exists c. cbn [activeCaptionId].
      split; [reflexivity | idtac]. split; [reflexivity | idtac].
      split; [reflexivity | idtac]. split; [idtac | reflexivity].
      intros Hid rect' x y.
      assert (Hin : In c captions).
      { unfold findCaptionAtTime in Hfind. apply find_some in Hfind.
        exact (proj1 Hfind). }
      destruct (find_by_id_present captions c Hin) as (c' & Hc' & Eid).
      unfold handleCanvasMouseMove. cbn [isDraggingText activeCaptionId negb orb].
      apply String.eqb_neq in Hid. rewrite Hid, Hc', Eid.
      eexists. split; [reflexivity | idtac]. repeat split.
    + injection Hdown as <- _. rewrite Hidle in Hgrab. discriminate Hgrab.
  - injection Hdown as <- _. rewrite Hidle in Hgrab. discriminate Hgrab.
Qed.

Lemma canvas_press_grabs_showing_caption_witness :
  let c := Caption.mk "a" "00:00:01.000" "00:00:03.000" "early" None in
  let idle := {| isDraggingText := false; activeCaptionId := None |} in
  let grabbed := {| isDraggingText := true; activeCaptionId := Some "a" |} in
  exists c',
    findCaptionAtTime [c] (lit 2) = Some c' /\
    activeCaptionId grabbed = Some (Caption.id c') /\
    NoCanvasCall = NoCanvasCall /\
    (Caption.id c' <> EmptyString ->
     forall (rect' : Rect) (x y : number),
     exists updates,
       handleCanvasMouseMove true [c] rect' x y grabbed
       = CanvasCaptionChange (Caption.id c') updates /\
       Updates.start updates = None /\ Updates.end_ updates = None /\
       Updates.text updates = None) /\
    (forall (rect' : Rect) (x y : number),
       handleCanvasMouseMove true [c] rect' x y (handleCanvasMouseUp grabbed)
       = NoCanvasCall).
Proof.
  intros c idle grabbed.
  apply (canvas_press_grabs_showing_caption [c] DEFAULT_STYLE (lit 2)
           {| left := lit 0; top := lit 0; width := lit 200; height := lit 100 |}
           (lit 100) (lit 70) idle grabbed NoCanvasCall).
  - reflexivity.
  - vm_compute. reflexivity.
  - reflexivity.
Defined.
